(** * Phrase-overlap detection and scoring of the plagiarism service

    A shallow embedding of [findAllSimilarities], [findSimilarities],
    [calculateOverallSimilarity] and the comparison step of
    [checkPlagiarism] (the plagiarism service), followed by the properties
    of the matcher, the normalizer and the scorer.  The embedding also
    covers the rest of the synchronous code around them: the search terms
    and the filtering of the search results of [checkPlagiarism], the
    badges of [ResultsDisplay], the highlighter of the results and the
    guard of the submission form.

    Modelling conventions.
    - A JavaScript string is the list of its code units.  The code units
      are taken in the Latin-1 range U+0000..U+00FF (type [ascii]); on this
      range [toLowerCase] acts unit by unit, [\w] is [A-Za-z0-9_] and [\s]
      (and the set removed by [trim]) is U+0009..U+000D, U+0020, U+00A0.
    - Token indices, lengths and loop counters are [nat]; the result of
      [indexOf] is a [Z] because it may be [-1].
    - The scores of the matcher are exact rationals ([Q]): a quotient
      [k / n * 100] of token counts and its comparison with the threshold 5
      are taken without rounding.  The scorer, which takes a square root,
      works on real numbers extended with [NaN].
    - A [for] loop is a [fold_left] over the list of values of its counter;
      the [while] loop of the forward extension takes as fuel the number of
      original tokens left, which bounds its iterations
      ([extendForward_exit]). *)

From Stdlib Require Import Ascii String.
From Stdlib Require Import List Bool Arith ZArith NArith Lia Permutation.
From Stdlib Require Import QArith Qminmax Qround.
From Stdlib Require Import Reals Qreals Lra.
Import ListNotations.

Open Scope nat_scope.

(** ** JavaScript strings and the primitives the service uses *)

Module JS.

Definition jsstring := list ascii.

(** String literal. *)
Definition str (s : string) : jsstring := list_ascii_of_string s.

Definition code (c : ascii) : N := N_of_ascii c.

Definition inRange (lo hi : N) (c : ascii) : bool :=
  ((lo <=? code c) && (code c <=? hi))%N.

Definition isUpper (c : ascii) : bool := inRange 65 90 c.

(** U+00C0..U+00DE except the multiplication sign U+00D7. *)
Definition isLatin1Upper (c : ascii) : bool :=
  inRange 192 222 c && negb (code c =? 215)%N.

Definition toLowerChar (c : ascii) : ascii :=
  if isUpper c || isLatin1Upper c then ascii_of_N (code c + 32) else c.

(** [String.prototype.toLowerCase]. *)
Definition toLowerCase (s : jsstring) : jsstring := map toLowerChar s.

(** The class [\w]. *)
Definition isWordChar (c : ascii) : bool :=
  inRange 97 122 c || inRange 65 90 c || inRange 48 57 c || (code c =? 95)%N.

(** The class [\s]; also the characters [trim] removes. *)
Definition isSpaceChar (c : ascii) : bool :=
  inRange 9 13 c || (code c =? 32)%N || (code c =? 160)%N.

Definition space : ascii := " "%char.

(** [s.replace(/[^\w\s]/g, '')]. *)
Definition removeNonWordNonSpace (s : jsstring) : jsstring :=
  filter (fun c => isWordChar c || isSpaceChar c) s.

(** [s.replace(/\s+/g, ' ')]: every maximal run of [\s] becomes one space.
    [inRun] tells that the previous character belonged to the run being
    replaced. *)
Fixpoint replaceSpaceRuns (inRun : bool) (s : jsstring) : jsstring :=
  match s with
  | [] => []
  | c :: r =>
      if isSpaceChar c
      then if inRun then replaceSpaceRuns true r
           else space :: replaceSpaceRuns true r
      else c :: replaceSpaceRuns false r
  end.

Fixpoint trimStart (s : jsstring) : jsstring :=
  match s with
  | [] => []
  | c :: r => if isSpaceChar c then trimStart r else s
  end.

Fixpoint trimEnd (s : jsstring) : jsstring :=
  match s with
  | [] => []
  | c :: r =>
      match trimEnd r with
      | [] => if isSpaceChar c then [] else [c]
      | r' => c :: r'
      end
  end.

(** [String.prototype.trim]. *)
Definition trim (s : jsstring) : jsstring := trimEnd (trimStart s).

(** [s.split(' ')]; the empty string splits into one empty piece. *)
Fixpoint split (s : jsstring) : list jsstring :=
  match s with
  | [] => [[]]
  | c :: r =>
      if Ascii.eqb c space then [] :: split r
      else match split r with
           | w :: ws => (c :: w) :: ws
           | [] => [[c]]
           end
  end.

(** [a.join(' ')]. *)
Fixpoint join (ws : list jsstring) : jsstring :=
  match ws with
  | [] => []
  | [w] => w
  | w :: ws' => w ++ space :: join ws'
  end.

(** [a.slice(from, to)] for [0 <= from]. *)
Definition slice {A : Type} (a : list A) (from to : nat) : list A :=
  firstn (to - from) (skipn from a).

(** [s.substring(from, to)]: both bounds are clamped to the length and
    swapped when out of order. *)
Definition substring (s : jsstring) (from to : nat) : jsstring :=
  let a := Nat.min from (length s) in
  let b := Nat.min to (length s) in
  firstn (Nat.max a b - Nat.min a b) (skipn (Nat.min a b) s).

Fixpoint startsWith (pat s : jsstring) : bool :=
  match pat, s with
  | [], _ => true
  | _ :: _, [] => false
  | p :: pat', c :: s' => Ascii.eqb p c && startsWith pat' s'
  end.

Fixpoint indexOfFrom (pat s : jsstring) (k : nat) : option nat :=
  if startsWith pat s then Some k
  else match s with
       | [] => None
       | _ :: s' => indexOfFrom pat s' (S k)
       end.

(** [s.indexOf(pat)]: the first offset at which [pat] occurs, or [-1]. *)
Definition indexOf (s pat : jsstring) : Z :=
  match indexOfFrom pat s 0 with
  | Some k => Z.of_nat k
  | None => (-1)%Z
  end.

Fixpoint string_eqb (a b : jsstring) : bool :=
  match a, b with
  | [], [] => true
  | x :: a', y :: b' => Ascii.eqb x y && string_eqb a' b'
  | _, _ => false
  end.

(** [x === y] on array reads, where a read out of range is [undefined]. *)
Definition strictEq (x y : option jsstring) : bool :=
  match x, y with
  | Some a, Some b => string_eqb a b
  | None, None => true
  | _, _ => false
  end.

(** A JavaScript number of the scorer: a real or [NaN]. *)
Inductive number : Type :=
| NaN : number
| Num : R -> number.

(** [Math.sqrt]. *)
Definition Math_sqrt (x : R) : number :=
  if Rle_dec 0 x then Num (sqrt x) else NaN.

(** [Math.min] on two arguments. *)
Definition Math_min (x y : number) : number :=
  match x, y with
  | Num a, Num b => Num (Rmin a b)
  | _, _ => NaN
  end.

Definition times (x : number) (k : R) : number :=
  match x with
  | Num a => Num (a * k)
  | NaN => NaN
  end.

End JS.

Import JS.

(** ** The normalizer *)

(** [normalizeText], the local function of [findAllSimilarities]. *)
Definition normalizeText (text : jsstring) : jsstring :=
  trim (replaceSpaceRuns false (removeNonWordNonSpace (toLowerCase text))).

(** ** The phrase matcher *)

Record Match : Type := mkMatch {
  similarity : Q;
  matchedText : jsstring;
  originalIndex : Z;
  sourceIndex : Z
}.

(** An element of [coveredRanges]; [end_] is the field [end]. *)
Record CoveredRange : Type := mkRange {
  start : nat;
  end_ : nat
}.

(** The two arrays the scan appends to: [matches] and [coveredRanges]. *)
Record ScanState : Type := mkScan {
  st_matches : list Match;
  st_coveredRanges : list CoveredRange
}.

Record SimilarityResult : Type := mkResult {
  overallSimilarity : Q;
  matches : list Match
}.

(** The variables of the forward extension loop. *)
Record Extension : Type := mkExt {
  extendedMatch : jsstring;
  originalEnd : nat;
  sourceEnd : nat
}.

(** A token count as a number. *)
Definition ofNat (n : nat) : Q := inject_Z (Z.of_nat n).

(** [a < b] on numbers. *)
Definition Qltb (a b : Q) : bool :=
  match (a ?= b)%Q with
  | Lt => true
  | _ => false
  end.

(** [coveredRanges.some(range => i >= range.start && i <= range.end)]. *)
Definition isCovered (coveredRanges : list CoveredRange) (i : nat) : bool :=
  existsb (fun range => (start range <=? i) && (i <=? end_ range)) coveredRanges.

Section Matcher.

Variable originalText : jsstring.
Variable normalizedSource : jsstring.
Variable originalWords sourceWords : list jsstring.

(** The condition of the [while] loop: [sourceEnd], a character offset of
    [normalizedSource], is the index read in [sourceWords]. *)
Definition extendCond (e : Extension) : bool :=
  (originalEnd e <? length originalWords)
  && (sourceEnd e <? length normalizedSource)
  && strictEq (nth_error originalWords (originalEnd e))
              (nth_error sourceWords (sourceEnd e)).

Definition extendBody (e : Extension) : Extension :=
  {| extendedMatch :=
       extendedMatch e ++ space :: nth (originalEnd e) originalWords [];
     originalEnd := S (originalEnd e);
     sourceEnd := S (sourceEnd e) |}.

(** The [while] loop, run for at most [fuel] iterations. *)
Fixpoint extendForward (fuel : nat) (e : Extension) : Extension :=
  match fuel with
  | O => e
  | S fuel' => if extendCond e then extendForward fuel' (extendBody e) else e
  end.

(** The body of the inner [for] loop at start index [i]. *)
Definition scanAt (windowSize : nat) (st : ScanState) (i : nat) : ScanState :=
  if isCovered (st_coveredRanges st) i then st
  else
    let phrase := join (slice originalWords i (i + windowSize)) in
    let sourceIndex := indexOf normalizedSource phrase in
    if (0 <=? sourceIndex)%Z then
      let e := extendForward
                 (length originalWords - (i + windowSize))
                 {| extendedMatch := phrase;
                    originalEnd := i + windowSize;
                    sourceEnd := Z.to_nat sourceIndex + length phrase |} in
      let matchLength := length (split (extendedMatch e)) in
      let similarityScore :=
        (ofNat matchLength / ofNat (length originalWords) * 100)%Q in
      let originalPhraseIndex :=
        indexOf (toLowerCase originalText) (toLowerCase (extendedMatch e)) in
      let actualMatchedText :=
        if (0 <=? originalPhraseIndex)%Z
        then substring originalText
               (Z.to_nat originalPhraseIndex)
               (Z.to_nat originalPhraseIndex + length (extendedMatch e) + 20)
        else extendedMatch e in
      if Qltb 5 similarityScore then
        {| st_matches :=
             st_matches st ++
             [ {| similarity := similarityScore;
                  matchedText := actualMatchedText;
                  originalIndex := originalPhraseIndex;
                  sourceIndex := sourceIndex |} ];
           st_coveredRanges :=
             st_coveredRanges st ++
             [ {| start := i; end_ := originalEnd e - 1 |} ] |}
      else st
    else st.

(** [for (let i = 0; i <= originalWords.length - windowSize; i++)]. *)
Definition startIndices (windowSize : nat) : list nat :=
  seq 0 (S (length originalWords) - windowSize).

Definition scanWindow (st : ScanState) (windowSize : nat) : ScanState :=
  fold_left (scanAt windowSize) (startIndices windowSize) st.

(** [for (let windowSize = Math.min(15, originalWords.length);
         windowSize >= 4; windowSize--)]. *)
Definition windowSizes : list nat :=
  rev (seq 4 (Nat.min 15 (length originalWords) - 3)).

Definition scanAll : ScanState :=
  fold_left scanWindow windowSizes {| st_matches := []; st_coveredRanges := [] |}.

End Matcher.

(** [coveredRanges.reduce((total, range) => total + (range.end - range.start + 1), 0)]. *)
Definition totalCoverage (coveredRanges : list CoveredRange) : Z :=
  fold_left
    (fun total range => (total + (Z.of_nat (end_ range) - Z.of_nat (start range) + 1))%Z)
    coveredRanges 0%Z.

(** [a.sort((x, y) => key(y) - key(x))]: a stable sort, descending by key. *)
Section Sort.

Variable A : Type.
Variable key : A -> Q.

Fixpoint insertDesc (x : A) (sorted : list A) : list A :=
  match sorted with
  | [] => [x]
  | y :: rest =>
      if Qltb (key x) (key y)
      then y :: insertDesc x rest
      else x :: sorted
  end.

Definition sortDesc (l : list A) : list A := fold_right insertDesc [] l.

End Sort.

Arguments insertDesc {A} key x sorted.
Arguments sortDesc {A} key l.

(** [matches.sort((a, b) => b.similarity - a.similarity)]. *)
Definition sortBySimilarity (ms : list Match) : list Match :=
  sortDesc similarity ms.

(** The state of [matches] and [coveredRanges] when both loops have ended. *)
Definition scanTexts (originalText sourceText : jsstring) : ScanState :=
  let normalizedOriginal := normalizeText originalText in
  let normalizedSource := normalizeText sourceText in
  let originalWords := split normalizedOriginal in
  let sourceWords := split normalizedSource in
  scanAll originalText normalizedSource originalWords sourceWords.

Definition findAllSimilarities (originalText sourceText : jsstring)
  : SimilarityResult :=
  let originalWords := split (normalizeText originalText) in
  let st := scanTexts originalText sourceText in
  let totalCoverage := totalCoverage (st_coveredRanges st) in
  {| overallSimilarity :=
       Qmin (inject_Z totalCoverage / ofNat (length originalWords) * 100) 100;
     matches := sortBySimilarity (st_matches st) |}.

(** ** The legacy wrapper *)

Module Legacy.

Record Result : Type := mkResult {
  similarity : Q;
  matchedText : jsstring
}.

End Legacy.

Definition findSimilarities (originalText sourceText : jsstring) : Legacy.Result :=
  let results := findAllSimilarities originalText sourceText in
  {| Legacy.similarity := overallSimilarity results;
     Legacy.matchedText :=
       match matches results with
       | m :: _ => matchedText m
       | [] => []
       end |}.

(** ** The scorer and the comparison step of [checkPlagiarism] *)

Module PlagiarismMatch.

Record t : Type := mk {
  source : jsstring;
  similarity : Q;
  matchedText : jsstring;
  sourceText : jsstring;
  sourceUrl : option jsstring
}.

End PlagiarismMatch.

Record WikiExtractResult : Type := mkExtract {
  extract : jsstring;
  title : jsstring;
  pageid : Z
}.

Record PlagiarismResult : Type := mkPlagiarismResult {
  pr_overallSimilarity : number;
  pr_matches : list PlagiarismMatch.t
}.

(** [matches.reduce((sum, match) => sum + match.similarity, 0)].  The sum
    is exact: the rounding of the additions of doubles, which the source
    makes from left to right, is not modelled. *)
Definition totalSimilarity (matches : list PlagiarismMatch.t) : Q :=
  fold_left (fun sum m => (sum + PlagiarismMatch.similarity m)%Q) matches 0%Q.

Definition calculateOverallSimilarity (matches : list PlagiarismMatch.t) : number :=
  match matches with
  | [] => Num 0
  | _ :: _ =>
      Math_min
        (times
           (Math_sqrt (Q2R (totalSimilarity matches)
                       * INR (Nat.min (length matches) 5)))
           (8 / 10))
        (Num 100)
  end.

(** [title.replace(/ /g, '_')]. *)
Definition underscored (s : jsstring) : jsstring :=
  map (fun c => if Ascii.eqb c space then "_"%char else c) s.

(** The callback of [articleContents.forEach] in step 4 of
    [checkPlagiarism]; an article that failed to load is [None] and
    [collected] is the array [matches] being filled. *)
Definition compareArticle (text : jsstring)
  (collected : list PlagiarismMatch.t) (article : option WikiExtractResult)
  : list PlagiarismMatch.t :=
  match article with
  | None => collected
  | Some a =>
      match extract a with
      | [] => collected
      | _ :: _ =>
          let similarityResults := findAllSimilarities text (extract a) in
          if Qltb 10 (overallSimilarity similarityResults) then
            collected ++
            map (fun m =>
                   {| PlagiarismMatch.source := title a;
                      PlagiarismMatch.similarity := similarity m;
                      PlagiarismMatch.matchedText := matchedText m;
                      PlagiarismMatch.sourceText :=
                        substring (extract a)
                          (Z.to_nat (Z.max 0 (sourceIndex m - 50)))
                          (Z.to_nat (Z.min (Z.of_nat (length (extract a)))
                                       (sourceIndex m
                                        + Z.of_nat (length (matchedText m)) + 50)));
                      PlagiarismMatch.sourceUrl :=
                        Some (str "https://en.wikipedia.org/wiki/"
                              ++ underscored (title a)) |})
                (matches similarityResults)
          else collected
      end
  end.

(** Steps 4 and 5 of [checkPlagiarism], from the fetched articles on. *)
Definition checkArticles (text : jsstring)
  (articleContents : list (option WikiExtractResult)) : PlagiarismResult :=
  let matches :=
    sortDesc PlagiarismMatch.similarity
      (fold_left (compareArticle text) articleContents []) in
  {| pr_overallSimilarity := calculateOverallSimilarity matches;
     pr_matches := matches |}.

(** ** Notions the properties are stated with *)

(** The pieces of [s] between whitespace characters. *)
Fixpoint splitAtSpaces (s : jsstring) : list jsstring :=
  match s with
  | [] => [[]]
  | c :: r =>
      if isSpaceChar c then [] :: splitAtSpaces r
      else match splitAtSpaces r with
           | w :: ws => (c :: w) :: ws
           | [] => [[c]]
           end
  end.

(** Splitting at the characters selected by [p]; [split] and
    [splitAtSpaces] are its instances at the space and at [\s]. *)
Fixpoint splitBy (p : ascii -> bool) (s : jsstring) : list jsstring :=
  match s with
  | [] => [[]]
  | c :: r =>
      if p c then [] :: splitBy p r
      else match splitBy p r with
           | w :: ws => (c :: w) :: ws
           | [] => [[c]]
           end
  end.

Definition isSpace (c : ascii) : bool := Ascii.eqb c space.

Definition nonEmpty (w : jsstring) : bool :=
  match w with
  | [] => false
  | _ :: _ => true
  end.

(** The maximal runs of non-whitespace characters of [s], in order. *)
Definition tokens (s : jsstring) : list jsstring :=
  filter nonEmpty (splitAtSpaces s).

(** Letters and digits of the ASCII range. *)
Definition isAlphanumeric (c : ascii) : bool :=
  inRange 97 122 c || inRange 65 90 c || inRange 48 57 c.

(** A word of normalized text: not empty, made of characters of [\w] that
    [toLowerCase] leaves alone. *)
Definition normalWord (w : jsstring) : Prop :=
  w <> [] /\ Forall (fun c => isWordChar c = true /\ toLowerChar c = c) w.

(** Token index [k] lies in the range. *)
Definition containsIndex (range : CoveredRange) (k : nat) : bool :=
  (start range <=? k) && (k <=? end_ range).

(** Two ranges share a token index. *)
Definition overlaps (a b : CoveredRange) : bool :=
  (start a <=? end_ b) && (start b <=? end_ a).

Fixpoint pairwiseDisjoint (ranges : list CoveredRange) : bool :=
  match ranges with
  | [] => true
  | r :: rest =>
      forallb (fun r' => negb (overlaps r r')) rest && pairwiseDisjoint rest
  end.

(** The window [[i, i + windowSize - 1]] shares a token index with one of
    the ranges. *)
Definition windowIntersects (coveredRanges : list CoveredRange)
  (i windowSize : nat) : bool :=
  existsb
    (fun range => overlaps {| start := i; end_ := i + windowSize - 1 |} range)
    coveredRanges.

(** The number of leading positions at which two token sequences agree:
    the length of a token-by-token forward extension that stops at the
    first mismatch or when either sequence is exhausted. *)
Fixpoint agreeingTokens (original source : list jsstring) : nat :=
  match original, source with
  | o :: original', s :: source' =>
      if string_eqb o s then S (agreeingTokens original' source') else 0
  | _, _ => 0
  end.

(** The index, in the token sequence of [normalizedSource], of the token
    that follows character offset [offset] when [offset] is the end of a
    token. *)
Definition tokenIndexAfter (normalizedSource : jsstring) (offset : nat) : nat :=
  S (count_occ ascii_dec (firstn offset normalizedSource) space).

(** The sum of the similarity values, as a real number. *)
Definition sumOfSimilarities (ms : list PlagiarismMatch.t) : R :=
  fold_right (fun m acc => (Q2R (PlagiarismMatch.similarity m) + acc)%R) 0%R ms.

(** A match of the scorer with a given similarity. *)
Definition withSimilarity (q : Q) : PlagiarismMatch.t :=
  {| PlagiarismMatch.source := [];
     PlagiarismMatch.similarity := q;
     PlagiarismMatch.matchedText := [];
     PlagiarismMatch.sourceText := [];
     PlagiarismMatch.sourceUrl := None |}.

(** What the extension loop maintains for a phrase that starts at [i]. *)
Definition extInv (originalWords : list jsstring) (i : nat) (e : Extension) : Prop :=
  i < originalEnd e /\ originalEnd e <= length originalWords
  /\ extendedMatch e = join (slice originalWords i (originalEnd e)).

(** The loop body at [i] appended one match and one range to [st]. *)
Definition recorded (originalWords : list jsstring) (w i : nat)
  (st st' : ScanState) : Prop :=
  exists m oe,
    st' = {| st_matches := st_matches st ++ [m];
             st_coveredRanges :=
               st_coveredRanges st ++ [ {| start := i; end_ := oe - 1 |} ] |}
    /\ isCovered (st_coveredRanges st) i = false
    /\ i + w <= oe /\ oe <= length originalWords
    /\ (similarity m == ofNat (oe - i) / ofNat (length originalWords) * 100)%Q
    /\ (5 < similarity m)%Q.

(** What every state of a run satisfies. *)
Definition scanInv (originalWords : list jsstring) (st : ScanState) : Prop :=
  Forall (fun m => (0 <= similarity m <= 100)%Q) (st_matches st)
  /\ Forall (fun r => start r <= end_ r /\ end_ r < length originalWords)
            (st_coveredRanges st).

(** The first element has the largest key. *)
Definition headIsMax {A : Type} (key : A -> Q) (l : list A) : Prop :=
  match l with
  | [] => True
  | h :: t => Forall (fun y => (key y <= key h)%Q) t
  end.

(** The state in which nothing has been recorded. *)
Definition emptyScan : ScanState := {| st_matches := []; st_coveredRanges := [] |}.

(** The result with overall similarity 0 and no matches. *)
Definition emptyResult (r : SimilarityResult) : Prop :=
  (overallSimilarity r == 0)%Q /\ matches r = [].

(** ** Sample texts *)

(** An original of 8 tokens and a source that holds its tokens 1..7 as one
    phrase and, earlier, its tokens 0..3 followed by another word. *)
Definition original8 : jsstring := str "x a b c d e f g".
Definition source12 : jsstring := str "x a b c y a b c d e f g".

(** A text of 16 tokens. *)
Definition text16 : jsstring := str "a b c d e f g h i j k l m n o p".

(** An original whose first four tokens open the source, and a source whose
    token of index 7 is the fifth token of the original. *)
Definition original5 : jsstring := str "a b c d z".
Definition source8 : jsstring := str "a b c d q q q z".

(** ** Notions for the further properties of the matcher *)

(** The match [m] and the range [r] are what the loop body records at
    window size [w] and start index [start r]: [phrase] is the window,
    [extended] the phrase after the forward extension. *)
Definition matchOf (originalText normalizedSource : jsstring)
  (originalWords : list jsstring) (w : nat) (m : Match) (r : CoveredRange) : Prop :=
  let phrase := join (slice originalWords (start r) (start r + w)) in
  let extended := join (slice originalWords (start r) (S (end_ r))) in
  start r + w <= S (end_ r) /\ end_ r < length originalWords
  /\ sourceIndex m = indexOf normalizedSource phrase
  /\ (0 <= sourceIndex m)%Z
  /\ similarity m
     = (ofNat (S (end_ r) - start r) / ofNat (length originalWords) * 100)%Q
  /\ (5 < similarity m)%Q
  /\ originalIndex m = indexOf (toLowerCase originalText) (toLowerCase extended)
  /\ matchedText m
     = if (0 <=? originalIndex m)%Z
       then substring originalText
              (Z.to_nat (originalIndex m))
              (Z.to_nat (originalIndex m) + length extended + 20)
       else extended.

Definition matchedRange (originalText normalizedSource : jsstring)
  (originalWords : list jsstring) (m : Match) (r : CoveredRange) : Prop :=
  exists w, 4 <= w <= 15 /\ matchOf originalText normalizedSource originalWords w m r.

(** No range of [l] starts inside a range recorded before it; [earlier] are
    the ranges recorded before [l]. *)
Fixpoint freshFrom (earlier l : list CoveredRange) : Prop :=
  match l with
  | [] => True
  | r :: l' => isCovered earlier (start r) = false /\ freshFrom (earlier ++ [r]) l'
  end.

(** The matches and ranges of a state correspond one to one. *)
Definition runInv (originalText normalizedSource : jsstring)
  (originalWords : list jsstring) (st : ScanState) : Prop :=
  Forall2 (matchedRange originalText normalizedSource originalWords)
          (st_matches st) (st_coveredRanges st)
  /\ freshFrom [] (st_coveredRanges st).

(** The number of tokens of a range. *)
Definition rangeLength (r : CoveredRange) : nat := S (end_ r) - start r.

(** Descending by key. *)
Fixpoint sortedDesc {A : Type} (key : A -> Q) (l : list A) : Prop :=
  match l with
  | [] => True
  | x :: rest => Forall (fun y => (key y <= key x)%Q) rest /\ sortedDesc key rest
  end.

(** Two matches agree on what the scores are computed from. *)
Definition sameScore (a b : Match) : Prop :=
  similarity a = similarity b /\ sourceIndex a = sourceIndex b.

(** Two scan states agree on the ranges and on the scores of the matches. *)
Definition sameScores (st1 st2 : ScanState) : Prop :=
  st_coveredRanges st1 = st_coveredRanges st2
  /\ Forall2 sameScore (st_matches st1) (st_matches st2).

(** ** The earlier version of the service *)

Module LegacyService.

(** [calculateOverallSimilarity] of the earlier service: the sum is
    weighted by the number of matches, without the cap at 5. *)
Definition calculateOverallSimilarity (matches : list PlagiarismMatch.t) : number :=
  match matches with
  | [] => Num 0
  | _ :: _ =>
      Math_min
        (times
           (Math_sqrt (Q2R (totalSimilarity matches) * INR (length matches)))
           (8 / 10))
        (Num 100)
  end.

End LegacyService.

(** The order on numbers that are not [NaN]. *)
Definition numLe (x y : number) : Prop :=
  match x, y with
  | Num a, Num b => (a <= b)%R
  | _, _ => False
  end.

(** The text has no character of the class [\w]. *)
Definition noWordChar (x : jsstring) : Prop :=
  Forall (fun c => isWordChar c = false) x.

(** ** The search results of [checkPlagiarism] *)

Module WikiSearchResult.

Record t : Type := mk {
  title : jsstring;
  snippet : jsstring;
  pageid : Z
}.

End WikiSearchResult.

(** [a.findIndex(p)]: the index of the first element that satisfies [p],
    or [-1]. *)
Fixpoint findIndexFrom {A : Type} (p : A -> bool) (a : list A) (k : nat) : Z :=
  match a with
  | [] => (-1)%Z
  | x :: r => if p x then Z.of_nat k else findIndexFrom p r (S k)
  end.

Definition findIndex {A : Type} (p : A -> bool) (a : list A) : Z :=
  findIndexFrom p a 0.

(** [a.filter((x, index, self) => f(x, index, self))], from index [k] on. *)
Fixpoint filterIndexedFrom {A : Type} (f : A -> nat -> bool) (a : list A) (k : nat)
  : list A :=
  match a with
  | [] => []
  | x :: r =>
      if f x k then x :: filterIndexedFrom f r (S k)
      else filterIndexedFrom f r (S k)
  end.

(** Step 2 of [checkPlagiarism] after the searches: the results of all
    search terms, flattened, without the results whose page was already
    found, cut to 8. *)
Definition flatResults (searchResults : list (list WikiSearchResult.t))
  : list WikiSearchResult.t :=
  let self := concat searchResults in
  slice
    (filterIndexedFrom
       (fun result index =>
          (Z.of_nat index
           =? findIndex
                (fun r => (WikiSearchResult.pageid r
                           =? WikiSearchResult.pageid result)%Z)
                self)%Z)
       self 0)
    0 8.

(** The elements of [l] whose page id occurs neither in [seen] nor
    earlier in [l]. *)
Fixpoint firstOccurrences (seen l : list WikiSearchResult.t)
  : list WikiSearchResult.t :=
  match l with
  | [] => []
  | x :: r =>
      if existsb (fun y => (WikiSearchResult.pageid y
                            =? WikiSearchResult.pageid x)%Z) seen
      then firstOccurrences (seen ++ [x]) r
      else x :: firstOccurrences (seen ++ [x]) r
  end.

(** The [PlagiarismMatch] that [checkPlagiarism] builds from a match [m]
    found in the article [a]. *)
Definition plagiarismMatchOf (a : WikiExtractResult) (m : Match) : PlagiarismMatch.t :=
  {| PlagiarismMatch.source := title a;
     PlagiarismMatch.similarity := similarity m;
     PlagiarismMatch.matchedText := matchedText m;
     PlagiarismMatch.sourceText :=
       substring (extract a)
         (Z.to_nat (Z.max 0 (sourceIndex m - 50)))
         (Z.to_nat (Z.min (Z.of_nat (length (extract a)))
                      (sourceIndex m
                       + Z.of_nat (length (matchedText m)) + 50)));
     PlagiarismMatch.sourceUrl :=
       Some (str "https://en.wikipedia.org/wiki/" ++ underscored (title a)) |}.

(** The article is used by [checkPlagiarism]: it was loaded, its extract
    is not empty and it scores above 10 against the text. *)
Definition retained (text : jsstring) (article : option WikiExtractResult) : Prop :=
  match article with
  | None => False
  | Some a =>
      extract a <> []
      /\ (10 < overallSimilarity (findAllSimilarities text (extract a)))%Q
  end.

(** ** The search terms of [checkPlagiarism] *)

(** One of the characters of the class [[.!?]]. *)
Definition isSentenceEnd (c : ascii) : bool :=
  Ascii.eqb c "."%char || Ascii.eqb c "!"%char || Ascii.eqb c "?"%char.

(** [s.split(/[p]+/)]: the pieces of [s] between the maximal runs of
    characters of the class [p]; a run at either end leaves an empty piece
    there.  [inRun] tells that the previous character belonged to the run
    being skipped. *)
Fixpoint splitRuns (p : ascii -> bool) (inRun : bool) (s : jsstring) : list jsstring :=
  match s with
  | [] => [[]]
  | c :: r =>
      if p c
      then if inRun then splitRuns p true r else [] :: splitRuns p true r
      else match splitRuns p false r with
           | w :: ws => (c :: w) :: ws
           | [] => [[c]]
           end
  end.

(** The filter of [extractSearchTerms]:
    [s.length > 15 && s.split(' ').length > 5]. *)
Definition isSearchSentence (s : jsstring) : bool :=
  (15 <? length s) && (5 <? length (split s)).

(** [text.split(/[.!?]+/).map(s => s.trim()).filter(...)]. *)
Definition searchSentences (text : jsstring) : list jsstring :=
  filter isSearchSentence (map trim (splitRuns isSentenceEnd false text)).

(** [arr.filter((s, i, arr) => arr.indexOf(s) === i)]. *)
Definition withoutRepeats (arr : list jsstring) : list jsstring :=
  filterIndexedFrom
    (fun s i => (Z.of_nat i =? findIndex (fun s' => string_eqb s' s) arr)%Z)
    arr 0.

(** [extractSearchTerms] of the current service.  [Math.floor] of the
    products by 0.25, 0.5 and 0.75 and the truncation of the arguments of
    [substring] are integer divisions. *)
Definition extractSearchTerms (text : jsstring) : list jsstring :=
  let sentences := searchSentences text in
  if 5 <? length sentences then
    let sampledSentences :=
      [ nth 0 sentences [];
        nth (length sentences / 4) sentences [];
        nth (length sentences / 2) sentences [];
        nth (length sentences * 3 / 4) sentences [];
        nth (length sentences - 1) sentences [] ] in
    withoutRepeats sampledSentences
  else if 0 <? length sentences then sentences
  else
    let textLength := length text in
    if 200 <? textLength then
      [ substring text 0 100;
        substring text (textLength / 2 - 50) (textLength / 2 + 50);
        substring text (textLength - 100) (length text) ]
    else [text].

(** The text has no leading and no trailing whitespace. *)
Definition trimmed (s : jsstring) : Prop :=
  match s with
  | [] => True
  | c :: _ => isSpaceChar c = false /\ isSpaceChar (last s c) = false
  end.

(** The elements of [l] that are equal neither to an element of [seen]
    nor to an earlier element of [l]. *)
Fixpoint firstStrings (seen l : list jsstring) : list jsstring :=
  match l with
  | [] => []
  | x :: r =>
      if existsb (fun y => string_eqb y x) seen
      then firstStrings (seen ++ [x]) r
      else x :: firstStrings (seen ++ [x]) r
  end.

(** ** The badges of the results display *)

(** [x < k] on a number; a comparison with [NaN] is false. *)
Definition lessThan (x : number) (k : R) : bool :=
  match x with
  | Num a => if Rlt_dec a k then true else false
  | NaN => false
  end.

(** [getSimilarityColor] of [ResultsDisplay]. *)
Definition getSimilarityColor (similarity : number) : jsstring :=
  if lessThan similarity 20 then str "bg-green-100 text-green-800"
  else if lessThan similarity 40 then str "bg-yellow-100 text-yellow-800"
  else str "bg-red-100 text-red-800".

(** [getSeverityLevel] of [ResultsDisplay]. *)
Definition getSeverityLevel (similarity : number) : jsstring :=
  if lessThan similarity 20 then str "Low"
  else if lessThan similarity 40 then str "Moderate"
  else str "High".

(** A text of six qualifying sentences. *)
Definition sixSentences : jsstring :=
  str "one two three four five six a. one two three four five six b! one two three four five six c? one two three four five six d. one two three four five six e. one two three four five six f.".

(** ** The highlighter of the results display *)

Module Highlighter.

(** An element of [highlightedRanges]: the characters from [start] up to,
    but not including, [end_] (the field [end]). *)
Record Range : Type := mkRange {
  start : nat;
  end_ : nat
}.

(** A [span] of the rendering: its text and whether it is highlighted. *)
Record Part : Type := mkPart {
  highlighted : bool;
  text : jsstring
}.

Definition backslash : ascii := ascii_of_nat 92.

(** The class [[.*+?^${}()|[\]\\]] of [escapeRegExp]. *)
Definition isSpecial (c : ascii) : bool :=
  existsb (Ascii.eqb c) (backslash :: str ".*+?^${}()|[]").

(** [string.replace(/[.*+?^${}()|[\]\\]/g, '\\$&')]: a backslash is put
    before every special character. *)
Definition escapeRegExp (s : jsstring) : jsstring :=
  flat_map (fun c => if isSpecial c then [backslash; c] else [c]) s.

(** The string a pattern stands for when the pattern is made of escaped
    special characters and of characters that are not special; no other
    pattern is compiled here. *)
Fixpoint literalOfPattern (pattern : jsstring) : option jsstring :=
  match pattern with
  | [] => Some []
  | c :: r =>
      if Ascii.eqb c backslash then
        match r with
        | d :: r' =>
            if isSpecial d then option_map (cons d) (literalOfPattern r') else None
        | [] => None
        end
      else if isSpecial c then None
      else option_map (cons c) (literalOfPattern r)
  end.

(** Two characters match under the flag [i]. *)
Definition sameLetter (a b : ascii) : bool :=
  Ascii.eqb (toLowerChar a) (toLowerChar b).

Fixpoint startsWithIgnoringCase (literal s : jsstring) : bool :=
  match literal, s with
  | [], _ => true
  | _ :: _, [] => false
  | p :: literal', c :: s' => sameLetter p c && startsWithIgnoringCase literal' s'
  end.

Fixpoint searchIgnoringCase (literal s : jsstring) (k : nat) : option nat :=
  if startsWithIgnoringCase literal s then Some k
  else match s with
       | [] => None
       | _ :: s' => searchIgnoringCase literal s' (S k)
       end.

(** [regex.exec(s)] for the regular expression of a literal with the flags
    [gi] and the given [lastIndex]: the index of the first match at or
    after [lastIndex], or [None] for [null]. *)
Definition exec (literal s : jsstring) (lastIndex : nat) : option nat :=
  if length s <? lastIndex then None
  else searchIgnoringCase literal (skipn lastIndex s) lastIndex.

(** The test [overlapping] of a candidate range against the ranges kept. *)
Definition overlapping (highlightedRanges : list Range) (start0 end0 : nat) : bool :=
  existsb
    (fun range =>
       ((start range <=? start0) && (start0 <? end_ range))
       || ((start range <? end0) && (end0 <=? end_ range))
       || ((start0 <=? start range) && (end_ range <=? end0)))
    highlightedRanges.

(** The [while] loop over the matches of one regular expression, run for
    at most [fuel] iterations; [lastIndex] is the state of the regular
    expression and [len] is [match.matchedText.length]. *)
Fixpoint execLoop (fuel : nat) (literal result : jsstring) (len : nat)
  (lastIndex : nat) (highlightedRanges : list Range) : list Range :=
  match fuel with
  | O => highlightedRanges
  | S fuel' =>
      match exec literal result lastIndex with
      | None => highlightedRanges
      | Some start0 =>
          let end0 := start0 + len in
          execLoop fuel' literal result len (start0 + length literal)
            (if overlapping highlightedRanges start0 end0
             then highlightedRanges
             else highlightedRanges ++ [ {| start := start0; end_ := end0 |} ])
      end
  end.

(** The callback of [sortedMatches.forEach].  The loop is run for at most
    [result.length + 1] passes: for a non-empty matched text that bound is
    never reached ([execLoop_runs]); for the empty matched text the loop of
    the source is never left ([whileRuns_empty_literal]), and the value
    given here is that of the loop cut at the bound. *)
Definition markMatch (result : jsstring) (highlightedRanges : list Range)
  (m : PlagiarismMatch.t) : list Range :=
  let matchText := escapeRegExp (PlagiarismMatch.matchedText m) in
  match literalOfPattern matchText with
  | Some literal =>
      execLoop (S (length result)) literal result
        (length (PlagiarismMatch.matchedText m)) 0 highlightedRanges
  | None => highlightedRanges
  end.

(** [ranges.sort((a, b) => a.start - b.start)]: a stable sort, ascending
    by start. *)
Fixpoint insertByStart (x : Range) (sorted : list Range) : list Range :=
  match sorted with
  | [] => [x]
  | y :: rest =>
      if start y <=? start x then y :: insertByStart x rest else x :: sorted
  end.

Definition sortByStart (l : list Range) : list Range :=
  fold_right insertByStart [] l.

(** The callback of [highlightedRanges.forEach]: the state is the parts
    pushed so far and [lastPos]. *)
Definition pushRange (result : jsstring) (st : list Part * nat) (range : Range)
  : list Part * nat :=
  let (highlightedParts, lastPos) := st in
  let withText :=
    if lastPos <? start range
    then highlightedParts
         ++ [ {| highlighted := false;
                 text := substring result lastPos (start range) |} ]
    else highlightedParts in
  (withText
   ++ [ {| highlighted := true;
           text := substring result (start range) (end_ range) |} ],
   end_ range).

(** [renderHighlightedText]: the spans of the rendering; without matches
    the original text is rendered as it is. *)
Definition renderHighlightedText (originalText : jsstring)
  (matches : list PlagiarismMatch.t) : list Part :=
  match matches with
  | [] => [ {| highlighted := false; text := originalText |} ]
  | _ :: _ =>
      let result := originalText in
      let sortedMatches :=
        sortDesc (fun m => ofNat (length (PlagiarismMatch.matchedText m))) matches in
      let highlightedRanges :=
        sortByStart (fold_left (markMatch result) sortedMatches []) in
      let (highlightedParts, lastPos) :=
        fold_left (pushRange result) highlightedRanges ([], 0) in
      if lastPos <? length result
      then highlightedParts
           ++ [ {| highlighted := false;
                   text := substring result lastPos (length result) |} ]
      else highlightedParts
  end.

(** The text of a rendering. *)
Definition textOf (parts : list Part) : jsstring := concat (map text parts).

(** What the ranges kept for [result] satisfy. *)
Definition wellFormed (result : jsstring) (matches : list PlagiarismMatch.t)
  (r : Range) : Prop :=
  start r < end_ r /\ end_ r <= length result
  /\ exists m, In m matches
               /\ toLowerCase (substring result (start r) (end_ r))
                  = toLowerCase (PlagiarismMatch.matchedText m).

(** Two ranges have no character in common. *)
Definition disjoint (a b : Range) : Prop :=
  end_ a <= start b \/ end_ b <= start a.

Fixpoint pairwise (P : Range -> Range -> Prop) (l : list Range) : Prop :=
  match l with
  | [] => True
  | x :: rest => Forall (P x) rest /\ pairwise P rest
  end.

End Highlighter.

(** ** The submission form *)

(** The guard of [handleSubmit] in [PlagiarismChecker]: the text is passed
    on to [checkPlagiarism] unless
    [!text.trim() || text.trim().length < 50]. *)
Definition submissionAccepted (text : jsstring) : bool :=
  negb (negb (nonEmpty (trim text)) || (length (trim text) <? 50)).

(** The matches that one fetched article adds to the array [matches] of
    [checkPlagiarism], in the order in which they are pushed: those of
    [findAllSimilarities], relabelled, when the article was loaded, its
    extract is not empty and it scores above 10; none otherwise. *)
Definition contribution (text : jsstring) (article : option WikiExtractResult)
  : list PlagiarismMatch.t :=
  match article with
  | None => []
  | Some a =>
      if nonEmpty (extract a)
         && Qltb 10 (overallSimilarity (findAllSimilarities text (extract a)))
      then map (plagiarismMatchOf a) (matches (findAllSimilarities text (extract a)))
      else []
  end.

(** A text of five words, and six articles of different pages whose extract
    is that text. *)
Definition foxText : jsstring := str "the quick brown fox jumps".

Definition foxArticle (name : jsstring) (id : Z) : WikiExtractResult :=
  {| extract := foxText; title := name; pageid := id |}.

Definition foxArticles : list (option WikiExtractResult) :=
  [ Some (foxArticle (str "Fox") 1); Some (foxArticle (str "Red fox") 2);
    Some (foxArticle (str "Arctic fox") 3); Some (foxArticle (str "Fennec fox") 4);
    Some (foxArticle (str "Swift fox") 5); Some (foxArticle (str "Kit fox") 6) ].

(** The [while] loop of the highlighter as the source runs it, without a
    bound on its passes: [whileRuns literal result len lastIndex ranges n
    final] holds when the loop, entered with the state [lastIndex] of the
    regular expression and the ranges [ranges], is left after [n] passes
    through its body, with the ranges [final].  A loop that is never left
    has no run. *)
Inductive whileRuns (literal result : jsstring) (len : nat)
  : nat -> list Highlighter.Range -> nat -> list Highlighter.Range -> Prop :=
| whileRuns_exit (lastIndex : nat) (ranges : list Highlighter.Range) :
    Highlighter.exec literal result lastIndex = None ->
    whileRuns literal result len lastIndex ranges 0 ranges
| whileRuns_pass (lastIndex : nat) (ranges : list Highlighter.Range)
    (start0 n : nat) (final : list Highlighter.Range) :
    Highlighter.exec literal result lastIndex = Some start0 ->
    whileRuns literal result len (start0 + length literal)
      (if Highlighter.overlapping ranges start0 (start0 + len)
       then ranges
       else ranges ++ [ Highlighter.mkRange start0 (start0 + len) ])
      n final ->
    whileRuns literal result len lastIndex ranges (S n) final.

(** A match of the highlighter with the given matched text. *)
Definition matchOfText (matchedText : jsstring) : PlagiarismMatch.t :=
  {| PlagiarismMatch.source := [];
     PlagiarismMatch.similarity := 50;
     PlagiarismMatch.matchedText := matchedText;
     PlagiarismMatch.sourceText := [];
     PlagiarismMatch.sourceUrl := None |}.

(** * Properties *)

(** ** Characters *)

Ltac each_char c :=
  destruct c as [[] [] [] [] [] [] [] []]; vm_compute; try reflexivity; try discriminate; auto.

Lemma toLowerChar_idem (c : ascii) : toLowerChar (toLowerChar c) = toLowerChar c.
Proof. each_char c. Qed.

Lemma word_not_space (c : ascii) : isWordChar c = true -> isSpaceChar c = false.
Proof. each_char c. Qed.

Lemma eqb_space_isSpace (c : ascii) : Ascii.eqb c space = true -> isSpaceChar c = true.
Proof. each_char c. Qed.

Lemma isSpace_space : isSpaceChar space = true.
Proof. reflexivity. Qed.

Lemma toLowerChar_space : toLowerChar space = space.
Proof. reflexivity. Qed.

(** ** Splitting and joining *)

Lemma splitAtSpaces_not_nil (s : jsstring) : splitAtSpaces s <> [].
Proof.
  destruct s as [|c r]; simpl; [discriminate|].
  destruct (isSpaceChar c); [discriminate|].
  destruct (splitAtSpaces r); discriminate.
Qed.

Lemma split_not_nil (s : jsstring) : split s <> [].
Proof.
  destruct s as [|c r]; simpl; [discriminate|].
  destruct (Ascii.eqb c space); [discriminate|].
  destruct (split r); discriminate.
Qed.

Lemma join_cons_char (c : ascii) (w : jsstring) (ws : list jsstring) :
  join ((c :: w) :: ws) = c :: join (w :: ws).
Proof. destruct ws; reflexivity. Qed.

Lemma join_cons2 (w v : jsstring) (ws : list jsstring) :
  join (w :: v :: ws) = w ++ space :: join (v :: ws).
Proof. reflexivity. Qed.

Lemma tokens_space (c : ascii) (s : jsstring) :
  isSpaceChar c = true -> tokens (c :: s) = tokens s.
Proof. intros H. unfold tokens. simpl. rewrite H. reflexivity. Qed.

Lemma tokens_char (c : ascii) (s : jsstring) :
  isSpaceChar c = false ->
  exists w ws, splitAtSpaces s = w :: ws /\ tokens (c :: s) = (c :: w) :: filter nonEmpty ws.
Proof.
  intros H. unfold tokens. simpl. rewrite H.
  destruct (splitAtSpaces s) as [|w ws] eqn:E.
  - exfalso. exact (splitAtSpaces_not_nil _ E).
  - exists w, ws. split; reflexivity.
Qed.

Lemma tokens_char_space (c d : ascii) (s : jsstring) :
  isSpaceChar c = false -> isSpaceChar d = true ->
  tokens (c :: d :: s) = [c] :: tokens s.
Proof. intros Hc Hd. unfold tokens. simpl. rewrite Hc, Hd. reflexivity. Qed.

Lemma tokens_char_char (c d : ascii) (s : jsstring) :
  isSpaceChar c = false -> isSpaceChar d = false ->
  exists w ts, tokens (d :: s) = (d :: w) :: ts /\ tokens (c :: d :: s) = (c :: d :: w) :: ts.
Proof.
  intros Hc Hd. unfold tokens. simpl. rewrite Hc, Hd.
  destruct (splitAtSpaces s) as [|w ws]; simpl; eauto.
Qed.

Lemma tokens_nonEmpty (s : jsstring) : Forall (fun w => w <> []) (tokens s).
Proof.
  apply Forall_forall. intros w Hw. apply filter_In in Hw.
  destruct Hw as [_ Hw]. destruct w; [discriminate | discriminate].
Qed.

Lemma join_tokens_nil (s : jsstring) : join (tokens s) = [] -> tokens s = [].
Proof.
  pose proof (tokens_nonEmpty s) as H.
  destruct (tokens s) as [|w ws]; [reflexivity|].
  inversion H as [|? ? Hw _]; subst.
  destruct w as [|c w]; [congruence|].
  rewrite join_cons_char. discriminate.
Qed.

Lemma splitAtSpaces_chars (s : jsstring) :
  forall w c, In w (splitAtSpaces s) -> In c w -> In c s /\ isSpaceChar c = false.
Proof.
  induction s as [|a r IH]; simpl; intros w c Hw Hc.
  - destruct Hw as [<-|[]]. destruct Hc.
  - destruct (isSpaceChar a) eqn:Ea.
    + destruct Hw as [<-|Hw]; [destruct Hc|].
      destruct (IH _ _ Hw Hc); auto.
    + destruct (splitAtSpaces r) as [|v vs] eqn:Er.
      * destruct Hw as [<-|[]]. destruct Hc as [<-|[]]. auto.
      * destruct Hw as [<-|Hw].
        -- destruct Hc as [<-|Hc]; [auto|].
           destruct (IH v c (or_introl eq_refl) Hc); auto.
        -- destruct (IH w c (or_intror Hw) Hc); auto.
Qed.

Lemma tokens_chars (s : jsstring) :
  forall w c, In w (tokens s) -> In c w -> In c s /\ isSpaceChar c = false.
Proof.
  intros w c Hw Hc. apply filter_In in Hw. destruct Hw as [Hw _].
  eapply splitAtSpaces_chars; eauto.
Qed.

(** ** Collapsing and trimming yield the tokens joined by single spaces *)

Lemma replaceSpaceRuns_true_head (s : jsstring) :
  trimStart (replaceSpaceRuns true s) = replaceSpaceRuns true s.
Proof.
  induction s as [|c r IH]; simpl; [reflexivity|].
  destruct (isSpaceChar c) eqn:E; [exact IH|].
  simpl. rewrite E. reflexivity.
Qed.

Lemma trimStart_replaceSpaceRuns (s : jsstring) :
  trimStart (replaceSpaceRuns false s) = replaceSpaceRuns true s.
Proof.
  destruct s as [|c r]; simpl; [reflexivity|].
  destruct (isSpaceChar c) eqn:E; simpl.
  - apply replaceSpaceRuns_true_head.
  - rewrite E. reflexivity.
Qed.

Lemma trimEnd_replaceSpaceRuns (s : jsstring) :
  trimEnd (replaceSpaceRuns true s) = join (tokens s)
  /\ forall c, isSpaceChar c = false ->
       trimEnd (c :: replaceSpaceRuns false s) = join (tokens (c :: s)).
Proof.
  induction s as [|d r [IHP IHQ]].
  - split; [reflexivity|]. intros c Hc. simpl. unfold tokens. simpl. rewrite Hc. reflexivity.
  - split.
    + simpl. destruct (isSpaceChar d) eqn:Ed.
      * rewrite tokens_space by assumption. exact IHP.
      * apply IHQ. exact Ed.
    + intros c Hc. destruct (isSpaceChar d) eqn:Ed.
      * rewrite tokens_char_space by assumption.
        change (replaceSpaceRuns false (d :: r)) with
          (if isSpaceChar d then space :: replaceSpaceRuns true r
           else d :: replaceSpaceRuns false r).
        rewrite Ed.
        change (trimEnd (c :: space :: replaceSpaceRuns true r)) with
          (match (match trimEnd (replaceSpaceRuns true r) with
                  | [] => if isSpaceChar space then [] else [space]
                  | r' => space :: r'
                  end) with
           | [] => if isSpaceChar c then [] else [c]
           | r' => c :: r'
           end).
        rewrite IHP, Hc, isSpace_space.
        destruct (join (tokens r)) as [|x xs] eqn:Ej.
        -- rewrite (join_tokens_nil r Ej). reflexivity.
        -- revert Ej. destruct (tokens r) as [|w ws]; [discriminate|].
           intros Ej. rewrite join_cons2, Ej. reflexivity.
      * destruct (tokens_char_char c d r Hc Ed) as (w & ts & E1 & E2).
        rewrite E2, join_cons_char.
        change (replaceSpaceRuns false (d :: r)) with
          (if isSpaceChar d then space :: replaceSpaceRuns true r
           else d :: replaceSpaceRuns false r).
        rewrite Ed.
        change (trimEnd (c :: d :: replaceSpaceRuns false r)) with
          (match trimEnd (d :: replaceSpaceRuns false r) with
           | [] => if isSpaceChar c then [] else [c]
           | r' => c :: r'
           end).
        rewrite (IHQ d Ed), E1, !join_cons_char. reflexivity.
Qed.

Lemma trim_replaceSpaceRuns (s : jsstring) :
  trim (replaceSpaceRuns false s) = join (tokens s).
Proof.
  unfold trim. rewrite trimStart_replaceSpaceRuns.
  apply trimEnd_replaceSpaceRuns.
Qed.

(** ** Splitting a joined list gives the list back *)

Lemma split_splitBy (s : jsstring) : split s = splitBy isSpace s.
Proof.
  induction s as [|c r IH]; simpl; [reflexivity|].
  unfold isSpace at 1. rewrite IH. reflexivity.
Qed.

Lemma splitAtSpaces_splitBy (s : jsstring) : splitAtSpaces s = splitBy isSpaceChar s.
Proof.
  induction s as [|c r IH]; simpl; [reflexivity|].
  rewrite IH. reflexivity.
Qed.

Section SplitBy.

Variable p : ascii -> bool.
Hypothesis p_space : p space = true.

Let free (w : jsstring) : Prop := Forall (fun c => p c = false) w.

Lemma splitBy_free (w : jsstring) : free w -> splitBy p w = [w].
Proof.
  induction 1 as [|c w Hc Hw IH]; simpl; [reflexivity|].
  rewrite Hc, IH. reflexivity.
Qed.

Lemma splitBy_app (w rest : jsstring) :
  free w -> splitBy p (w ++ space :: rest) = w :: splitBy p rest.
Proof.
  induction 1 as [|c w Hc Hw IH]; simpl.
  - rewrite p_space. reflexivity.
  - rewrite Hc, IH. reflexivity.
Qed.

Lemma splitBy_join (ws : list jsstring) :
  ws <> [] -> Forall free ws -> splitBy p (join ws) = ws.
Proof.
  induction ws as [|w ws IH]; intros Hne Hfree; [congruence|].
  inversion Hfree as [|? ? Hw Hws]; subst.
  destruct ws as [|v ws].
  - simpl. apply splitBy_free. exact Hw.
  - rewrite join_cons2, splitBy_app by exact Hw.
    rewrite IH; [reflexivity | discriminate | exact Hws].
Qed.

Lemma splitBy_pieces_free (s : jsstring) : Forall free (splitBy p s).
Proof.
  induction s as [|c r IH]; simpl.
  - repeat constructor.
  - destruct (p c) eqn:Ec.
    + constructor; [constructor | exact IH].
    + destruct (splitBy p r) as [|w ws].
      * repeat constructor. exact Ec.
      * inversion IH; subst. constructor; [constructor|]; assumption.
Qed.

Lemma splitBy_length_join (ws : list jsstring) :
  ws <> [] -> Forall free ws -> length (splitBy p (join ws)) = length ws.
Proof. intros. rewrite splitBy_join; auto. Qed.

End SplitBy.

Lemma isSpace_eq (c : ascii) : isSpace c = true -> c = space.
Proof. unfold isSpace. apply Ascii.eqb_eq. Qed.

Lemma join_split (s : jsstring) : join (split s) = s.
Proof.
  induction s as [|c r IH]; simpl; [reflexivity|].
  destruct (Ascii.eqb c space) eqn:Ec.
  - apply Ascii.eqb_eq in Ec. subst c.
    pose proof (split_not_nil r) as Hne.
    destruct (split r) as [|w ws]; [congruence|].
    rewrite join_cons2, IH. reflexivity.
  - pose proof (split_not_nil r) as Hne.
    destruct (split r) as [|w ws]; [congruence|].
    rewrite join_cons_char, IH. reflexivity.
Qed.

(** ** The normalizer *)

Lemma join_chars (ws : list jsstring) (c : ascii) :
  In c (join ws) -> c = space \/ exists w, In w ws /\ In c w.
Proof.
  induction ws as [|w ws IH]; intros H; [destruct H|].
  destruct ws as [|v ws].
  - right. exists w. split; [left; reflexivity | exact H].
  - rewrite join_cons2 in H. apply in_app_or in H.
    destruct H as [H|[H|H]].
    + right. exists w. split; [left; reflexivity | exact H].
    + left. symmetry. exact H.
    + destruct (IH H) as [E|(u & Hu & Hc)]; [left; exact E|].
      right. exists u. split; [right; exact Hu | exact Hc].
Qed.

Lemma filter_all (A : Type) (f : A -> bool) (l : list A) :
  (forall x, In x l -> f x = true) -> filter f l = l.
Proof.
  induction l as [|x l IH]; intros H; simpl; [reflexivity|].
  rewrite (H x (or_introl eq_refl)), IH; [reflexivity|].
  intros y Hy. apply H. right. exact Hy.
Qed.

Lemma map_fixed (A : Type) (f : A -> A) (l : list A) :
  (forall x, In x l -> f x = x) -> map f l = l.
Proof.
  induction l as [|x l IH]; intros H; simpl; [reflexivity|].
  rewrite (H x (or_introl eq_refl)), IH; [reflexivity|].
  intros y Hy. apply H. right. exact Hy.
Qed.

Lemma tokens_normal (x : jsstring) :
  Forall normalWord (tokens (removeNonWordNonSpace (toLowerCase x))).
Proof.
  apply Forall_forall. intros w Hw. split.
  - pose proof (tokens_nonEmpty (removeNonWordNonSpace (toLowerCase x))) as H.
    rewrite Forall_forall in H. exact (H w Hw).
  - apply Forall_forall. intros c Hc.
    destruct (tokens_chars _ _ _ Hw Hc) as [Hin Hns].
    apply filter_In in Hin. destruct Hin as [Hin Hkeep].
    rewrite Hns, orb_false_r in Hkeep. split; [exact Hkeep|].
    apply in_map_iff in Hin. destruct Hin as (c' & <- & _).
    apply toLowerChar_idem.
Qed.

Lemma normalizeText_join_tokens (x : jsstring) :
  normalizeText x = join (tokens (removeNonWordNonSpace (toLowerCase x))).
Proof. unfold normalizeText. apply trim_replaceSpaceRuns. Qed.

Lemma normalWords_chars (ts : list jsstring) (c : ascii) :
  Forall normalWord ts -> In c (join ts) ->
  c = space \/ (isWordChar c = true /\ toLowerChar c = c).
Proof.
  intros Hts Hc. destruct (join_chars _ _ Hc) as [E|(w & Hw & Hcw)]; [left; exact E|].
  right. rewrite Forall_forall in Hts. destruct (Hts w Hw) as [_ Hall].
  rewrite Forall_forall in Hall. exact (Hall c Hcw).
Qed.

Lemma normalizeText_join (ts : list jsstring) :
  Forall normalWord ts -> normalizeText (join ts) = join ts.
Proof.
  intros Hts. rewrite normalizeText_join_tokens.
  assert (Hlow : toLowerCase (join ts) = join ts).
  { apply map_fixed. intros c Hc.
    destruct (normalWords_chars _ _ Hts Hc) as [->|[_ E]]; [reflexivity | exact E]. }
  rewrite Hlow.
  assert (Hkeep : removeNonWordNonSpace (join ts) = join ts).
  { apply filter_all. intros c Hc.
    destruct (normalWords_chars _ _ Hts Hc) as [->|[E _]]; [reflexivity|].
    rewrite E. reflexivity. }
  rewrite Hkeep. f_equal.
  destruct ts as [|t ts]; [reflexivity|].
  unfold tokens. rewrite splitAtSpaces_splitBy, splitBy_join.
  - apply filter_all. intros w Hw. rewrite Forall_forall in Hts.
    destruct (Hts w Hw) as [Hne _]. destruct w; [congruence | reflexivity].
  - exact isSpace_space.
  - discriminate.
  - eapply Forall_impl; [|exact Hts]. intros w [_ Hw].
    eapply Forall_impl; [|exact Hw]. intros c [Hc _]. apply word_not_space. exact Hc.
Qed.

(** C6, as amended: [normalizeText] is a total function that lowercases
    its argument, removes every character that is neither a word character
    (an ASCII letter, a digit or the underscore) nor whitespace, collapses
    each run of whitespace to one space and trims both ends.  That is, its
    value is the sequence of maximal whitespace-free runs of the lowercased,
    filtered text joined by single spaces, every run being a non-empty
    sequence of lowercase word characters. *)
Theorem normalizeText_spec (x : jsstring) :
  let kept := removeNonWordNonSpace (toLowerCase x) in
  normalizeText x = join (tokens kept)
  /\ Forall normalWord (tokens kept)
  /\ (forall c, In c kept <->
                exists c0, In c0 x /\ c = toLowerChar c0
                           /\ (isWordChar c = true \/ isSpaceChar c = true))
  /\ (forall c, In c (normalizeText x) ->
                c = space \/ (isWordChar c = true /\ toLowerChar c = c)).
Proof.
  intros kept. split; [apply normalizeText_join_tokens|].
  split; [apply tokens_normal|]. split.
  - intros c. unfold kept, removeNonWordNonSpace, toLowerCase.
    rewrite filter_In, in_map_iff, orb_true_iff. split.
    + intros [(c0 & E & Hin) Hk]. exists c0. auto.
    + intros (c0 & Hin & E & Hk). split; [exists c0; auto | exact Hk].
  - intros c. rewrite normalizeText_join_tokens.
    apply normalWords_chars, tokens_normal.
Qed.

(** C6, as stated, fails: the underscore of ["a_b"] is neither alphanumeric
    nor whitespace and is still present after normalization. *)
Lemma normalizeText_keeps_underscore :
  ~ (forall c, In c (normalizeText (str "a_b")) ->
               isAlphanumeric c = true \/ isSpaceChar c = true).
Proof.
  intros H. destruct (H "_"%char) as [E|E].
  - vm_compute. auto.
  - vm_compute in E. discriminate.
  - vm_compute in E. discriminate.
Qed.

(** C9: normalization is idempotent: normalizing normalized text gives it
    back, and so does the token sequence obtained by splitting at spaces. *)
Theorem normalizeText_idempotent (x : jsstring) :
  normalizeText (normalizeText x) = normalizeText x
  /\ split (normalizeText (normalizeText x)) = split (normalizeText x).
Proof.
  assert (H : normalizeText (normalizeText x) = normalizeText x).
  { rewrite (normalizeText_join_tokens x). apply normalizeText_join, tokens_normal. }
  split; [exact H | rewrite H; reflexivity].
Qed.

(** ** Loops *)

Lemma fold_left_invariant (A B : Type) (f : A -> B -> A) (P : A -> Prop)
  (l : list B) (a : A) :
  P a -> (forall a x, In x l -> P a -> P (f a x)) -> P (fold_left f l a).
Proof.
  revert a. induction l as [|x l IH]; intros a Ha Hstep; simpl; [exact Ha|].
  apply IH.
  - apply Hstep; [left; reflexivity | exact Ha].
  - intros b y Hy. apply Hstep. right. exact Hy.
Qed.

Lemma in_windowSizes (originalWords : list jsstring) (w : nat) :
  In w (windowSizes originalWords) -> 4 <= w <= 15 /\ w <= length originalWords.
Proof.
  unfold windowSizes. rewrite <- in_rev, in_seq. lia.
Qed.

Lemma in_startIndices (originalWords : list jsstring) (w i : nat) :
  In i (startIndices originalWords w) -> i + w <= length originalWords.
Proof.
  unfold startIndices. rewrite in_seq. lia.
Qed.

Lemma slice_length (A : Type) (a : list A) (from to : nat) :
  to <= length a -> length (slice a from to) = to - from.
Proof.
  intros H. unfold slice. rewrite length_firstn, length_skipn. lia.
Qed.

Lemma firstn_snoc (A : Type) (d : A) (l : list A) (k : nat) :
  k < length l -> firstn (S k) l = firstn k l ++ [nth k l d].
Proof.
  revert k. induction l as [|x l IH]; intros k Hk; simpl in Hk; [lia|].
  destruct k as [|k]; [reflexivity|].
  rewrite firstn_cons. simpl. rewrite <- IH by lia. reflexivity.
Qed.

Lemma slice_snoc (A : Type) (d : A) (a : list A) (from k : nat) :
  from <= k -> k < length a ->
  slice a from (S k) = slice a from k ++ [nth k a d].
Proof.
  intros H1 H2. unfold slice.
  replace (S k - from) with (S (k - from)) by lia.
  rewrite (firstn_snoc A d) by (rewrite length_skipn; lia).
  rewrite nth_skipn. replace (from + (k - from)) with k by lia. reflexivity.
Qed.

Lemma slice_incl (A : Type) (a : list A) (from to : nat) (x : A) :
  In x (slice a from to) -> In x a.
Proof.
  unfold slice. intros H.
  rewrite <- (firstn_skipn from a). apply in_or_app. right.
  rewrite <- (firstn_skipn (to - from) (skipn from a)). apply in_or_app. left. exact H.
Qed.

Lemma slice_all (A : Type) (a : list A) : slice a 0 (0 + length a) = a.
Proof. unfold slice. simpl. rewrite Nat.sub_0_r. apply firstn_all. Qed.

Lemma join_snoc (l : list jsstring) (w : jsstring) :
  l <> [] -> join (l ++ [w]) = join l ++ space :: w.
Proof.
  induction l as [|v l IH]; intros Hne; [congruence|].
  destruct l as [|u l]; [reflexivity|].
  change (join ((v :: u :: l) ++ [w])) with (v ++ space :: join ((u :: l) ++ [w])).
  rewrite IH by discriminate. rewrite join_cons2, <- app_assoc. reflexivity.
Qed.

Lemma join_two_not_nil (l : list jsstring) : 2 <= length l -> join l <> [].
Proof.
  destruct l as [|v [|u l]]; simpl; try lia.
  intros _. destruct v; discriminate.
Qed.

(** ** Scores *)

Lemma ofNat_pos (n : nat) : 0 < n -> (0 < ofNat n)%Q.
Proof.
  intros H. unfold ofNat. change 0%Q with (inject_Z 0).
  rewrite <- Zlt_Qlt. lia.
Qed.

Lemma ofNat_le (k n : nat) : k <= n -> (ofNat k <= ofNat n)%Q.
Proof. intros H. unfold ofNat. rewrite <- Zle_Qle. lia. Qed.

Lemma percentage_bounds (z : Z) (n : nat) :
  (0 <= z)%Z -> (0 <= inject_Z z / ofNat n * 100)%Q.
Proof.
  intros Hz. apply Qmult_le_0_compat; [|discriminate].
  unfold Qdiv. apply Qmult_le_0_compat.
  - change 0%Q with (inject_Z 0). rewrite <- Zle_Qle. exact Hz.
  - apply Qinv_le_0_compat. unfold ofNat. change 0%Q with (inject_Z 0).
    rewrite <- Zle_Qle. lia.
Qed.

Lemma percentage_le_100 (k n : nat) :
  0 < n -> k <= n -> (ofNat k / ofNat n * 100 <= 100)%Q.
Proof.
  intros Hn Hk.
  setoid_replace 100%Q with (1 * 100)%Q at 2 by reflexivity.
  apply Qmult_le_compat_r; [|discriminate].
  apply Qle_shift_div_r; [apply ofNat_pos; exact Hn|].
  rewrite Qmult_1_l. apply ofNat_le. exact Hk.
Qed.

Lemma percentage_full (n : nat) : 0 < n -> (ofNat n / ofNat n * 100 == 100)%Q.
Proof.
  intros Hn. unfold Qdiv. rewrite Qmult_inv_r.
  - reflexivity.
  - intros E. pose proof (ofNat_pos n Hn) as H. rewrite E in H. discriminate.
Qed.

Lemma Qltb_lt (a b : Q) : Qltb a b = true <-> (a < b)%Q.
Proof.
  unfold Qltb. rewrite Qlt_alt. destruct (a ?= b)%Q; split; congruence.
Qed.

Lemma Qltb_ge (a b : Q) : Qltb a b = false -> (b <= a)%Q.
Proof.
  intros H. apply Qnot_lt_le. intros Hlt. apply Qltb_lt in Hlt. congruence.
Qed.

(** ** One run of the matcher *)

Section MatcherFacts.

Variable originalText normalizedSource : jsstring.
Variable originalWords sourceWords : list jsstring.

Hypothesis words_free :
  Forall (Forall (fun c => isSpace c = false)) originalWords.

Let len := length originalWords.


Lemma extendBody_inv (i : nat) (e : Extension) :
  extInv originalWords i e -> extendCond normalizedSource originalWords sourceWords e = true ->
  extInv originalWords i (extendBody originalWords e).
Proof.
  intros (H1 & H2 & H3) Hc. unfold extendCond in Hc.
  apply andb_true_iff in Hc. destruct Hc as [Hc _].
  apply andb_true_iff in Hc. destruct Hc as [Hc _].
  apply Nat.ltb_lt in Hc. fold len in Hc.
  unfold extInv, extendBody. simpl. repeat split; try lia.
  rewrite (slice_snoc jsstring []) by (fold len; lia).
  rewrite join_snoc.
  - rewrite H3. reflexivity.
  - intros E. apply (f_equal (@length jsstring)) in E.
    rewrite slice_length in E by (fold len; lia). simpl in E. lia.
Qed.

Lemma extendForward_inv (i fuel : nat) (e : Extension) :
  extInv originalWords i e ->
  extInv originalWords i (extendForward normalizedSource originalWords sourceWords fuel e).
Proof.
  revert e. induction fuel as [|fuel IH]; intros e He; simpl; [exact He|].
  destruct (extendCond normalizedSource originalWords sourceWords e) eqn:Hc.
  - apply IH. apply extendBody_inv; assumption.
  - exact He.
Qed.

Lemma extendForward_grows (fuel : nat) (e : Extension) :
  originalEnd e
  <= originalEnd (extendForward normalizedSource originalWords sourceWords fuel e).
Proof.
  revert e. induction fuel as [|fuel IH]; intros e; simpl; [lia|].
  destruct (extendCond normalizedSource originalWords sourceWords e); [|lia].
  specialize (IH (extendBody originalWords e)). simpl in IH. lia.
Qed.

(** The fuel given by [scanAt] is enough: the loop stops because its
    condition fails. *)
Lemma extendForward_exit (fuel : nat) (e : Extension) :
  len - originalEnd e <= fuel ->
  extendCond normalizedSource originalWords sourceWords
    (extendForward normalizedSource originalWords sourceWords fuel e) = false.
Proof.
  revert e. induction fuel as [|fuel IH]; intros e Hf; simpl.
  - unfold extendCond. replace (originalEnd e <? length originalWords) with false.
    + reflexivity.
    + symmetry. apply Nat.ltb_ge. fold len. lia.
  - destruct (extendCond normalizedSource originalWords sourceWords e) eqn:Hc.
    + apply IH. simpl. lia.
    + exact Hc.
Qed.

Lemma matchLength_extInv (i : nat) (e : Extension) :
  extInv originalWords i e -> length (split (extendedMatch e)) = originalEnd e - i.
Proof.
  intros (H1 & H2 & H3). rewrite H3, split_splitBy.
  rewrite splitBy_length_join.
  - apply slice_length. exact H2.
  - reflexivity.
  - intros E. apply (f_equal (@length jsstring)) in E.
    rewrite slice_length in E by exact H2. simpl in E. lia.
  - apply Forall_forall. intros w Hw. apply slice_incl in Hw.
    rewrite Forall_forall in words_free. exact (words_free w Hw).
Qed.


Lemma scanAt_cases (w i : nat) (st : ScanState) :
  1 <= w -> i + w <= len ->
  let st' := scanAt originalText normalizedSource originalWords sourceWords w st i in
  st' = st \/ recorded originalWords w i st st'.
Proof.
  intros Hw Hi. unfold scanAt.
  destruct (isCovered (st_coveredRanges st) i) eqn:Hcov; [left; reflexivity|].
  destruct (0 <=? indexOf normalizedSource
                    (join (slice originalWords i (i + w))))%Z; [|left; reflexivity].
  set (e0 := {| extendedMatch := join (slice originalWords i (i + w));
                originalEnd := i + w;
                sourceEnd := _ |}).
  set (e := extendForward normalizedSource originalWords sourceWords
              (length originalWords - (i + w)) e0).
  assert (He0 : extInv originalWords i e0).
  { unfold extInv, e0. simpl. repeat split; lia. }
  assert (He : extInv originalWords i e) by (apply extendForward_inv; exact He0).
  pose proof (extendForward_grows (length originalWords - (i + w)) e0) as Hg.
  fold e in Hg. simpl in Hg.
  rewrite (matchLength_extInv i e He).
  destruct (Qltb 5 (ofNat (originalEnd e - i) / ofNat (length originalWords) * 100))
    eqn:Hs; [|left; reflexivity].
  right. eexists. exists (originalEnd e). split; [reflexivity|].
  destruct He as (H1 & H2 & _).
  split; [exact Hcov|]. split; [exact Hg|]. split; [exact H2|].
  split; [reflexivity|]. apply Qltb_lt. exact Hs.
Qed.

(** Steps that search for a phrase absent from the source change nothing. *)
Lemma scanAt_not_found (w i : nat) (st : ScanState) :
  indexOf normalizedSource (join (slice originalWords i (i + w))) = (-1)%Z ->
  scanAt originalText normalizedSource originalWords sourceWords w st i = st.
Proof.
  intros H. unfold scanAt. rewrite H.
  destruct (isCovered (st_coveredRanges st) i); reflexivity.
Qed.

Lemma scanAt_covered (w i : nat) (st : ScanState) :
  isCovered (st_coveredRanges st) i = true ->
  scanAt originalText normalizedSource originalWords sourceWords w st i = st.
Proof. intros H. unfold scanAt. rewrite H. reflexivity. Qed.


Lemma scanAt_inv (w i : nat) (st : ScanState) :
  1 <= w -> i + w <= len -> scanInv originalWords st ->
  scanInv originalWords (scanAt originalText normalizedSource originalWords sourceWords w st i).
Proof.
  intros Hw Hi Hst.
  destruct (scanAt_cases w i st Hw Hi) as [E|(m & oe & E & _ & H1 & H2 & H3 & H4)];
    rewrite E; [exact Hst|].
  destruct Hst as [Hm Hr]. split; simpl.
  - apply Forall_app. split; [exact Hm|]. constructor; [|constructor].
    rewrite H3. split.
    + apply percentage_bounds. lia.
    + apply percentage_le_100; lia.
  - apply Forall_app. split; [exact Hr|]. constructor; [|constructor].
    simpl. lia.
Qed.

Lemma scanAll_inv :
  scanInv originalWords (scanAll originalText normalizedSource originalWords sourceWords).
Proof.
  unfold scanAll. apply fold_left_invariant.
  - split; constructor.
  - intros st w Hw Hst. unfold scanWindow. apply fold_left_invariant; [exact Hst|].
    intros st' i Hi Hst'. apply in_windowSizes in Hw. apply in_startIndices in Hi.
    apply scanAt_inv; [lia | exact Hi | exact Hst'].
Qed.

End MatcherFacts.

Lemma split_words_free (s : jsstring) :
  Forall (Forall (fun c => isSpace c = false)) (split s).
Proof. rewrite split_splitBy. apply splitBy_pieces_free. Qed.

Lemma split_length_pos (s : jsstring) : 0 < length (split s).
Proof.
  pose proof (split_not_nil s). destruct (split s); [congruence | simpl; lia].
Qed.

Lemma scanTexts_inv (originalText sourceText : jsstring) :
  scanInv (split (normalizeText originalText)) (scanTexts originalText sourceText).
Proof. unfold scanTexts. apply scanAll_inv. apply split_words_free. Qed.

Lemma totalCoverage_nonneg (ranges : list CoveredRange) :
  Forall (fun r => start r <= end_ r) ranges -> (0 <= totalCoverage ranges)%Z.
Proof.
  unfold totalCoverage. intros H.
  apply fold_left_invariant; [lia|].
  intros total r Hr Ht. rewrite Forall_forall in H. specialize (H r Hr). lia.
Qed.

(** ** Sorting *)

Section SortFacts.

Variable A : Type.
Variable key : A -> Q.

Lemma In_insertDesc (x y : A) (l : list A) :
  In y (insertDesc key x l) <-> y = x \/ In y l.
Proof.
  induction l as [|z l IH]; simpl.
  - intuition congruence.
  - destruct (Qltb (key x) (key z)); simpl; [rewrite IH|]; intuition congruence.
Qed.

Lemma In_sortDesc (y : A) (l : list A) : In y (sortDesc key l) <-> In y l.
Proof.
  induction l as [|x l IH]; simpl; [tauto|].
  rewrite In_insertDesc, IH. intuition congruence.
Qed.

Lemma insertDesc_headIsMax (x : A) (l : list A) :
  headIsMax key l -> headIsMax key (insertDesc key x l).
Proof.
  destruct l as [|h t]; simpl; intros H; [constructor|].
  destruct (Qltb (key x) (key h)) eqn:E; simpl.
  - apply Forall_forall. intros y Hy. apply In_insertDesc in Hy.
    destruct Hy as [->|Hy].
    + apply Qlt_le_weak. apply Qltb_lt. exact E.
    + rewrite Forall_forall in H. exact (H y Hy).
  - apply Qltb_ge in E. constructor; [exact E|].
    eapply Forall_impl; [|exact H]. intros y Hy. simpl in Hy.
    eapply Qle_trans; eassumption.
Qed.

Lemma sortDesc_headIsMax (l : list A) : headIsMax key (sortDesc key l).
Proof.
  induction l as [|x l IH]; simpl; [exact I|].
  apply insertDesc_headIsMax. exact IH.
Qed.

End SortFacts.

(** ** The scorer *)

Lemma totalSimilarity_nonneg (ms : list PlagiarismMatch.t) :
  (forall m, In m ms -> (0 <= PlagiarismMatch.similarity m)%Q) ->
  (0 <= totalSimilarity ms)%Q.
Proof.
  intros H. unfold totalSimilarity. apply fold_left_invariant.
  - apply Qle_refl.
  - intros sum m Hm Hs. specialize (H m Hm).
    setoid_replace 0%Q with (0 + 0)%Q by reflexivity.
    apply Qplus_le_compat; assumption.
Qed.

Lemma Q2R_nonneg (q : Q) : (0 <= q)%Q -> (0 <= Q2R q)%R.
Proof.
  intros H. apply Qle_Rle in H. replace (Q2R 0) with 0%R in H; [exact H|].
  unfold Q2R. simpl. lra.
Qed.

Lemma Math_sqrt_nonneg (x : R) : (0 <= x)%R -> Math_sqrt x = Num (sqrt x).
Proof.
  intros H. unfold Math_sqrt. destruct (Rle_dec 0 x); [reflexivity | contradiction].
Qed.

Lemma calculateOverallSimilarity_bounds (ms : list PlagiarismMatch.t) :
  (forall m, In m ms -> (0 <= PlagiarismMatch.similarity m)%Q) ->
  exists v, calculateOverallSimilarity ms = Num v /\ (0 <= v <= 100)%R.
Proof.
  intros H. destruct ms as [|m ms].
  - exists 0%R. split; [reflexivity | lra].
  - unfold calculateOverallSimilarity.
    set (x := (Q2R (totalSimilarity (m :: ms))
               * INR (Nat.min (length (m :: ms)) 5))%R).
    assert (Hx : (0 <= x)%R).
    { apply Rmult_le_pos; [|apply pos_INR].
      apply Q2R_nonneg, totalSimilarity_nonneg, H. }
    rewrite (Math_sqrt_nonneg x Hx). simpl.
    eexists. split; [reflexivity|]. split.
    + apply Rmin_glb; [|lra].
      apply Rmult_le_pos; [apply sqrt_pos | lra].
    + apply Rmin_r.
Qed.

Lemma findAllSimilarities_bounds (originalText sourceText : jsstring) :
  let r := findAllSimilarities originalText sourceText in
  (0 <= overallSimilarity r <= 100)%Q
  /\ Forall (fun m => (0 <= similarity m <= 100)%Q) (matches r).
Proof.
  destruct (scanTexts_inv originalText sourceText) as [Hm Hr].
  simpl. split; [split|].
  - apply Q.min_glb; [|discriminate].
    apply percentage_bounds, totalCoverage_nonneg.
    eapply Forall_impl; [|exact Hr]. intros r [H _]. exact H.
  - apply Q.le_min_r.
  - apply Forall_forall. intros m Hin. unfold sortBySimilarity in Hin.
    apply In_sortDesc in Hin. rewrite Forall_forall in Hm. exact (Hm m Hin).
Qed.

Lemma compareArticle_bounds (text : jsstring)
  (collected : list PlagiarismMatch.t) (article : option WikiExtractResult) :
  Forall (fun m => (0 <= PlagiarismMatch.similarity m <= 100)%Q) collected ->
  Forall (fun m => (0 <= PlagiarismMatch.similarity m <= 100)%Q)
         (compareArticle text collected article).
Proof.
  intros H. unfold compareArticle.
  destruct article as [a|]; [|exact H].
  destruct (extract a) as [|c rest] eqn:Ee; [exact H|].
  destruct (Qltb 10 _); [|exact H].
  apply Forall_app. split; [exact H|].
  apply Forall_forall. intros pm Hpm. apply in_map_iff in Hpm.
  destruct Hpm as (m & <- & Hm). simpl.
  destruct (findAllSimilarities_bounds text (c :: rest)) as [_ Hb].
  rewrite Forall_forall in Hb. exact (Hb m Hm).
Qed.

(** C8: the scores stay in [[0,100]]: the overall similarity and the
    similarity of every match returned by [findAllSimilarities], the value
    of [calculateOverallSimilarity] on matches of non-negative similarity,
    and hence the overall similarity and the match similarities that
    [checkPlagiarism] computes from any list of fetched articles. *)
Theorem scores_within_bounds :
  (forall originalText sourceText,
      let r := findAllSimilarities originalText sourceText in
      (0 <= overallSimilarity r <= 100)%Q
      /\ Forall (fun m => (0 <= similarity m <= 100)%Q) (matches r))
  /\ (forall ms,
         Forall (fun m => (0 <= PlagiarismMatch.similarity m)%Q) ms ->
         exists v, calculateOverallSimilarity ms = Num v /\ (0 <= v <= 100)%R)
  /\ (forall text articleContents,
         let r := checkArticles text articleContents in
         (exists v, pr_overallSimilarity r = Num v /\ (0 <= v <= 100)%R)
         /\ Forall (fun m => (0 <= PlagiarismMatch.similarity m <= 100)%Q)
                   (pr_matches r)).
Proof.
  split; [exact findAllSimilarities_bounds|]. split.
  - intros ms H. apply calculateOverallSimilarity_bounds.
    rewrite Forall_forall in H. exact H.
  - intros text articleContents.
    assert (Hall : Forall (fun m => (0 <= PlagiarismMatch.similarity m <= 100)%Q)
                     (pr_matches (checkArticles text articleContents))).
    { simpl. apply Forall_forall. intros m Hm. apply In_sortDesc in Hm.
      revert m Hm. apply Forall_forall.
      apply fold_left_invariant; [constructor|].
      intros acc a _ Hacc. apply compareArticle_bounds. exact Hacc. }
    split; [|exact Hall].
    apply calculateOverallSimilarity_bounds. intros m Hm.
    rewrite Forall_forall in Hall. destruct (Hall m Hm) as [H _]. exact H.
Qed.

(** C8 at one match of similarity 20. *)
Lemma scores_within_bounds_witness :
  Forall (fun m => (0 <= PlagiarismMatch.similarity m)%Q) [withSimilarity 20]
  /\ exists v, calculateOverallSimilarity [withSimilarity 20] = Num v
               /\ (0 <= v <= 100)%R.
Proof.
  assert (H : Forall (fun m => (0 <= PlagiarismMatch.similarity m)%Q)
                [withSimilarity 20]).
  { constructor; [discriminate | constructor]. }
  split; [exact H|].
  apply (proj1 (proj2 scores_within_bounds) [withSimilarity 20] H).
Defined.

(** ** Runs that record nothing *)

Lemma emptyScan_emptyResult (originalText sourceText : jsstring) :
  scanTexts originalText sourceText = emptyScan ->
  emptyResult (findAllSimilarities originalText sourceText).
Proof.
  intros H. unfold emptyResult, findAllSimilarities. rewrite H. simpl. split.
  - rewrite Q.min_l.
    + unfold Qdiv. rewrite !Qmult_0_l. reflexivity.
    + unfold Qdiv. rewrite !Qmult_0_l. discriminate.
  - reflexivity.
Qed.

Lemma scanAll_short (originalText normalizedSource : jsstring)
  (originalWords sourceWords : list jsstring) :
  Nat.min 15 (length originalWords) < 4 ->
  scanAll originalText normalizedSource originalWords sourceWords = emptyScan.
Proof.
  intros H. unfold scanAll, windowSizes.
  replace (Nat.min 15 (length originalWords) - 3) with 0 by lia. reflexivity.
Qed.

Lemma indexOf_empty_source (phrase : jsstring) :
  phrase <> [] -> indexOf [] phrase = (-1)%Z.
Proof. destruct phrase; [congruence | reflexivity]. Qed.

Lemma scanAll_empty_source (originalText : jsstring)
  (originalWords sourceWords : list jsstring) :
  scanAll originalText [] originalWords sourceWords = emptyScan.
Proof.
  unfold scanAll. apply fold_left_invariant; [reflexivity|].
  intros st w Hw ->. unfold scanWindow. apply fold_left_invariant; [reflexivity|].
  intros st i Hi ->. apply in_windowSizes in Hw. apply in_startIndices in Hi.
  apply scanAt_not_found, indexOf_empty_source, join_two_not_nil.
  rewrite slice_length by exact Hi. lia.
Qed.

(** C7: with an empty original or an empty source the result is overall
    similarity 0 and no matches, for every other text; so it is whenever the
    normalized original is empty (its only token is the empty string) or
    [min(15, |O|)] is below the smallest window size 4. *)
Theorem empty_inputs_give_empty_result :
  (forall s, emptyResult (findAllSimilarities [] s))
  /\ (forall s, emptyResult (findAllSimilarities s []))
  /\ (forall originalText sourceText,
         normalizeText originalText = []
         \/ Nat.min 15 (length (split (normalizeText originalText))) < 4 ->
         emptyResult (findAllSimilarities originalText sourceText)).
Proof.
  assert (Hshort : forall originalText sourceText,
             Nat.min 15 (length (split (normalizeText originalText))) < 4 ->
             emptyResult (findAllSimilarities originalText sourceText)).
  { intros o s H. apply emptyScan_emptyResult. unfold scanTexts.
    apply scanAll_short. exact H. }
  split; [|split].
  - intros s. apply Hshort. simpl. lia.
  - intros s. apply emptyScan_emptyResult. unfold scanTexts.
    change (normalizeText []) with (@nil ascii). apply scanAll_empty_source.
  - intros o s [H|H]; [|apply Hshort; exact H].
    apply Hshort. rewrite H. simpl. lia.
Qed.

(** C7 at the original ["one two three"], which has three tokens. *)
Lemma empty_inputs_witness :
  Nat.min 15 (length (split (normalizeText (str "one two three")))) < 4
  /\ emptyResult (findAllSimilarities (str "one two three")
                                      (str "one two three four")).
Proof.
  split.
  - vm_compute. lia.
  - apply (proj2 (proj2 empty_inputs_give_empty_result)).
    right. vm_compute. lia.
Defined.

(** ** A source equal to the original *)

Lemma startsWith_refl (s : jsstring) : startsWith s s = true.
Proof.
  induction s as [|c s IH]; simpl; [reflexivity|].
  rewrite Ascii.eqb_refl. exact IH.
Qed.

Lemma indexOf_self (s : jsstring) : indexOf s s = 0%Z.
Proof.
  unfold indexOf. destruct s as [|c s]; [reflexivity|].
  unfold indexOfFrom. rewrite startsWith_refl. reflexivity.
Qed.

Lemma windowSizes_cons (originalWords : list jsstring) :
  4 <= length originalWords <= 15 ->
  windowSizes originalWords
  = length originalWords :: rev (seq 4 (length originalWords - 4)).
Proof.
  intros H. unfold windowSizes.
  replace (Nat.min 15 (length originalWords) - 3)
    with (S (length originalWords - 4)) by lia.
  rewrite seq_S, rev_unit. f_equal. lia.
Qed.

Lemma scanAt_whole (originalText normalizedOriginal : jsstring) :
  let originalWords := split normalizedOriginal in
  exists m,
    scanAt originalText normalizedOriginal originalWords originalWords
      (length originalWords) emptyScan 0
    = {| st_matches := [m];
         st_coveredRanges :=
           [ {| start := 0; end_ := length originalWords - 1 |} ] |}
    /\ (similarity m == 100)%Q.
Proof.
  intros originalWords. unfold scanAt.
  change (isCovered (st_coveredRanges emptyScan) 0) with false. cbv iota.
  rewrite slice_all.
  assert (Hj : join originalWords = normalizedOriginal) by apply join_split.
  rewrite !Hj, indexOf_self.
  change (0 <=? 0)%Z with true. cbv iota.
  change (0 + length originalWords) with (length originalWords).
  rewrite Nat.sub_diag. cbv zeta. unfold extendForward.
  cbn [extendedMatch originalEnd].
  fold originalWords.
  assert (Hfull : (ofNat (length originalWords) / ofNat (length originalWords) * 100
                   == 100)%Q).
  { apply percentage_full. apply split_length_pos. }
  assert (Hs : Qltb 5 (ofNat (length originalWords)
                       / ofNat (length originalWords) * 100) = true).
  { apply Qltb_lt. rewrite Hfull. reflexivity. }
  rewrite Hs. eexists. split; [reflexivity|]. exact Hfull.
Qed.

Lemma isCovered_whole (n i : nat) :
  i < n -> isCovered [ {| start := 0; end_ := n - 1 |} ] i = true.
Proof.
  intros H. unfold isCovered. simpl. rewrite orb_false_r.
  apply Nat.leb_le. lia.
Qed.

Lemma scanTexts_duplicate (originalText : jsstring) :
  let originalWords := split (normalizeText originalText) in
  4 <= length originalWords <= 15 ->
  exists m,
    scanTexts originalText originalText
    = {| st_matches := [m];
         st_coveredRanges :=
           [ {| start := 0; end_ := length originalWords - 1 |} ] |}
    /\ (similarity m == 100)%Q.
Proof.
  intros originalWords Hn. unfold scanTexts, scanAll. fold originalWords.
  rewrite windowSizes_cons by exact Hn.
  destruct (scanAt_whole originalText (normalizeText originalText)) as (m & E & Hm).
  fold originalWords in E.
  exists m. split; [|exact Hm].
  simpl fold_left. unfold scanWindow at 2. unfold startIndices.
  replace (S (length originalWords) - length originalWords) with 1 by lia.
  simpl fold_left. fold emptyScan. rewrite E.
  apply fold_left_invariant; [reflexivity|].
  intros st w Hw ->. unfold scanWindow. apply fold_left_invariant; [reflexivity|].
  intros st i Hi ->. apply in_startIndices in Hi.
  rewrite <- in_rev, in_seq in Hw.
  apply scanAt_covered. apply isCovered_whole. lia.
Qed.

(** C4, as amended: when the normalized original has between 4 and 15
    tokens and the source equals the original verbatim, the overall
    similarity is 100 and there is exactly one match; its similarity is 100
    and its covered range is the whole token sequence. *)
Theorem exact_duplicate_up_to_15_tokens (originalText : jsstring) :
  let n := length (split (normalizeText originalText)) in
  4 <= n <= 15 ->
  let r := findAllSimilarities originalText originalText in
  (overallSimilarity r == 100)%Q
  /\ (exists m, matches r = [m] /\ (similarity m == 100)%Q)
  /\ st_coveredRanges (scanTexts originalText originalText)
     = [ {| start := 0; end_ := n - 1 |} ].
Proof.
  intros n Hn r.
  destruct (scanTexts_duplicate originalText Hn) as (m & E & Hm).
  unfold r, findAllSimilarities. rewrite E. cbn [st_coveredRanges st_matches].
  fold n. split; [|split].
  - cbn [overallSimilarity]. unfold totalCoverage. cbn [fold_left start end_].
    replace (0 + (Z.of_nat (n - 1) - Z.of_nat 0 + 1))%Z with (Z.of_nat n) by lia.
    fold (ofNat n). rewrite percentage_full by lia. reflexivity.
  - exists m. split; [reflexivity | exact Hm].
  - reflexivity.
Qed.

(** C4 at a five-token text with capitals and punctuation. *)
Lemma exact_duplicate_witness :
  let t := str "The quick, brown Fox jumps" in
  4 <= length (split (normalizeText t)) <= 15
  /\ (overallSimilarity (findAllSimilarities t t) == 100)%Q.
Proof.
  intros t. split.
  - vm_compute. lia.
  - apply (exact_duplicate_up_to_15_tokens t). vm_compute. lia.
Defined.

(** C4, as stated, fails: a two-token text compared with itself scores 0
    and has no match, because no window of fewer than 4 tokens is tried. *)
Lemma exact_duplicate_two_tokens :
  let t := str "hello world" in
  ~ ((95 <= overallSimilarity (findAllSimilarities t t))%Q
     /\ exists m, In m (matches (findAllSimilarities t t))).
Proof.
  intros t [H _]. vm_compute in H. apply H. reflexivity.
Qed.

(** ** The legacy wrapper *)

(** C10: [findSimilarities] only repackages the result of
    [findAllSimilarities]: its similarity is the overall similarity, its
    matched text is that of the first match, or the empty string when there
    is none, and the first match has the highest similarity of all. *)
Theorem findSimilarities_wraps_findAllSimilarities (originalText sourceText : jsstring) :
  let results := findAllSimilarities originalText sourceText in
  let legacy := findSimilarities originalText sourceText in
  Legacy.similarity legacy = overallSimilarity results
  /\ Legacy.matchedText legacy
     = match hd_error (matches results) with
       | Some first => matchedText first
       | None => []
       end
  /\ headIsMax similarity (matches results).
Proof.
  intros results legacy. split; [reflexivity|]. split.
  - unfold legacy, findSimilarities. fold results.
    destruct (matches results); reflexivity.
  - apply sortDesc_headIsMax.
Qed.

(** ** The aggregate score *)

Lemma Q2R_fold_sum (ms : list PlagiarismMatch.t) (acc : Q) :
  Q2R (fold_left (fun sum m => (sum + PlagiarismMatch.similarity m)%Q) ms acc)
  = (Q2R acc + sumOfSimilarities ms)%R.
Proof.
  revert acc. induction ms as [|m ms IH]; intros acc; simpl.
  - lra.
  - rewrite IH, Q2R_plus. lra.
Qed.

Lemma Q2R_totalSimilarity (ms : list PlagiarismMatch.t) :
  Q2R (totalSimilarity ms) = sumOfSimilarities ms.
Proof.
  unfold totalSimilarity. rewrite Q2R_fold_sum.
  replace (Q2R 0) with 0%R; [lra|]. unfold Q2R. simpl. lra.
Qed.

Lemma sqrt_500_bounds : (22.35 < sqrt 500 < 22.3625)%R.
Proof.
  split.
  - rewrite <- (sqrt_square 22.35) by lra. apply sqrt_lt_1_alt. lra.
  - rewrite <- (sqrt_square 22.3625) by lra. apply sqrt_lt_1_alt. lra.
Qed.

Lemma sumOfSimilarities_repeat (q : Q) (n : nat) :
  sumOfSimilarities (repeat (withSimilarity q) n) = (INR n * Q2R q)%R.
Proof.
  induction n as [|n IH].
  - simpl. lra.
  - change (sumOfSimilarities (repeat (withSimilarity q) (S n)))
      with (Q2R q + sumOfSimilarities (repeat (withSimilarity q) n))%R.
    rewrite IH, S_INR. lra.
Qed.

(** C5: [calculateOverallSimilarity] is 0 on the empty list and otherwise
    [min(sqrt(sum * min(count, 5)) * 0.8, 100)], the sum being that of the
    similarity values: on a non-empty list whose sum is not negative it is
    the real number [Rmin (sqrt (sum * min(count, 5)) * 0.8) 100], and on a
    non-empty list of negative sum it is [NaN], the square root of a
    negative number.  On five matches of similarity 20 it is
    [min(sqrt(500) * 0.8, 100) = sqrt(500) * 0.8], between 17.88 and 17.89;
    on 32 matches of similarity 100 the minimum is the bound 100.  The
    right-hand sides are written with the minimum [Rmin] and the square
    root [sqrt] of the real numbers. *)
Theorem calculateOverallSimilarity_formula :
  calculateOverallSimilarity [] = Num 0
  /\ (forall m ms,
         let l := m :: ms in
         (0 <= sumOfSimilarities l)%R ->
         calculateOverallSimilarity l
         = Num (Rmin (sqrt (sumOfSimilarities l * INR (Nat.min (length l) 5))
                      * (8 / 10))
                     100))
  /\ (forall m ms,
         let l := m :: ms in
         (sumOfSimilarities l < 0)%R -> calculateOverallSimilarity l = NaN)
  /\ (let five := repeat (withSimilarity 20) 5 in
      calculateOverallSimilarity five = Num (Rmin (sqrt 500 * (8 / 10)) 100)
      /\ Rmin (sqrt 500 * (8 / 10)) 100 = (sqrt 500 * (8 / 10))%R
      /\ (17.88 < sqrt 500 * (8 / 10) < 17.89)%R)
  /\ calculateOverallSimilarity (repeat (withSimilarity 100) 32) = Num 100.
Proof.
  assert (Hgen : forall m ms,
             (0 <= sumOfSimilarities (m :: ms))%R ->
             calculateOverallSimilarity (m :: ms)
             = Num (Rmin (sqrt (sumOfSimilarities (m :: ms)
                                * INR (Nat.min (length (m :: ms)) 5))
                          * (8 / 10))
                         100)).
  { intros m ms H. unfold calculateOverallSimilarity.
    rewrite Q2R_totalSimilarity, Math_sqrt_nonneg; [reflexivity|].
    apply Rmult_le_pos; [exact H | apply pos_INR]. }
  assert (Hrep : forall q n,
             (0 <= Q2R q)%R ->
             calculateOverallSimilarity (repeat (withSimilarity q) (S n))
             = Num (Rmin (sqrt (INR (S n) * Q2R q * INR (Nat.min (S n) 5))
                          * (8 / 10))
                         100)).
  { intros q n Hq.
    assert (Hs : sumOfSimilarities (withSimilarity q :: repeat (withSimilarity q) n)
                 = (INR (S n) * Q2R q)%R)
      by exact (sumOfSimilarities_repeat q (S n)).
    change (repeat (withSimilarity q) (S n))
      with (withSimilarity q :: repeat (withSimilarity q) n).
    rewrite Hgen.
    - rewrite Hs. cbn [length]. rewrite repeat_length. reflexivity.
    - rewrite Hs. apply Rmult_le_pos; [apply pos_INR | exact Hq]. }
  assert (H100 : Q2R 100 = 100%R) by (unfold Q2R; simpl; lra).
  assert (H20 : Q2R 20 = 20%R) by (unfold Q2R; simpl; lra).
  split; [reflexivity|]. split; [exact Hgen|]. split; [|split].
  - intros m ms l H. unfold l in *. clear l. unfold calculateOverallSimilarity.
    rewrite Q2R_totalSimilarity. unfold Math_sqrt.
    destruct (Rle_dec 0 (sumOfSimilarities (m :: ms)
                         * INR (Nat.min (length (m :: ms)) 5))) as [Hle|_];
      [|reflexivity].
    exfalso.
    assert (Hn : (1 <= INR (Nat.min (length (m :: ms)) 5))%R).
    { change 1%R with (INR 1). apply le_INR. simpl length. lia. }
    assert (Hneg : (sumOfSimilarities (m :: ms)
                    * INR (Nat.min (length (m :: ms)) 5) < 0)%R).
    { replace 0%R with (0 * INR (Nat.min (length (m :: ms)) 5))%R by lra.
      apply Rmult_lt_compat_r; lra. }
    lra.
  - pose proof sqrt_500_bounds as Hb. intros five.
    split; [|split; [apply Rmin_left; lra | lra]].
    unfold five. rewrite (Hrep 20%Q 4) by lra. rewrite H20.
    replace (INR 5 * 20 * INR (Nat.min 5 5))%R with 500%R by (simpl; lra).
    reflexivity.
  - rewrite (Hrep 100%Q 31) by lra. rewrite H100.
    replace (INR 32 * 100 * INR (Nat.min 32 5))%R with 16000%R by (simpl; lra).
    f_equal. apply Rmin_right.
    assert (H125 : (125 <= sqrt 16000)%R).
    { rewrite <- (sqrt_square 125) by lra. apply sqrt_le_1_alt. lra. }
    lra.
Qed.

(** C5 at two matches of similarity 60 and 40. *)
Lemma calculateOverallSimilarity_formula_witness :
  (0 <= sumOfSimilarities [withSimilarity 60; withSimilarity 40])%R
  /\ calculateOverallSimilarity [withSimilarity 60; withSimilarity 40]
     = Num (Rmin (sqrt (sumOfSimilarities [withSimilarity 60; withSimilarity 40]
                        * INR (Nat.min 2 5))
                  * (8 / 10))
                 100).
Proof.
  assert (H : (0 <= sumOfSimilarities [withSimilarity 60; withSimilarity 40])%R).
  { unfold sumOfSimilarities, withSimilarity, Q2R. simpl. lra. }
  split; [exact H|].
  apply (proj1 (proj2 calculateOverallSimilarity_formula)
           (withSimilarity 60) [withSimilarity 40] H).
Defined.

(** ** Runs on the sample texts *)

(** C1, evaluated on [original8] against [source12]: the run records the
    ranges [[1,7]] and then [[0,3]]; both contain the token indices 1, 2
    and 3, and the coverage adds up to 11 tokens of an 8-token original. *)
Theorem recorded_ranges_overlap :
  let ranges := st_coveredRanges (scanTexts original8 source12) in
  ranges = [ {| start := 1; end_ := 7 |}; {| start := 0; end_ := 3 |} ]
  /\ pairwiseDisjoint ranges = false
  /\ Forall (fun r => containsIndex r 1 = true) ranges
  /\ totalCoverage ranges = 11%Z
  /\ length (split (normalizeText original8)) = 8.
Proof.
  vm_compute. repeat split; repeat constructor.
Qed.

(** C3, evaluated on [original8] against [source12]: when the windows of
    sizes 8 to 5 are done the range [[1,7]] is covered; the window of size 4
    at start index 0 intersects it, yet the test of the loop does not skip
    it, and the body records the range [[0,3]] and a second match. *)
Theorem intersecting_window_is_searched :
  let normalizedSource := normalizeText source12 in
  let originalWords := split (normalizeText original8) in
  let sourceWords := split normalizedSource in
  let st := fold_left (scanWindow original8 normalizedSource originalWords sourceWords)
              [8; 7; 6; 5] emptyScan in
  let st' := scanAt original8 normalizedSource originalWords sourceWords 4 st 0 in
  windowSizes originalWords = [8; 7; 6; 5; 4]
  /\ st_coveredRanges st = [ {| start := 1; end_ := 7 |} ]
  /\ windowIntersects (st_coveredRanges st) 0 4 = true
  /\ isCovered (st_coveredRanges st) 0 = false
  /\ st_coveredRanges st'
     = [ {| start := 1; end_ := 7 |}; {| start := 0; end_ := 3 |} ]
  /\ length (st_matches st') = 2.
Proof.
  vm_compute. repeat split.
Qed.

(** C2, evaluated on two runs.  On [text16] against itself the phrase of
    the first 15 tokens is found at offset 0 and ends at offset 29; the next
    original token and the next source token are both ["p"], but the loop
    reads [sourceWords[29]], which is undefined, and does not extend.  On
    [original5] against [source8] the phrase of the first 4 tokens ends at
    offset 7; its next source token is ["q"], but the loop reads
    [sourceWords[7]], which is ["z"], and extends the match by ["z"]. *)
Theorem extension_reads_source_token_at_character_offset :
  (let normalizedSource := normalizeText text16 in
   let words := split normalizedSource in
   let phrase := join (slice words 0 15) in
   let e := extendForward normalizedSource words words (length words - 15)
              {| extendedMatch := phrase; originalEnd := 15;
                 sourceEnd := Z.to_nat (indexOf normalizedSource phrase)
                              + length phrase |} in
   indexOf normalizedSource phrase = 0%Z
   /\ length phrase = 29
   /\ tokenIndexAfter normalizedSource 29 = 15
   /\ agreeingTokens (skipn 15 words) (skipn 15 words) = 1
   /\ nth_error words 29 = None
   /\ originalEnd e = 15
   /\ st_coveredRanges (scanTexts text16 text16)
      = [ {| start := 0; end_ := 14 |} ])
  /\ (let normalizedSource := normalizeText source8 in
      let originalWords := split (normalizeText original5) in
      let sourceWords := split normalizedSource in
      let phrase := join (slice originalWords 0 4) in
      let e := extendForward normalizedSource originalWords sourceWords
                 (length originalWords - 4)
                 {| extendedMatch := phrase; originalEnd := 4;
                    sourceEnd := Z.to_nat (indexOf normalizedSource phrase)
                                 + length phrase |} in
      indexOf normalizedSource phrase = 0%Z
      /\ length phrase = 7
      /\ tokenIndexAfter normalizedSource 7 = 4
      /\ nth_error sourceWords 4 = Some (str "q")
      /\ agreeingTokens (skipn 4 originalWords) (skipn 4 sourceWords) = 0
      /\ nth_error sourceWords 7 = Some (str "z")
      /\ originalEnd e = 5
      /\ extendedMatch e = str "a b c d z"
      /\ indexOf normalizedSource (extendedMatch e) = (-1)%Z).
Proof.
  vm_compute. repeat split.
Qed.

(** * Further properties *)

(** ** Searching *)

Lemma startsWith_app (pat s : jsstring) :
  startsWith pat s = true <-> exists rest, s = pat ++ rest.
Proof.
  revert s. induction pat as [|p pat IH]; intros s; simpl.
  - split; [intros _; exists s; reflexivity | reflexivity].
  - destruct s as [|c s].
    + split; [discriminate | intros [rest E]; discriminate].
    + rewrite andb_true_iff, Ascii.eqb_eq, IH. split.
      * intros [-> [rest ->]]. exists rest. reflexivity.
      * intros [rest E]. injection E as -> ->. split; [reflexivity | eauto].
Qed.

Lemma indexOfFrom_found (pat s : jsstring) (k j : nat) :
  indexOfFrom pat s k = Some j ->
  exists d, j = k + d /\ d <= length s
            /\ startsWith pat (skipn d s) = true
            /\ forall d', d' < d -> startsWith pat (skipn d' s) = false.
Proof.
  revert k. induction s as [|c s IH]; intros k; simpl.
  - destruct (startsWith pat []) eqn:E; [|discriminate].
    intros [= <-]. exists 0. simpl. repeat split; try lia. exact E.
  - destruct (startsWith pat (c :: s)) eqn:E.
    + intros [= <-]. exists 0. simpl. repeat split; try lia. exact E.
    + intros H. destruct (IH _ H) as (d & -> & Hd & Hs & Hmin).
      exists (S d). simpl. repeat split; try lia; [exact Hs|].
      intros [|d'] Hd'; simpl; [exact E | apply Hmin; lia].
Qed.

Lemma indexOfFrom_none (pat s : jsstring) (k : nat) :
  indexOfFrom pat s k = None ->
  forall d, d <= length s -> startsWith pat (skipn d s) = false.
Proof.
  revert k. induction s as [|c s IH]; intros k; simpl.
  - destruct (startsWith pat []) eqn:E; [discriminate|].
    intros _ d Hd. replace d with 0 by lia. exact E.
  - destruct (startsWith pat (c :: s)) eqn:E; [discriminate|].
    intros H [|d] Hd; simpl; [exact E|]. apply (IH _ H). lia.
Qed.

(** [indexOf] gives the first offset at which the pattern occurs. *)
Lemma indexOf_found (s pat : jsstring) :
  (0 <= indexOf s pat)%Z ->
  exists pre post,
    s = pre ++ pat ++ post
    /\ indexOf s pat = Z.of_nat (length pre)
    /\ forall d, d < length pre -> startsWith pat (skipn d s) = false.
Proof.
  unfold indexOf. destruct (indexOfFrom pat s 0) as [j|] eqn:E; [|lia].
  intros _. destruct (indexOfFrom_found _ _ _ _ E) as (d & -> & Hd & Hs & Hmin).
  apply startsWith_app in Hs. destruct Hs as [post Hpost].
  exists (firstn d s), post. rewrite length_firstn.
  replace (Nat.min d (length s)) with d by lia. repeat split.
  - rewrite <- Hpost. symmetry. apply firstn_skipn.
  - exact Hmin.
Qed.

Lemma indexOf_range (s pat : jsstring) :
  indexOf s pat = (-1)%Z \/ (0 <= indexOf s pat <= Z.of_nat (length s))%Z.
Proof.
  unfold indexOf. destruct (indexOfFrom pat s 0) as [j|] eqn:E; [|left; reflexivity].
  right. destruct (indexOfFrom_found _ _ _ _ E) as (d & -> & Hd & _). lia.
Qed.

Lemma substring_prefix (pre pat post : jsstring) (extra : nat) :
  exists tail rest,
    post = tail ++ rest
    /\ substring (pre ++ pat ++ post) (length pre) (length pre + length pat + extra)
       = pat ++ tail
    /\ length tail <= extra.
Proof.
  unfold substring. rewrite !length_app.
  set (n := length pre + (length pat + length post)).
  replace (Nat.min (length pre) n) with (length pre) by lia.
  set (b := Nat.min (length pre + length pat + extra) n).
  replace (Nat.min (length pre) b) with (length pre) by lia.
  replace (Nat.max (length pre) b) with b by lia.
  rewrite skipn_app, skipn_all, Nat.sub_diag. simpl.
  rewrite firstn_app.
  exists (firstn (b - length pre - length pat) post),
         (skipn (b - length pre - length pat) post).
  split; [symmetry; apply firstn_skipn|]. split.
  - f_equal. apply firstn_all2. lia.
  - rewrite length_firstn. lia.
Qed.

(** ** What a run records *)

Lemma freshFrom_snoc (earlier l : list CoveredRange) (r : CoveredRange) :
  freshFrom earlier l -> isCovered (earlier ++ l) (start r) = false ->
  freshFrom earlier (l ++ [r]).
Proof.
  revert earlier. induction l as [|x l IH]; intros earlier Hl Hr; simpl.
  - rewrite app_nil_r in Hr. auto.
  - destruct Hl as [Hx Hl]. split; [exact Hx|].
    apply IH; [exact Hl|]. rewrite <- app_assoc. exact Hr.
Qed.

Section MatcherRun.

Variable originalText normalizedSource : jsstring.
Variable originalWords sourceWords : list jsstring.

Hypothesis words_free :
  Forall (Forall (fun c => isSpace c = false)) originalWords.

Lemma scanAt_records (w i : nat) (st : ScanState) :
  1 <= w -> i + w <= length originalWords ->
  let st' := scanAt originalText normalizedSource originalWords sourceWords w st i in
  st' = st
  \/ exists m r,
       st' = {| st_matches := st_matches st ++ [m];
                st_coveredRanges := st_coveredRanges st ++ [r] |}
       /\ start r = i
       /\ isCovered (st_coveredRanges st) i = false
       /\ matchOf originalText normalizedSource originalWords w m r.
Proof.
  intros Hw Hi. unfold scanAt.
  destruct (isCovered (st_coveredRanges st) i) eqn:Hcov; [left; reflexivity|].
  destruct (0 <=? indexOf normalizedSource
                    (join (slice originalWords i (i + w))))%Z eqn:Hfound;
    [|left; reflexivity].
  set (e0 := {| extendedMatch := join (slice originalWords i (i + w));
                originalEnd := i + w;
                sourceEnd := _ |}).
  set (e := extendForward normalizedSource originalWords sourceWords
              (length originalWords - (i + w)) e0).
  assert (He0 : extInv originalWords i e0).
  { unfold extInv, e0. simpl. repeat split; lia. }
  assert (He : extInv originalWords i e)
    by (apply extendForward_inv; exact He0).
  pose proof (extendForward_grows normalizedSource originalWords sourceWords
                (length originalWords - (i + w)) e0) as Hg.
  fold e in Hg. simpl in Hg.
  rewrite (matchLength_extInv originalWords words_free i e He).
  destruct (Qltb 5 (ofNat (originalEnd e - i) / ofNat (length originalWords) * 100))
    eqn:Hs; [|left; reflexivity].
  right. destruct He as (H1 & H2 & H3).
  eexists. exists {| start := i; end_ := originalEnd e - 1 |}.
  split; [reflexivity|]. split; [reflexivity|]. split; [reflexivity|].
  unfold matchOf. cbn [start end_ similarity matchedText originalIndex sourceIndex].
  replace (S (originalEnd e - 1)) with (originalEnd e) by lia.
  rewrite <- H3.
  split; [exact Hg|]. split; [lia|]. split; [reflexivity|].
  split; [apply Z.leb_le; exact Hfound|]. split; [reflexivity|].
  split; [apply Qltb_lt; exact Hs|]. split; reflexivity.
Qed.

Lemma scanAt_runInv (w i : nat) (st : ScanState) :
  4 <= w <= 15 -> i + w <= length originalWords ->
  runInv originalText normalizedSource originalWords st ->
  runInv originalText normalizedSource originalWords
    (scanAt originalText normalizedSource originalWords sourceWords w st i).
Proof.
  intros Hw Hi [Hm Hf].
  destruct (scanAt_records w i st) as [E|(m & r & E & Hr & Hcov & Hmr)];
    [lia | exact Hi | rewrite E; split; assumption |].
  rewrite E. split; cbn [st_matches st_coveredRanges].
  - apply Forall2_app; [exact Hm|]. constructor; [|constructor].
    exists w. split; [exact Hw | exact Hmr].
  - apply freshFrom_snoc; [exact Hf|]. simpl. rewrite Hr. exact Hcov.
Qed.

Lemma scanAll_runInv :
  runInv originalText normalizedSource originalWords
    (scanAll originalText normalizedSource originalWords sourceWords).
Proof.
  unfold scanAll. apply fold_left_invariant.
  - split; [constructor | exact I].
  - intros st w Hw Hst. unfold scanWindow. apply fold_left_invariant; [exact Hst|].
    intros st' i Hi Hst'. apply in_windowSizes in Hw. apply in_startIndices in Hi.
    apply scanAt_runInv; [lia | exact Hi | exact Hst'].
Qed.

End MatcherRun.

Lemma scanTexts_runInv (originalText sourceText : jsstring) :
  runInv originalText (normalizeText sourceText)
    (split (normalizeText originalText)) (scanTexts originalText sourceText).
Proof. unfold scanTexts. apply scanAll_runInv. apply split_words_free. Qed.

(** ** The order of the returned matches *)

Section SortMore.

Variable A : Type.
Variable key : A -> Q.

Lemma insertDesc_perm (x : A) (l : list A) :
  Permutation (insertDesc key x l) (x :: l).
Proof.
  induction l as [|y l IH]; simpl; [apply Permutation_refl|].
  destruct (Qltb (key x) (key y)).
  - apply Permutation_trans with (y :: x :: l).
    + apply perm_skip. exact IH.
    + apply perm_swap.
  - apply Permutation_refl.
Qed.

Lemma sortDesc_perm (l : list A) : Permutation (sortDesc key l) l.
Proof.
  induction l as [|x l IH]; simpl; [apply perm_nil|].
  apply Permutation_trans with (x :: sortDesc key l).
  - apply insertDesc_perm.
  - apply perm_skip. exact IH.
Qed.

Lemma insertDesc_sorted (x : A) (l : list A) :
  sortedDesc key l -> sortedDesc key (insertDesc key x l).
Proof.
  induction l as [|y l IH]; intros Hl; simpl.
  - split; [constructor | exact I].
  - destruct Hl as [Hy Hl]. destruct (Qltb (key x) (key y)) eqn:E; simpl.
    + split; [|apply IH; exact Hl].
      apply Forall_forall. intros z Hz. apply In_insertDesc in Hz.
      destruct Hz as [->|Hz].
      * apply Qlt_le_weak, Qltb_lt. exact E.
      * rewrite Forall_forall in Hy. exact (Hy z Hz).
    + apply Qltb_ge in E. split; [|split; assumption].
      constructor; [exact E|].
      eapply Forall_impl; [|exact Hy]. intros z Hz. simpl in Hz.
      eapply Qle_trans; eassumption.
Qed.

Lemma sortDesc_sorted (l : list A) : sortedDesc key (sortDesc key l).
Proof.
  induction l as [|x l IH]; simpl; [exact I|].
  apply insertDesc_sorted. exact IH.
Qed.

(** Elements of equal key keep their order. *)
Lemma insertDesc_stable (q : Q) (x : A) (l : list A) :
  filter (fun y => Qeq_bool (key y) q) (insertDesc key x l)
  = filter (fun y => Qeq_bool (key y) q) (x :: l).
Proof.
  induction l as [|y l IH]; [reflexivity|].
  cbn [insertDesc]. destruct (Qltb (key x) (key y)) eqn:E; [|reflexivity].
  cbn [filter] in *. rewrite IH.
  destruct (Qeq_bool (key x) q) eqn:Ex; [|reflexivity].
  destruct (Qeq_bool (key y) q) eqn:Ey; [|reflexivity].
  exfalso. apply Qeq_bool_iff in Ex. apply Qeq_bool_iff in Ey.
  apply Qltb_lt in E. rewrite Ex, Ey in E. exact (Qlt_irrefl q E).
Qed.

Lemma sortDesc_stable (q : Q) (l : list A) :
  filter (fun y => Qeq_bool (key y) q) (sortDesc key l)
  = filter (fun y => Qeq_bool (key y) q) l.
Proof.
  induction l as [|x l IH]; [reflexivity|].
  cbn [sortDesc fold_right]. fold (sortDesc key l).
  rewrite insertDesc_stable. cbn [filter]. rewrite IH. reflexivity.
Qed.

End SortMore.

(** X1: the matches that [findAllSimilarities] returns are the recorded
    matches, rearranged in descending order of similarity; matches of
    equal similarity keep the order in which they were recorded. *)
Theorem returned_matches_sorted (originalText sourceText : jsstring) :
  let returned := matches (findAllSimilarities originalText sourceText) in
  let recorded := st_matches (scanTexts originalText sourceText) in
  Permutation returned recorded
  /\ sortedDesc similarity returned
  /\ forall q, filter (fun m => Qeq_bool (similarity m) q) returned
               = filter (fun m => Qeq_bool (similarity m) q) recorded.
Proof.
  cbn zeta. unfold findAllSimilarities. cbn [matches]. unfold sortBySimilarity.
  split; [apply sortDesc_perm|]. split; [apply sortDesc_sorted|].
  intros q. apply sortDesc_stable.
Qed.

(** ** The recorded matches and ranges *)

Lemma Forall2_In_left (A B : Type) (P : A -> B -> Prop) (l1 : list A) (l2 : list B) (a : A) :
  Forall2 P l1 l2 -> In a l1 -> exists b, In b l2 /\ P a b.
Proof.
  induction 1 as [|x y l1 l2 Hxy _ IH]; intros Ha; [destruct Ha|].
  destruct Ha as [->|Ha].
  - exists y. split; [left; reflexivity | exact Hxy].
  - destruct (IH Ha) as (b & Hb & Hab). exists b. split; [right; exact Hb | exact Hab].
Qed.

Lemma Forall2_In_right (A B : Type) (P : A -> B -> Prop) (l1 : list A) (l2 : list B) (b : B) :
  Forall2 P l1 l2 -> In b l2 -> exists a, In a l1 /\ P a b.
Proof.
  induction 1 as [|x y l1 l2 Hxy _ IH]; intros Hb; [destruct Hb|].
  destruct Hb as [->|Hb].
  - exists x. split; [left; reflexivity | exact Hxy].
  - destruct (IH Hb) as (a & Ha & Hab). exists a. split; [right; exact Ha | exact Hab].
Qed.

Lemma ofNat_mult (a b : nat) : (ofNat (a * b) == ofNat a * ofNat b)%Q.
Proof. unfold ofNat. rewrite Nat2Z.inj_mul, inject_Z_mult. reflexivity. Qed.

Lemma ofNat_lt (a b : nat) : (ofNat a < ofNat b)%Q -> a < b.
Proof. unfold ofNat. rewrite <- Zlt_Qlt. lia. Qed.

(** A score above 5 means more than a twentieth of the tokens. *)
Lemma threshold_tokens (k n : nat) :
  0 < n -> (5 < ofNat k / ofNat n * 100)%Q -> n < 20 * k.
Proof.
  intros Hn H. apply ofNat_lt.
  pose proof (ofNat_pos n Hn) as Hpos.
  assert (Hne : ~ (ofNat n == 0)%Q).
  { intros E. rewrite E in Hpos. discriminate. }
  apply (Qmult_lt_compat_r _ _ (ofNat n) Hpos) in H.
  assert (E : (ofNat k / ofNat n * 100 * ofNat n == 100 * ofNat k)%Q) by (field; exact Hne).
  rewrite E in H. rewrite ofNat_mult.
  change (ofNat 20) with 20%Q.
  apply (Qmult_lt_l _ _ 5); [reflexivity|].
  setoid_replace (5 * (20 * ofNat k))%Q with (100 * ofNat k)%Q by ring.
  exact H.
Qed.

Lemma isCovered_false (l : list CoveredRange) (i : nat) :
  isCovered l i = false <-> forall r, In r l -> containsIndex r i = false.
Proof.
  unfold isCovered, containsIndex. split.
  - intros H r Hr. destruct ((start r <=? i) && (i <=? end_ r)) eqn:E; [|reflexivity].
    assert (Ht : existsb (fun range => (start range <=? i) && (i <=? end_ range)) l = true).
    { apply existsb_exists. exists r. split; assumption. }
    congruence.
  - intros H. destruct (existsb _ l) eqn:E; [|reflexivity].
    apply existsb_exists in E. destruct E as (r & Hr & Ht).
    rewrite (H r Hr) in Ht. discriminate.
Qed.

Lemma freshFrom_distinct (earlier l : list CoveredRange) :
  freshFrom earlier l ->
  Forall (fun r => start r <= end_ r) l ->
  NoDup (map start l)
  /\ forall r e, In r l -> In e earlier -> containsIndex e (start r) = false.
Proof.
  revert earlier. induction l as [|x l IH]; intros earlier Hf Hv; simpl.
  - split; [constructor | intros r e []].
  - destruct Hf as [Hx Hf]. inversion Hv as [|? ? Hvx Hvl]; subst.
    destruct (IH _ Hf Hvl) as [Hnd Hout]. split.
    + constructor; [|exact Hnd].
      intros Hin. apply in_map_iff in Hin. destruct Hin as (r & Er & Hr).
      assert (Hc : containsIndex x (start r) = false).
      { apply (Hout r x Hr). apply in_or_app. right. left. reflexivity. }
      unfold containsIndex in Hc. rewrite Er in Hc.
      rewrite Nat.leb_refl in Hc. simpl in Hc. apply Nat.leb_gt in Hc. lia.
    + intros r e [<-|Hr] He.
      * rewrite isCovered_false in Hx. exact (Hx e He).
      * apply (Hout r e Hr). apply in_or_app. left. exact He.
Qed.

Lemma totalCoverage_from (l : list CoveredRange) (acc : Z) :
  Forall (fun r => start r <= end_ r) l ->
  (acc <= fold_left
            (fun total range =>
               (total + (Z.of_nat (end_ range) - Z.of_nat (start range) + 1))%Z)
            l acc)%Z
  /\ forall r, In r l ->
       (acc + Z.of_nat (rangeLength r)
        <= fold_left
             (fun total range =>
                (total + (Z.of_nat (end_ range) - Z.of_nat (start range) + 1))%Z)
             l acc)%Z.
Proof.
  revert acc. induction l as [|x l IH]; intros acc Hv; simpl.
  - split; [lia | intros r []].
  - inversion Hv as [|? ? Hx Hl]; subst.
    destruct (IH (acc + (Z.of_nat (end_ x) - Z.of_nat (start x) + 1))%Z Hl) as [H1 H2].
    split; [lia|]. intros r [<-|Hr].
    + unfold rangeLength. lia.
    + specialize (H2 r Hr). lia.
Qed.

Lemma totalCoverage_ge (l : list CoveredRange) (r : CoveredRange) :
  Forall (fun r => start r <= end_ r) l -> In r l ->
  (Z.of_nat (rangeLength r) <= totalCoverage l)%Z.
Proof.
  intros Hv Hr. destruct (totalCoverage_from l 0 Hv) as [_ H].
  specialize (H r Hr). unfold totalCoverage. lia.
Qed.

Lemma matchedRange_valid (originalText normalizedSource : jsstring)
  (originalWords : list jsstring) (ms : list Match) (rs : list CoveredRange) :
  Forall2 (matchedRange originalText normalizedSource originalWords) ms rs ->
  Forall (fun r => start r <= end_ r) rs.
Proof.
  intros H. apply Forall_forall. intros r Hr.
  destruct (Forall2_In_right _ _ _ _ _ r H Hr) as (m & _ & w & Hw & Hlen & _). lia.
Qed.

(** X2: every recorded range spans at least 4 tokens, ends inside the
    original and spans more than a twentieth of it; no range starts inside
    a range recorded before it, so the start indices are pairwise distinct
    and there are at most [|O|] ranges, one per match. *)
Theorem recorded_ranges_shape (originalText sourceText : jsstring) :
  let n := length (split (normalizeText originalText)) in
  let st := scanTexts originalText sourceText in
  Forall (fun r => 4 <= rangeLength r /\ end_ r < n /\ n < 20 * rangeLength r)
         (st_coveredRanges st)
  /\ freshFrom [] (st_coveredRanges st)
  /\ NoDup (map start (st_coveredRanges st))
  /\ length (st_coveredRanges st) = length (st_matches st)
  /\ length (st_coveredRanges st) <= n.
Proof.
  intros n st.
  destruct (scanTexts_runInv originalText sourceText) as [Hm Hf].
  fold st in Hm, Hf.
  pose proof (matchedRange_valid _ _ _ _ _ Hm) as Hv.
  assert (Hshape : Forall (fun r => 4 <= rangeLength r /\ end_ r < n
                                    /\ n < 20 * rangeLength r)
                     (st_coveredRanges st)).
  { apply Forall_forall. intros r Hr.
    destruct (Forall2_In_right _ _ _ _ _ r Hm Hr)
      as (m & _ & w & Hw & Hlen & Hend & _ & _ & Hsim & Hgt & _).
    unfold rangeLength. split; [lia|]. split; [exact Hend|].
    apply threshold_tokens; [apply split_length_pos|].
    rewrite Hsim in Hgt. exact Hgt. }
  destruct (freshFrom_distinct [] _ Hf Hv) as [Hnd _].
  split; [exact Hshape|]. split; [exact Hf|]. split; [exact Hnd|].
  split; [symmetry; eapply Forall2_length; exact Hm|].
  apply Nat.le_trans with (length (seq 0 n)); [|rewrite length_seq; lia].
  rewrite <- (length_map start).
  apply NoDup_incl_length; [exact Hnd|].
  intros i Hi. apply in_map_iff in Hi. destruct Hi as (r & <- & Hr).
  rewrite Forall_forall in Hshape. destruct (Hshape r Hr) as (H4 & Hend & _).
  apply in_seq. unfold rangeLength in H4. lia.
Qed.

(** ** The words of normalized text *)

Lemma normalWord_free (w : jsstring) :
  normalWord w -> Forall (fun c => isSpace c = false) w.
Proof.
  intros [_ H]. eapply Forall_impl; [|exact H]. intros c [Hc _].
  destruct (isSpace c) eqn:E; [|reflexivity].
  apply isSpace_eq in E. subst c. discriminate.
Qed.

Lemma split_normalizeText (x : jsstring) :
  let ts := tokens (removeNonWordNonSpace (toLowerCase x)) in
  (ts = [] /\ normalizeText x = [] /\ split (normalizeText x) = [[]])
  \/ (ts <> [] /\ split (normalizeText x) = ts).
Proof.
  intros ts. rewrite normalizeText_join_tokens. fold ts.
  destruct ts as [|t ts'] eqn:E; [left; repeat split|].
  right. split; [discriminate|].
  rewrite split_splitBy. apply splitBy_join; [reflexivity | discriminate|].
  pose proof (tokens_normal x) as Hn. fold ts in Hn. rewrite E in Hn.
  eapply Forall_impl; [|exact Hn]. exact normalWord_free.
Qed.

Lemma normalizeText_words (x : jsstring) :
  2 <= length (split (normalizeText x)) ->
  Forall normalWord (split (normalizeText x)).
Proof.
  intros H. destruct (split_normalizeText x) as [(_ & _ & E)|[_ E]].
  - rewrite E in H. simpl in H. lia.
  - rewrite E. apply tokens_normal.
Qed.

Lemma join_length_ge (ws : list jsstring) :
  Forall (fun w => w <> []) ws -> 2 * length ws <= S (length (join ws)).
Proof.
  induction ws as [|w ws IH]; intros H; [simpl; lia|].
  inversion H as [|? ? Hw Hws]; subst. specialize (IH Hws).
  assert (1 <= length w) by (destruct w; [congruence | simpl; lia]).
  destruct ws as [|v ws]; [simpl; lia|].
  rewrite join_cons2, length_app. simpl length in *. lia.
Qed.

Lemma normalizeText_lower_fixed (x : jsstring) (c : ascii) :
  In c (normalizeText x) -> toLowerChar c = c.
Proof.
  intros H. rewrite normalizeText_join_tokens in H.
  destruct (normalWords_chars _ _ (tokens_normal x) H) as [->|[_ E]];
    [reflexivity | exact E].
Qed.

Lemma words_lower_fixed (ws : list jsstring) :
  Forall normalWord ws -> toLowerCase (join ws) = join ws.
Proof.
  intros H. apply map_fixed. intros c Hc.
  destruct (normalWords_chars _ _ H Hc) as [->|[_ E]]; [reflexivity | exact E].
Qed.

Lemma slice_Forall (A : Type) (P : A -> Prop) (a : list A) (from to : nat) :
  Forall P a -> Forall P (slice a from to).
Proof.
  intros H. apply Forall_forall. intros x Hx. apply slice_incl in Hx.
  rewrite Forall_forall in H. exact (H x Hx).
Qed.

(** ** Scores of a run *)

Lemma percentage_mono (a b : Z) (n : nat) :
  (a <= b)%Z -> (inject_Z a / ofNat n * 100 <= inject_Z b / ofNat n * 100)%Q.
Proof.
  intros H. apply Qmult_le_compat_r; [|discriminate].
  unfold Qdiv. apply Qmult_le_compat_r; [rewrite <- Zle_Qle; exact H|].
  apply Qinv_le_0_compat. unfold ofNat. change 0%Q with (inject_Z 0).
  rewrite <- Zle_Qle. lia.
Qed.

Lemma recorded_match_le_overall (originalText sourceText : jsstring) (m : Match) :
  In m (st_matches (scanTexts originalText sourceText)) ->
  (5 < similarity m)%Q
  /\ (similarity m <= overallSimilarity (findAllSimilarities originalText sourceText))%Q.
Proof.
  intros Hm.
  destruct (scanTexts_runInv originalText sourceText) as [HF _].
  pose proof (matchedRange_valid _ _ _ _ _ HF) as Hv.
  destruct (Forall2_In_left _ _ _ _ _ m HF Hm)
    as (r & Hr & w & Hw & Hlen & Hend & _ & _ & Hsim & Hgt & _).
  split; [exact Hgt|].
  unfold findAllSimilarities. cbn [overallSimilarity].
  apply Q.min_glb.
  - rewrite Hsim. apply percentage_mono. apply (totalCoverage_ge _ r Hv Hr).
  - rewrite Hsim. apply percentage_le_100; [apply split_length_pos | lia].
Qed.

(** X3: every returned match has a similarity above 5, and the overall
    similarity is at least the similarity of every returned match; hence
    the overall similarity is 0 when no match is returned and above 5
    otherwise. *)
Theorem overall_dominates_matches (originalText sourceText : jsstring) :
  let r := findAllSimilarities originalText sourceText in
  Forall (fun m => (5 < similarity m)%Q /\ (similarity m <= overallSimilarity r)%Q)
         (matches r)
  /\ ((matches r = [] /\ (overallSimilarity r == 0)%Q)
      \/ (matches r <> [] /\ (5 < overallSimilarity r)%Q)).
Proof.
  intros r.
  assert (Hall : Forall (fun m => (5 < similarity m)%Q
                                  /\ (similarity m <= overallSimilarity r)%Q)
                   (matches r)).
  { apply Forall_forall. intros m Hm. unfold r, findAllSimilarities in Hm.
    cbn [matches] in Hm. apply In_sortDesc in Hm.
    apply recorded_match_le_overall. exact Hm. }
  split; [exact Hall|].
  destruct (matches r) as [|m ms] eqn:E.
  - left. split; [reflexivity|].
    assert (Hst : st_matches (scanTexts originalText sourceText) = []).
    { pose proof (sortDesc_perm _ similarity
                    (st_matches (scanTexts originalText sourceText))) as Hp.
      unfold r, findAllSimilarities in E. cbn [matches] in E.
      unfold sortBySimilarity in E. rewrite E in Hp.
      apply Permutation_nil in Hp. exact Hp. }
    destruct (scanTexts_runInv originalText sourceText) as [HF _].
    rewrite Hst in HF.
    assert (Hcr : st_coveredRanges (scanTexts originalText sourceText) = []).
    { apply Forall2_length in HF.
      destruct (st_coveredRanges (scanTexts originalText sourceText));
        [reflexivity | discriminate]. }
    unfold r, findAllSimilarities. cbn [overallSimilarity]. rewrite Hcr.
    cbn [totalCoverage fold_left]. rewrite Q.min_l.
    + unfold Qdiv. rewrite !Qmult_0_l. reflexivity.
    + unfold Qdiv. rewrite !Qmult_0_l. discriminate.
  - right. split; [discriminate|].
    inversion Hall as [|? ? [H5 Hle] _]; subst.
    eapply Qlt_le_trans; eassumption.
Qed.

(** X4: the phrase of every returned match occurs in the normalized
    source: for some start index [i] and window size [w] between 4 and 15,
    the tokens [i .. i+w-1] of the original joined by single spaces stand
    in the normalized source at character offset [sourceIndex], and at no
    smaller offset. *)
Theorem matches_occur_in_source (originalText sourceText : jsstring) :
  let originalWords := split (normalizeText originalText) in
  Forall
    (fun m =>
       exists i w pre post,
         4 <= w <= 15 /\ i + w <= length originalWords
         /\ normalizeText sourceText
            = pre ++ join (slice originalWords i (i + w)) ++ post
         /\ sourceIndex m = Z.of_nat (length pre)
         /\ forall d, d < length pre ->
              startsWith (join (slice originalWords i (i + w)))
                         (skipn d (normalizeText sourceText)) = false)
    (matches (findAllSimilarities originalText sourceText)).
Proof.
  intros originalWords. apply Forall_forall. intros m Hm.
  unfold findAllSimilarities in Hm. cbn [matches] in Hm. apply In_sortDesc in Hm.
  destruct (scanTexts_runInv originalText sourceText) as [HF _].
  destruct (Forall2_In_left _ _ _ _ _ m HF Hm)
    as (r & Hr & w & Hw & Hlen & Hend & Hidx & Hpos & _).
  fold originalWords in Hidx, Hend.
  rewrite Hidx in Hpos. destruct (indexOf_found _ _ Hpos) as (pre & post & E & Ek & Hmin).
  exists (start r), w, pre, post. split; [exact Hw|]. split; [lia|].
  split; [exact E|]. split; [rewrite Hidx; exact Ek | exact Hmin].
Qed.

(** ** The excerpt of a match *)

(** X5: for every returned match, [extended], the matched tokens
    [i .. j-1] of the original (at least 4) joined by single spaces, has at
    least 7 characters, and [originalIndex] is the first offset of
    [extended] in the lowercased original text, or -1.  When it is an
    offset [k], the matched text is the substring of the original text
    from [k] to [k + extended.length + 20], cut at the end of the text.
    For texts whose code units lie in U+0000..U+00FF, where [toLowerCase]
    keeps the length of a string (outside that range it need not, and the
    substring may then be shifted against the phrase), this substring is
    the part of the original text at that offset whose lowercase form is
    [extended], followed by at most 20 further characters of the original.
    When [originalIndex] is -1 the matched text is [extended] itself. *)
Theorem matched_text_shape (originalText sourceText : jsstring) :
  let originalWords := split (normalizeText originalText) in
  Forall
    (fun m =>
       exists i j,
         i + 4 <= j /\ j <= length originalWords
         /\ let extended := join (slice originalWords i j) in
            originalIndex m = indexOf (toLowerCase originalText) extended
            /\ 7 <= length extended
            /\ ((originalIndex m = (-1)%Z /\ matchedText m = extended)
                \/ exists pre c tail rest,
                     originalText = pre ++ c ++ tail ++ rest
                     /\ originalIndex m = Z.of_nat (length pre)
                     /\ toLowerCase c = extended
                     /\ matchedText m = c ++ tail
                     /\ length tail <= 20)
            /\ (originalIndex m = (-1)%Z
                \/ exists k before after,
                     originalIndex m = Z.of_nat k
                     /\ toLowerCase originalText = before ++ extended ++ after
                     /\ length before = k
                     /\ (forall d, d < k ->
                           startsWith extended (skipn d (toLowerCase originalText))
                           = false)
                     /\ matchedText m
                        = substring originalText k (k + length extended + 20)))
    (matches (findAllSimilarities originalText sourceText)).
Proof.
  intros originalWords. apply Forall_forall. intros m Hm.
  unfold findAllSimilarities in Hm. cbn [matches] in Hm. apply In_sortDesc in Hm.
  destruct (scanTexts_runInv originalText sourceText) as [HF _].
  destruct (Forall2_In_left _ _ _ _ _ m HF Hm)
    as (r & Hr & w & Hw & Hlen & Hend & _ & _ & _ & _ & Hidx & Htext).
  fold originalWords in Hidx, Htext, Hend.
  exists (start r), (S (end_ r)). split; [lia|]. split; [lia|].
  assert (Hwords : Forall normalWord originalWords).
  { apply normalizeText_words. fold originalWords. lia. }
  set (extended := join (slice originalWords (start r) (S (end_ r)))) in *.
  assert (Hlow : toLowerCase extended = extended).
  { apply words_lower_fixed, slice_Forall. exact Hwords. }
  rewrite Hlow in Hidx. cbv zeta.
  split; [exact Hidx|]. split; [|split].
  - assert (Hne : Forall (fun w0 => w0 <> [])
                    (slice originalWords (start r) (S (end_ r)))).
    { apply slice_Forall. eapply Forall_impl; [|exact Hwords]. intros v [Hv _]. exact Hv. }
    apply join_length_ge in Hne. rewrite slice_length in Hne by lia.
    fold extended in Hne. lia.
  - destruct (0 <=? originalIndex m)%Z eqn:Epos.
    + right. apply Z.leb_le in Epos. rewrite Hidx in Epos.
      destruct (indexOf_found _ _ Epos) as (pre' & post' & E & Ek & _).
      unfold toLowerCase in E.
      apply map_eq_app in E. destruct E as (pre & tl & Eo & Epre & Etl).
      apply map_eq_app in Etl. destruct Etl as (c & post & -> & Ec & _).
      destruct (substring_prefix pre c post 20) as (tail & rest & Epost & Esub & Htail).
      exists pre, c, tail, rest.
      assert (Lpre : length pre = length pre') by (rewrite <- Epre; symmetry; apply length_map).
      assert (Lc : length c = length extended) by (rewrite <- Ec; symmetry; apply length_map).
      split; [rewrite Eo, Epost; reflexivity|].
      split; [rewrite Hidx, Ek, Lpre; reflexivity|].
      split; [exact Ec|]. split; [|exact Htail].
      rewrite Htext, Hidx, Ek, Nat2Z.id, <- Lpre, <- Lc, Eo. exact Esub.
    + left. apply Z.leb_gt in Epos. split; [|exact Htext].
      rewrite Hidx in *. destruct (indexOf_range (toLowerCase originalText) extended); lia.
  - destruct (0 <=? originalIndex m)%Z eqn:Epos.
    + right. apply Z.leb_le in Epos. rewrite Hidx in Epos.
      destruct (indexOf_found _ _ Epos) as (before & after & E & Ek & Hmin).
      exists (length before), before, after.
      split; [rewrite Hidx; exact Ek|]. split; [exact E|].
      split; [reflexivity|]. split; [exact Hmin|].
      rewrite Htext, Hidx, Ek, Nat2Z.id. reflexivity.
    + left. apply Z.leb_gt in Epos.
      rewrite Hidx in *. destruct (indexOf_range (toLowerCase originalText) extended); lia.
Qed.

(** ** What the result depends on *)

Lemma normalizeText_twice (x : jsstring) :
  normalizeText (normalizeText x) = normalizeText x.
Proof.
  rewrite (normalizeText_join_tokens x). apply normalizeText_join, tokens_normal.
Qed.

Lemma toLowerCase_twice (x : jsstring) : toLowerCase (toLowerCase x) = toLowerCase x.
Proof.
  unfold toLowerCase. rewrite map_map. apply map_ext. exact toLowerChar_idem.
Qed.

Lemma normalizeText_toLowerCase (x : jsstring) :
  normalizeText (toLowerCase x) = normalizeText x.
Proof. unfold normalizeText. rewrite toLowerCase_twice. reflexivity. Qed.

(** X6: the source text enters the comparison only through its normalized
    form: comparing against the normalized source, or against the
    lowercased source, gives the same result as comparing against the
    source itself. *)
Theorem source_enters_normalized (originalText sourceText : jsstring) :
  findAllSimilarities originalText (normalizeText sourceText)
  = findAllSimilarities originalText sourceText
  /\ findAllSimilarities originalText (toLowerCase sourceText)
     = findAllSimilarities originalText sourceText.
Proof.
  unfold findAllSimilarities, scanTexts.
  rewrite normalizeText_twice, normalizeText_toLowerCase. split; reflexivity.
Qed.

Section SameScores.

Variable originalText1 originalText2 normalizedSource : jsstring.
Variable originalWords sourceWords : list jsstring.

Lemma scanAt_sameScores (w i : nat) (st1 st2 : ScanState) :
  sameScores st1 st2 ->
  sameScores
    (scanAt originalText1 normalizedSource originalWords sourceWords w st1 i)
    (scanAt originalText2 normalizedSource originalWords sourceWords w st2 i).
Proof.
  intros [Hr Hm]. unfold scanAt. rewrite Hr.
  destruct (isCovered (st_coveredRanges st2) i); [split; assumption|].
  destruct (0 <=? indexOf normalizedSource
                    (join (slice originalWords i (i + w))))%Z;
    [|split; assumption].
  destruct (Qltb 5 _); [|split; assumption].
  split; cbn [st_matches st_coveredRanges].
  - reflexivity.
  - apply Forall2_app; [exact Hm|]. constructor; [|constructor].
    split; reflexivity.
Qed.

Lemma scanAll_sameScores :
  sameScores
    (scanAll originalText1 normalizedSource originalWords sourceWords)
    (scanAll originalText2 normalizedSource originalWords sourceWords).
Proof.
  unfold scanAll.
  assert (H : forall ws st1 st2, sameScores st1 st2 ->
              sameScores
                (fold_left (scanWindow originalText1 normalizedSource
                              originalWords sourceWords) ws st1)
                (fold_left (scanWindow originalText2 normalizedSource
                              originalWords sourceWords) ws st2)).
  { induction ws as [|w ws IH]; intros st1 st2 Hst; [exact Hst|].
    simpl. apply IH. unfold scanWindow.
    generalize (startIndices originalWords w). intros idxs. revert st1 st2 Hst.
    induction idxs as [|i idxs IHi]; intros st1 st2 Hst; [exact Hst|].
    simpl. apply IHi. apply scanAt_sameScores. exact Hst. }
  apply H. split; [reflexivity | constructor].
Qed.

End SameScores.

Lemma insertDesc_sameScore (a b : Match) (l1 l2 : list Match) :
  sameScore a b -> Forall2 sameScore l1 l2 ->
  Forall2 sameScore (insertDesc similarity a l1) (insertDesc similarity b l2).
Proof.
  intros Hab H. induction H as [|x y l1 l2 Hxy Hl IH]; simpl.
  - constructor; [exact Hab | constructor].
  - destruct Hab as [Ea Eb]. destruct Hxy as [Ex Ey].
    rewrite Ea, Ex. destruct (Qltb (similarity b) (similarity y)).
    + constructor; [split; assumption | exact IH].
    + constructor; [split; assumption|]. constructor; [split; assumption | exact Hl].
Qed.

Lemma sortDesc_sameScore (l1 l2 : list Match) :
  Forall2 sameScore l1 l2 ->
  Forall2 sameScore (sortDesc similarity l1) (sortDesc similarity l2).
Proof.
  induction 1 as [|x y l1 l2 Hxy Hl IH]; simpl; [constructor|].
  apply insertDesc_sameScore; assumption.
Qed.

(** X7: the original text enters the scores only through its normalized
    form: two originals with the same normalized form give the same
    covered ranges, the same overall similarity and, match by match, the
    same similarity and source offset (the matched text and the original
    offset may differ). *)
Theorem original_enters_scores_normalized (original1 original2 sourceText : jsstring) :
  normalizeText original1 = normalizeText original2 ->
  st_coveredRanges (scanTexts original1 sourceText)
  = st_coveredRanges (scanTexts original2 sourceText)
  /\ overallSimilarity (findAllSimilarities original1 sourceText)
     = overallSimilarity (findAllSimilarities original2 sourceText)
  /\ Forall2 sameScore
       (matches (findAllSimilarities original1 sourceText))
       (matches (findAllSimilarities original2 sourceText)).
Proof.
  intros E.
  assert (H : sameScores (scanTexts original1 sourceText)
                         (scanTexts original2 sourceText)).
  { unfold scanTexts. rewrite E. apply scanAll_sameScores. }
  destruct H as [Hr Hm]. split; [exact Hr|]. split.
  - unfold findAllSimilarities. cbn [overallSimilarity]. rewrite Hr, E. reflexivity.
  - unfold findAllSimilarities. cbn [matches]. apply sortDesc_sameScore. exact Hm.
Qed.

(** X7 at an original with capitals and punctuation and its plain form. *)
Lemma original_enters_scores_witness :
  normalizeText (str "The quick, brown Fox jumps!")
  = normalizeText (str "the quick brown fox jumps")
  /\ overallSimilarity
       (findAllSimilarities (str "The quick, brown Fox jumps!")
                            (str "a quick brown fox jumps high"))
     = overallSimilarity
         (findAllSimilarities (str "the quick brown fox jumps")
                              (str "a quick brown fox jumps high")).
Proof.
  split; [reflexivity|].
  apply (original_enters_scores_normalized
           (str "The quick, brown Fox jumps!") (str "the quick brown fox jumps")
           (str "a quick brown fox jumps high")).
  reflexivity.
Defined.

(** ** Texts without words *)

Lemma isWordChar_toLowerChar (c : ascii) : isWordChar (toLowerChar c) = isWordChar c.
Proof. each_char c. Qed.

Lemma tokens_nil_iff (s : jsstring) :
  tokens s = [] <-> Forall (fun c => isSpaceChar c = true) s.
Proof.
  induction s as [|c s IH].
  - split; [constructor | reflexivity].
  - destruct (isSpaceChar c) eqn:E.
    + rewrite tokens_space by exact E. rewrite IH. split.
      * intros H. constructor; assumption.
      * intros H. inversion H; assumption.
    + destruct (tokens_char c s E) as (w & ws & _ & Et). rewrite Et. split.
      * discriminate.
      * intros H. inversion H; congruence.
Qed.

Lemma normalizeText_nil_iff (x : jsstring) :
  normalizeText x = [] <-> noWordChar x.
Proof.
  rewrite normalizeText_join_tokens. unfold noWordChar. split.
  - intros H. apply join_tokens_nil in H. apply tokens_nil_iff in H.
    rewrite Forall_forall in H. apply Forall_forall. intros c Hc.
    destruct (isWordChar c) eqn:E; [|reflexivity].
    assert (Hin : In (toLowerChar c) (removeNonWordNonSpace (toLowerCase x))).
    { apply filter_In. split; [apply in_map; exact Hc|].
      rewrite isWordChar_toLowerChar, E. reflexivity. }
    specialize (H _ Hin).
    rewrite <- isWordChar_toLowerChar in E. apply word_not_space in E. congruence.
  - intros H. replace (tokens (removeNonWordNonSpace (toLowerCase x))) with (@nil jsstring);
      [reflexivity|].
    symmetry. apply tokens_nil_iff. apply Forall_forall. intros c Hc.
    apply filter_In in Hc. destruct Hc as [Hc Hk].
    apply in_map_iff in Hc. destruct Hc as (c0 & <- & Hc0).
    rewrite Forall_forall in H. specialize (H c0 Hc0).
    rewrite isWordChar_toLowerChar, H in Hk. exact Hk.
Qed.

Lemma noWordChar_toLowerCase (x : jsstring) :
  noWordChar (toLowerCase x) <-> noWordChar x.
Proof.
  unfold noWordChar, toLowerCase. rewrite Forall_map. split; intros H;
    (eapply Forall_impl; [|exact H]); intros c Hc; cbv beta in *.
  - rewrite <- isWordChar_toLowerChar. exact Hc.
  - rewrite isWordChar_toLowerChar. exact Hc.
Qed.

(** X8: the normalized text is empty exactly when the lowercased text has
    no word character (letter, digit or underscore of the ASCII range);
    with such an original, or such a source, [findAllSimilarities] returns
    overall similarity 0 and no matches.  For texts whose code units lie in
    U+0000..U+00FF, [toLowerCase] turns no other character into a word
    character (outside that range it may, as for the Kelvin sign U+212A),
    so that the lowercased text has no word character exactly when the
    text has none. *)
Theorem texts_without_words (x : jsstring) :
  (normalizeText x = [] <-> noWordChar (toLowerCase x))
  /\ (noWordChar (toLowerCase x) ->
      forall other,
        emptyResult (findAllSimilarities x other)
        /\ emptyResult (findAllSimilarities other x))
  /\ (noWordChar (toLowerCase x) <-> noWordChar x)
  /\ (normalizeText x = [] <-> noWordChar x).
Proof.
  assert (Hiff : normalizeText x = [] <-> noWordChar (toLowerCase x)).
  { rewrite noWordChar_toLowerCase. apply normalizeText_nil_iff. }
  split; [exact Hiff|]. split; [|split].
  - intros H other. apply Hiff in H. split.
    + apply emptyScan_emptyResult. unfold scanTexts. rewrite H.
      apply scanAll_short. simpl. lia.
    + apply emptyScan_emptyResult. unfold scanTexts. rewrite H.
      apply scanAll_empty_source.
  - apply noWordChar_toLowerCase.
  - apply normalizeText_nil_iff.
Qed.

(** X8 at a text of punctuation and blanks. *)
Lemma texts_without_words_witness :
  noWordChar (toLowerCase (str "?!  ... (-) "))
  /\ emptyResult (findAllSimilarities (str "one two three four five")
                                      (str "?!  ... (-) ")).
Proof.
  assert (H : noWordChar (toLowerCase (str "?!  ... (-) ")))
    by (repeat constructor).
  split; [exact H|].
  apply (proj1 (proj2 (texts_without_words (str "?!  ... (-) "))) H
           (str "one two three four five")).
Defined.

(** X9: the token array of the matcher, the normalized text split at
    spaces, is [[""]] when the normalized text is empty and otherwise the
    list of its words, each a non-empty run of lowercase word characters;
    joining the array with single spaces gives the normalized text back. *)
Theorem token_array_of_normalized_text (x : jsstring) :
  let words := split (normalizeText x) in
  join words = normalizeText x
  /\ ((normalizeText x = [] /\ words = [[]])
      \/ (normalizeText x <> [] /\ Forall normalWord words
          /\ words = tokens (removeNonWordNonSpace (toLowerCase x)))).
Proof.
  intros words. split; [apply join_split|].
  destruct (split_normalizeText x) as [(_ & E1 & E2)|[Hne E]].
  - left. split; assumption.
  - right. split; [|split; [|exact E]].
    + intros H. apply Hne. apply join_tokens_nil.
      rewrite <- normalizeText_join_tokens. exact H.
    + unfold words. rewrite E. apply tokens_normal.
Qed.

(** ** More on the aggregate score *)

Lemma sumOfSimilarities_bounds (ms : list PlagiarismMatch.t) (hi : R) :
  Forall (fun m => (0 <= Q2R (PlagiarismMatch.similarity m) <= hi)%R) ms ->
  (0 <= sumOfSimilarities ms <= hi * INR (length ms))%R.
Proof.
  induction 1 as [|m ms Hm _ IH].
  - simpl. lra.
  - change (sumOfSimilarities (m :: ms))
      with (Q2R (PlagiarismMatch.similarity m) + sumOfSimilarities ms)%R.
    change (length (m :: ms)) with (S (length ms)). rewrite S_INR. lra.
Qed.

Lemma calculateOverallSimilarity_cons (m : PlagiarismMatch.t) (ms : list PlagiarismMatch.t) :
  (0 <= sumOfSimilarities (m :: ms))%R ->
  calculateOverallSimilarity (m :: ms)
  = Num (Rmin (sqrt (sumOfSimilarities (m :: ms)
                     * INR (Nat.min (length (m :: ms)) 5)) * (8 / 10)) 100).
Proof.
  intros H. unfold calculateOverallSimilarity.
  rewrite Q2R_totalSimilarity, Math_sqrt_nonneg; [reflexivity|].
  apply Rmult_le_pos; [exact H | apply pos_INR].
Qed.

Lemma Q2R_similarity_nonneg (ms : list PlagiarismMatch.t) :
  Forall (fun m => (0 <= PlagiarismMatch.similarity m)%Q) ms ->
  Forall (fun m => (0 <= Q2R (PlagiarismMatch.similarity m))%R) ms.
Proof.
  intros H. eapply Forall_impl; [|exact H]. intros m Hm. apply Q2R_nonneg. exact Hm.
Qed.

Lemma sumOfSimilarities_nonneg (ms : list PlagiarismMatch.t) :
  Forall (fun m => (0 <= PlagiarismMatch.similarity m)%Q) ms ->
  (0 <= sumOfSimilarities ms)%R.
Proof.
  induction 1 as [|m ms Hm _ IH]; simpl; [lra|].
  apply Q2R_nonneg in Hm. lra.
Qed.

(** X11: one more match of non-negative similarity never lowers the
    aggregate score of matches of non-negative similarity. *)
Theorem calculateOverallSimilarity_monotone
  (m : PlagiarismMatch.t) (ms : list PlagiarismMatch.t) :
  Forall (fun m' => (0 <= PlagiarismMatch.similarity m')%Q) (m :: ms) ->
  numLe (calculateOverallSimilarity ms) (calculateOverallSimilarity (m :: ms)).
Proof.
  intros H. inversion H as [|? ? Hm Hms]; subst.
  pose proof (sumOfSimilarities_nonneg _ H) as Hs1.
  pose proof (sumOfSimilarities_nonneg _ Hms) as Hs0.
  rewrite (calculateOverallSimilarity_cons m ms Hs1).
  destruct ms as [|m0 ms].
  - simpl. apply Rmin_glb; [|lra].
    apply Rmult_le_pos; [apply sqrt_pos | lra].
  - rewrite (calculateOverallSimilarity_cons m0 ms Hs0). unfold numLe.
    apply Rle_min_compat_r. apply Rmult_le_compat_r; [lra|].
    apply sqrt_le_1_alt. apply Rmult_le_compat.
    + exact Hs0.
    + apply pos_INR.
    + cbn [sumOfSimilarities fold_right]. apply Q2R_nonneg in Hm.
      fold (sumOfSimilarities (m0 :: ms)). lra.
    + apply le_INR. cbn [length]. lia.
Qed.

(** X11 at a match of similarity 30 added to one of similarity 20. *)
Lemma calculateOverallSimilarity_monotone_witness :
  numLe (calculateOverallSimilarity [withSimilarity 20])
        (calculateOverallSimilarity [withSimilarity 30; withSimilarity 20]).
Proof.
  apply (calculateOverallSimilarity_monotone (withSimilarity 30) [withSimilarity 20]).
  repeat constructor; discriminate.
Defined.

Lemma calculateOverallSimilarity_le_8n (ms : list PlagiarismMatch.t) :
  Forall (fun m => (0 <= PlagiarismMatch.similarity m <= 100)%Q) ms ->
  numLe (calculateOverallSimilarity ms) (Num (8 * INR (length ms))).
Proof.
  intros H.
  assert (HR : Forall (fun m => (0 <= Q2R (PlagiarismMatch.similarity m) <= 100)%R) ms).
  { eapply Forall_impl; [|exact H]. intros m [H0 H1]. split.
    - apply Q2R_nonneg. exact H0.
    - apply Qle_Rle in H1. replace (Q2R 100) with 100%R in H1; [exact H1|].
      unfold Q2R. simpl. lra. }
  pose proof (sumOfSimilarities_bounds ms 100 HR) as [Hs0 Hs1].
  destruct ms as [|m ms]; [simpl; lra|].
  rewrite (calculateOverallSimilarity_cons m ms Hs0). unfold numLe.
  set (n := INR (length (m :: ms))) in *.
  assert (Hn : (0 <= n)%R) by apply pos_INR.
  assert (Hk : (INR (Nat.min (length (m :: ms)) 5) <= n)%R).
  { apply le_INR. lia. }
  eapply Rle_trans; [apply Rmin_l|].
  assert (Hsq : (sqrt (sumOfSimilarities (m :: ms)
                       * INR (Nat.min (length (m :: ms)) 5)) <= 10 * n)%R).
  { rewrite <- (sqrt_square (10 * n)) by lra. apply sqrt_le_1_alt.
    apply Rle_trans with (100 * n * n)%R; [|lra].
    apply Rmult_le_compat; [exact Hs0 | apply pos_INR | exact Hs1 | exact Hk]. }
  lra.
Qed.

(** X12: for matches of similarity between 0 and 100 the aggregate score
    is at most 8 times the number of matches; one match scores at most 8,
    and a full match of similarity 100 scores exactly 8. *)
Theorem calculateOverallSimilarity_at_most_8_per_match (ms : list PlagiarismMatch.t) :
  Forall (fun m => (0 <= PlagiarismMatch.similarity m <= 100)%Q) ms ->
  numLe (calculateOverallSimilarity ms) (Num (8 * INR (length ms)))
  /\ calculateOverallSimilarity [withSimilarity 100] = Num 8.
Proof.
  intros H. split; [apply calculateOverallSimilarity_le_8n; exact H|].
  rewrite calculateOverallSimilarity_cons.
  - assert (E : (sumOfSimilarities [withSimilarity 100]
                 * INR (Nat.min (length [withSimilarity 100]) 5) = 10 * 10)%R).
    { unfold sumOfSimilarities, withSimilarity, Q2R. simpl. lra. }
    rewrite E, sqrt_square by lra. f_equal. rewrite Rmin_left; lra.
  - unfold sumOfSimilarities, withSimilarity, Q2R. simpl. lra.
Qed.

(** X12 at three matches. *)
Lemma calculateOverallSimilarity_at_most_8_witness :
  numLe (calculateOverallSimilarity
           [withSimilarity 100; withSimilarity 50; withSimilarity 6])
        (Num (8 * INR 3)).
Proof.
  apply (calculateOverallSimilarity_at_most_8_per_match
           [withSimilarity 100; withSimilarity 50; withSimilarity 6]).
  repeat constructor; discriminate.
Defined.

(** X13: on matches of non-negative similarity the aggregate score of the
    current service is at most that of the earlier service, and both agree
    on at most 5 matches. *)
Theorem calculateOverallSimilarity_versions (ms : list PlagiarismMatch.t) :
  Forall (fun m => (0 <= PlagiarismMatch.similarity m)%Q) ms ->
  numLe (calculateOverallSimilarity ms) (LegacyService.calculateOverallSimilarity ms)
  /\ (length ms <= 5 ->
      calculateOverallSimilarity ms = LegacyService.calculateOverallSimilarity ms).
Proof.
  intros H. pose proof (sumOfSimilarities_nonneg _ H) as Hs.
  destruct ms as [|m ms]; [split; [simpl; lra | reflexivity]|].
  split.
  - rewrite (calculateOverallSimilarity_cons m ms Hs).
    unfold LegacyService.calculateOverallSimilarity.
    rewrite Q2R_totalSimilarity, Math_sqrt_nonneg
      by (apply Rmult_le_pos; [exact Hs | apply pos_INR]).
    unfold numLe. apply Rle_min_compat_r. apply Rmult_le_compat_r; [lra|].
    apply sqrt_le_1_alt. apply Rmult_le_compat_l; [exact Hs|].
    apply le_INR. lia.
  - intros Hn. unfold calculateOverallSimilarity, LegacyService.calculateOverallSimilarity.
    rewrite Nat.min_l by exact Hn. reflexivity.
Qed.

(** X13 at two matches. *)
Lemma calculateOverallSimilarity_versions_witness :
  calculateOverallSimilarity [withSimilarity 20; withSimilarity 60]
  = LegacyService.calculateOverallSimilarity [withSimilarity 20; withSimilarity 60].
Proof.
  apply (proj2 (calculateOverallSimilarity_versions
                  [withSimilarity 20; withSimilarity 60]
                  ltac:(repeat constructor; discriminate))).
  simpl. lia.
Defined.

(** ** Removing the search results of pages already found *)

Lemma findIndexFrom_bounds (A : Type) (p : A -> bool) (a : list A) (k : nat) :
  findIndexFrom p a k = (-1)%Z
  \/ (Z.of_nat k <= findIndexFrom p a k < Z.of_nat (k + length a))%Z.
Proof.
  revert k. induction a as [|x r IH]; intros k; simpl; [left; reflexivity|].
  destruct (p x); [right; lia|].
  destruct (IH (S k)) as [E|H]; [left; exact E | right; lia].
Qed.

Lemma findIndexFrom_app (A : Type) (p : A -> bool) (pre l : list A) (k : nat) :
  findIndexFrom p (pre ++ l) k
  = if existsb p pre then findIndexFrom p pre k
    else findIndexFrom p l (k + length pre).
Proof.
  revert k. induction pre as [|x pre IH]; intros k; simpl.
  - rewrite Nat.add_0_r. reflexivity.
  - destruct (p x); simpl; [reflexivity|].
    rewrite IH. replace (S k + length pre) with (k + S (length pre)) by lia.
    reflexivity.
Qed.

Lemma filterIndexed_firstOccurrences (pre l : list WikiSearchResult.t) :
  filterIndexedFrom
    (fun result index =>
       (Z.of_nat index
        =? findIndex
             (fun r => (WikiSearchResult.pageid r
                        =? WikiSearchResult.pageid result)%Z)
             (pre ++ l))%Z)
    l (length pre)
  = firstOccurrences pre l.
Proof.
  revert pre. induction l as [|x r IH]; intros pre; [reflexivity|].
  cbn [filterIndexedFrom firstOccurrences].
  assert (Hrec : filterIndexedFrom
                   (fun result index =>
                      (Z.of_nat index
                       =? findIndex
                            (fun r0 => (WikiSearchResult.pageid r0
                                        =? WikiSearchResult.pageid result)%Z)
                            (pre ++ x :: r))%Z)
                   r (S (length pre))
                 = firstOccurrences (pre ++ [x]) r).
  { specialize (IH (pre ++ [x])). rewrite <- app_assoc in IH.
    rewrite length_app in IH. simpl in IH.
    replace (length pre + 1) with (S (length pre)) in IH by lia. exact IH. }
  rewrite Hrec. unfold findIndex. rewrite findIndexFrom_app.
  destruct (existsb _ pre) eqn:E.
  - pose proof (findIndexFrom_bounds _
                  (fun r0 => (WikiSearchResult.pageid r0
                              =? WikiSearchResult.pageid x)%Z) pre 0) as [H|H].
    + rewrite H. replace (Z.of_nat (length pre) =? -1)%Z with false; [reflexivity|].
      symmetry. apply Z.eqb_neq. lia.
    + replace (Z.of_nat (length pre) =? _)%Z with false; [reflexivity|].
      symmetry. apply Z.eqb_neq. simpl in H. lia.
  - simpl. rewrite Z.eqb_refl, Z.eqb_refl. reflexivity.
Qed.

Lemma flatResults_firstOccurrences (searchResults : list (list WikiSearchResult.t)) :
  flatResults searchResults = firstn 8 (firstOccurrences [] (concat searchResults)).
Proof.
  unfold flatResults, slice. cbn [skipn Nat.sub].
  rewrite <- (filterIndexed_firstOccurrences [] (concat searchResults)).
  reflexivity.
Qed.

Lemma firstOccurrences_spec (seen l : list WikiSearchResult.t) :
  let r := firstOccurrences seen l in
  NoDup (map WikiSearchResult.pageid r)
  /\ (forall x, In x r ->
        In x l /\ ~ In (WikiSearchResult.pageid x) (map WikiSearchResult.pageid seen))
  /\ (forall x, In x l ->
        In (WikiSearchResult.pageid x) (map WikiSearchResult.pageid seen)
        \/ In (WikiSearchResult.pageid x) (map WikiSearchResult.pageid r)).
Proof.
  revert seen. induction l as [|x l IH]; intros seen; cbn [firstOccurrences].
  - cbv zeta. split; [constructor|]. split; intros y [].
  - destruct (IH (seen ++ [x])) as (Hnd & Hin & Hall). cbv zeta in *.
    assert (Hseen : forall p, In p (map WikiSearchResult.pageid (seen ++ [x]))
                      <-> In p (map WikiSearchResult.pageid seen)
                          \/ p = WikiSearchResult.pageid x).
    { intros p. rewrite map_app, in_app_iff. simpl. intuition. }
    destruct (existsb _ seen) eqn:E.
    + apply existsb_exists in E. destruct E as (y & Hy & Ey). apply Z.eqb_eq in Ey.
      assert (Hx : In (WikiSearchResult.pageid x) (map WikiSearchResult.pageid seen)).
      { rewrite <- Ey. apply in_map. exact Hy. }
      split; [exact Hnd|]. split.
      * intros z Hz. destruct (Hin z Hz) as [H1 H2]. split; [right; exact H1|].
        intros H. apply H2. apply Hseen. left. exact H.
      * intros z [<-|Hz]; [left; exact Hx|].
        destruct (Hall z Hz) as [H|H]; [|right; exact H].
        apply Hseen in H. destruct H as [H|H]; [left; exact H|].
        left. rewrite H. exact Hx.
    + assert (Hx : ~ In (WikiSearchResult.pageid x) (map WikiSearchResult.pageid seen)).
      { intros H. apply in_map_iff in H. destruct H as (y & Ey & Hy).
        assert (Ht : existsb (fun y0 => (WikiSearchResult.pageid y0
                                         =? WikiSearchResult.pageid x)%Z) seen = true).
        { apply existsb_exists. exists y. split; [exact Hy|]. apply Z.eqb_eq. exact Ey. }
        congruence. }
      split; [|split].
      * cbn [map]. constructor; [|exact Hnd].
        intros H. apply in_map_iff in H. destruct H as (z & Ez & Hz).
        destruct (Hin z Hz) as [_ H2]. apply H2. apply Hseen. right. exact Ez.
      * intros z [<-|Hz]; [split; [left; reflexivity | exact Hx]|].
        destruct (Hin z Hz) as [H1 H2]. split; [right; exact H1|].
        intros H. apply H2. apply Hseen. left. exact H.
      * intros z [<-|Hz]; [right; left; reflexivity|].
        destruct (Hall z Hz) as [H|H]; [|right; right; exact H].
        apply Hseen in H. destruct H as [H|H]; [left; exact H|].
        right. left. symmetry. exact H.
Qed.

Lemma firstOccurrences_nodup (seen l : list WikiSearchResult.t) :
  NoDup (map WikiSearchResult.pageid (seen ++ l)) -> firstOccurrences seen l = l.
Proof.
  revert seen. induction l as [|x l IH]; intros seen H; [reflexivity|].
  cbn [firstOccurrences].
  assert (E : existsb (fun y => (WikiSearchResult.pageid y
                                 =? WikiSearchResult.pageid x)%Z) seen = false).
  { destruct (existsb _ seen) eqn:E; [|reflexivity].
    apply existsb_exists in E. destruct E as (y & Hy & Ey). apply Z.eqb_eq in Ey.
    rewrite map_app in H. apply NoDup_remove_2 in H. exfalso. apply H.
    apply in_or_app. left. rewrite <- Ey. apply in_map. exact Hy. }
  rewrite E. f_equal. apply IH. rewrite <- app_assoc. exact H.
Qed.

(** X14: the search results kept by [checkPlagiarism] are at most 8, all
    taken from the results of the searches, and no two of them are of the
    same page; when fewer than 8 are kept, every page found by a search is
    among them; when no page was found twice, they are the first 8
    results. *)
Theorem flatResults_spec (searchResults : list (list WikiSearchResult.t)) :
  let kept := flatResults searchResults in
  length kept <= 8
  /\ incl kept (concat searchResults)
  /\ NoDup (map WikiSearchResult.pageid kept)
  /\ (length kept < 8 ->
      forall x, In x (concat searchResults) ->
                In (WikiSearchResult.pageid x) (map WikiSearchResult.pageid kept))
  /\ (NoDup (map WikiSearchResult.pageid (concat searchResults)) ->
      kept = firstn 8 (concat searchResults)).
Proof.
  intros kept. unfold kept. rewrite flatResults_firstOccurrences.
  destruct (firstOccurrences_spec [] (concat searchResults)) as (Hnd & Hin & Hall).
  cbv zeta in *.
  set (d := firstOccurrences [] (concat searchResults)) in *.
  split; [rewrite length_firstn; lia|]. split; [|split; [|split]].
  - intros x Hx. apply (Hin x).
    rewrite <- (firstn_skipn 8 d). apply in_or_app. left. exact Hx.
  - rewrite <- (firstn_skipn 8 d), map_app in Hnd.
    apply NoDup_app_remove_r in Hnd. exact Hnd.
  - intros Hlt x Hx. rewrite length_firstn in Hlt.
    rewrite firstn_all2 by lia.
    destruct (Hall x Hx) as [[]|H]. exact H.
  - intros H. unfold d. rewrite firstOccurrences_nodup; [reflexivity | exact H].
Qed.

(** X14 at three results of which two are of the same page. *)
Lemma flatResults_witness :
  let a := {| WikiSearchResult.title := str "A"; WikiSearchResult.snippet := [];
              WikiSearchResult.pageid := 7%Z |} in
  let b := {| WikiSearchResult.title := str "B"; WikiSearchResult.snippet := [];
              WikiSearchResult.pageid := 9%Z |} in
  length (flatResults [[a; b]; [a]]) < 8
  /\ In (WikiSearchResult.pageid b)
        (map WikiSearchResult.pageid (flatResults [[a; b]; [a]])).
Proof.
  intros a b. split; [vm_compute; lia|].
  apply (proj1 (proj2 (proj2 (proj2 (flatResults_spec [[a; b]; [a]]))))).
  - vm_compute. lia.
  - simpl. right. left. reflexivity.
Defined.

(** ** The comparison step of [checkPlagiarism] *)

Lemma compareArticle_Some (text : jsstring) (collected : list PlagiarismMatch.t)
  (a : WikiExtractResult) :
  compareArticle text collected (Some a)
  = if nonEmpty (extract a)
       && Qltb 10 (overallSimilarity (findAllSimilarities text (extract a)))
    then collected
         ++ map (plagiarismMatchOf a) (matches (findAllSimilarities text (extract a)))
    else collected.
Proof.
  unfold compareArticle, plagiarismMatchOf.
  destruct (extract a) as [|c rest]; [reflexivity|].
  cbn [nonEmpty andb]. reflexivity.
Qed.

Lemma retained_Some (text : jsstring) (a : WikiExtractResult) :
  retained text (Some a)
  <-> nonEmpty (extract a)
      && Qltb 10 (overallSimilarity (findAllSimilarities text (extract a))) = true.
Proof.
  cbn [retained]. rewrite andb_true_iff, Qltb_lt.
  destruct (extract a); cbn [nonEmpty]; intuition congruence.
Qed.

Lemma compareArticle_In (text : jsstring) (collected : list PlagiarismMatch.t)
  (article : option WikiExtractResult) (pm : PlagiarismMatch.t) :
  In pm (compareArticle text collected article)
  <-> In pm collected
      \/ exists a m,
           article = Some a /\ retained text article
           /\ In m (matches (findAllSimilarities text (extract a)))
           /\ pm = plagiarismMatchOf a m.
Proof.
  destruct article as [a|].
  - rewrite compareArticle_Some.
    destruct (nonEmpty (extract a)
              && Qltb 10 (overallSimilarity (findAllSimilarities text (extract a))))
      eqn:E.
    + rewrite in_app_iff, in_map_iff. split.
      * intros [H|(m & <- & Hm)]; [left; exact H|].
        right. exists a, m. split; [reflexivity|]. split; [|split].
        -- apply retained_Some. exact E.
        -- exact Hm.
        -- reflexivity.
      * intros [H|(a' & m & [= <-] & _ & Hm & ->)]; [left; exact H|].
        right. exists m. split; [reflexivity | exact Hm].
    + split; [auto|]. intros [H|(a' & m & [= <-] & Hr & _)]; [exact H|].
      apply retained_Some in Hr. congruence.
  - cbn [compareArticle]. split; [auto|]. intros [H|(a' & m & [=] & _)]. exact H.
Qed.

Lemma compareArticles_In (text : jsstring) (articleContents : list (option WikiExtractResult))
  (collected : list PlagiarismMatch.t) (pm : PlagiarismMatch.t) :
  In pm (fold_left (compareArticle text) articleContents collected)
  <-> In pm collected
      \/ exists a m,
           In (Some a) articleContents /\ retained text (Some a)
           /\ In m (matches (findAllSimilarities text (extract a)))
           /\ pm = plagiarismMatchOf a m.
Proof.
  revert collected. induction articleContents as [|art arts IH]; intros collected.
  - simpl. split; [auto|]. intros [H|(a & m & [] & _)]. exact H.
  - simpl. rewrite IH, compareArticle_In. split.
    + intros [[H|(a & m & -> & Hr & Hm & E)]|(a & m & Hin & Hr & Hm & E)].
      * left. exact H.
      * right. exists a, m. auto.
      * right. exists a, m. auto.
    + intros [H|(a & m & [->|Hin] & Hr & Hm & E)].
      * left. left. exact H.
      * left. right. exists a, m. auto.
      * right. exists a, m. auto.
Qed.

Lemma underscored_no_space (s : jsstring) : ~ In space (underscored s).
Proof.
  unfold underscored. intros H. apply in_map_iff in H.
  destruct H as (c & E & _). destruct (Ascii.eqb c space) eqn:Ec.
  - discriminate.
  - subst c. rewrite Ascii.eqb_refl in Ec. discriminate.
Qed.

Lemma returned_match_above_5 (originalText sourceText : jsstring) (m : Match) :
  In m (matches (findAllSimilarities originalText sourceText)) ->
  (5 < similarity m)%Q /\ (0 <= sourceIndex m)%Z.
Proof.
  intros Hm. unfold findAllSimilarities in Hm. cbn [matches] in Hm.
  apply In_sortDesc in Hm.
  destruct (scanTexts_runInv originalText sourceText) as [HF _].
  destruct (Forall2_In_left _ _ _ _ _ m HF Hm)
    as (r & _ & w & _ & _ & _ & _ & Hpos & _ & Hgt & _).
  split; assumption.
Qed.

Lemma compareArticles_contributions (text : jsstring)
  (articleContents : list (option WikiExtractResult))
  (collected : list PlagiarismMatch.t) :
  fold_left (compareArticle text) articleContents collected
  = collected ++ flat_map (contribution text) articleContents.
Proof.
  revert collected. induction articleContents as [|art arts IH]; intros collected.
  - simpl. rewrite app_nil_r. reflexivity.
  - cbn [fold_left flat_map]. rewrite IH. destruct art as [a|].
    + rewrite compareArticle_Some. cbn [contribution].
      destruct (nonEmpty (extract a)
                && Qltb 10 (overallSimilarity (findAllSimilarities text (extract a)))).
      * rewrite <- app_assoc. reflexivity.
      * reflexivity.
    + reflexivity.
Qed.

(** X15: the matches that [checkPlagiarism] reports are exactly the matches
    of the retained articles (loaded, with a non-empty extract, scoring
    above 10 against the text), each labelled with the title of its
    article and counted as often as it was found: the reported list is a
    permutation of the concatenation, article by article, of the
    contributions of the fetched articles, and it is that concatenation
    sorted stably, so that matches of equal similarity stay in the order
    of their articles.  The reported matches are sorted descending by
    similarity, each has a similarity above 5, and its URL is the Wikipedia
    prefix followed by the title without any space. *)
Theorem checkArticles_matches (text : jsstring)
  (articleContents : list (option WikiExtractResult)) :
  let reported := pr_matches (checkArticles text articleContents) in
  let found := flat_map (contribution text) articleContents in
  Permutation reported found
  /\ length reported = length found
  /\ reported = sortDesc PlagiarismMatch.similarity found
  /\ (forall q,
         filter (fun pm => Qeq_bool (PlagiarismMatch.similarity pm) q) reported
         = filter (fun pm => Qeq_bool (PlagiarismMatch.similarity pm) q) found)
  /\ (forall pm,
         In pm reported
         <-> exists a m,
               In (Some a) articleContents /\ retained text (Some a)
               /\ In m (matches (findAllSimilarities text (extract a)))
               /\ pm = plagiarismMatchOf a m)
  /\ sortedDesc PlagiarismMatch.similarity reported
  /\ Forall (fun pm =>
               (5 < PlagiarismMatch.similarity pm)%Q
               /\ exists u, PlagiarismMatch.sourceUrl pm
                            = Some (str "https://en.wikipedia.org/wiki/" ++ u)
                            /\ ~ In space u)
            reported.
Proof.
  intros reported found.
  assert (Heq : reported = sortDesc PlagiarismMatch.similarity found).
  { unfold reported, found, checkArticles. cbn [pr_matches].
    rewrite compareArticles_contributions. reflexivity. }
  assert (Hperm : Permutation reported found).
  { rewrite Heq. apply sortDesc_perm. }
  assert (Hiff : forall pm,
             In pm reported
             <-> exists a m,
                   In (Some a) articleContents /\ retained text (Some a)
                   /\ In m (matches (findAllSimilarities text (extract a)))
                   /\ pm = plagiarismMatchOf a m).
  { intros pm. unfold reported, checkArticles. cbn [pr_matches].
    rewrite In_sortDesc, compareArticles_In. split.
    - intros [[]|H]. exact H.
    - intros H. right. exact H. }
  split; [exact Hperm|]. split; [exact (Permutation_length Hperm)|].
  split; [exact Heq|]. split; [|split; [exact Hiff|split]].
  - intros q. rewrite Heq. apply sortDesc_stable.
  - unfold reported, checkArticles. cbn [pr_matches]. apply sortDesc_sorted.
  - apply Forall_forall. intros pm Hpm. apply Hiff in Hpm.
    destruct Hpm as (a & m & _ & _ & Hm & ->). split.
    + simpl. apply (returned_match_above_5 _ _ _ Hm).
    + exists (underscored (title a)). split; [reflexivity | apply underscored_no_space].
Qed.

Lemma substring_part (s : jsstring) (from to : nat) :
  exists pre post,
    s = pre ++ substring s from to ++ post
    /\ length (substring s from to)
       = Nat.max (Nat.min from (length s)) (Nat.min to (length s))
         - Nat.min (Nat.min from (length s)) (Nat.min to (length s)).
Proof.
  unfold substring.
  set (a := Nat.min from (length s)). set (b := Nat.min to (length s)).
  exists (firstn (Nat.min a b) s),
         (skipn (Nat.max a b - Nat.min a b) (skipn (Nat.min a b) s)).
  split.
  - rewrite firstn_skipn, firstn_skipn. reflexivity.
  - rewrite length_firstn, length_skipn. lia.
Qed.

(** X16: the source excerpt of every reported match is a contiguous part
    of the extract of its article and is at most 100 characters longer
    than the matched text. *)
Theorem checkArticles_source_excerpt (text : jsstring)
  (articleContents : list (option WikiExtractResult)) :
  Forall
    (fun pm =>
       exists a pre post,
         In (Some a) articleContents
         /\ extract a = pre ++ PlagiarismMatch.sourceText pm ++ post
         /\ length (PlagiarismMatch.sourceText pm)
            <= length (PlagiarismMatch.matchedText pm) + 100)
    (pr_matches (checkArticles text articleContents)).
Proof.
  apply Forall_forall. intros pm Hpm.
  unfold checkArticles in Hpm. cbn [pr_matches] in Hpm.
  rewrite In_sortDesc, compareArticles_In in Hpm.
  destruct Hpm as [[]|(a & m & Hin & _ & Hm & ->)].
  destruct (returned_match_above_5 _ _ _ Hm) as [_ Hpos].
  cbn [plagiarismMatchOf PlagiarismMatch.sourceText PlagiarismMatch.matchedText].
  destruct (substring_part (extract a)
              (Z.to_nat (Z.max 0 (sourceIndex m - 50)))
              (Z.to_nat (Z.min (Z.of_nat (length (extract a)))
                           (sourceIndex m + Z.of_nat (length (matchedText m)) + 50))))
    as (pre & post & E & Hlen).
  exists a, pre, post. split; [exact Hin|]. split; [exact E|]. lia.
Qed.

Lemma overall_zero_without_matches (originalText sourceText : jsstring) :
  matches (findAllSimilarities originalText sourceText) = [] ->
  (overallSimilarity (findAllSimilarities originalText sourceText) == 0)%Q.
Proof.
  intros E. unfold findAllSimilarities in *. cbn [matches overallSimilarity] in *.
  assert (Hst : st_matches (scanTexts originalText sourceText) = []).
  { pose proof (sortDesc_perm _ similarity
                  (st_matches (scanTexts originalText sourceText))) as Hp.
    unfold sortBySimilarity in E. rewrite E in Hp.
    apply Permutation_nil in Hp. exact Hp. }
  destruct (scanTexts_runInv originalText sourceText) as [HF _].
  rewrite Hst in HF. apply Forall2_length in HF.
  destruct (st_coveredRanges (scanTexts originalText sourceText)); [|discriminate].
  cbn [totalCoverage fold_left]. rewrite Q.min_l.
  - unfold Qdiv. rewrite !Qmult_0_l. reflexivity.
  - unfold Qdiv. rewrite !Qmult_0_l. discriminate.
Qed.

(** X17: [checkPlagiarism] reports no match exactly when no article is
    retained (each one failed to load, has an empty extract or scores at
    most 10 against the text); its overall similarity is then 0. *)
Theorem checkArticles_without_matches (text : jsstring)
  (articleContents : list (option WikiExtractResult)) :
  let r := checkArticles text articleContents in
  (pr_matches r = [] <-> Forall (fun article => ~ retained text article) articleContents)
  /\ (pr_matches r = [] -> pr_overallSimilarity r = Num 0).
Proof.
  intros r. split.
  - split.
    + intros E. apply Forall_forall. intros art Hart Hret.
      destruct art as [a|]; [|exact Hret].
      destruct (matches (findAllSimilarities text (extract a))) as [|m ms] eqn:Em.
      * destruct Hret as [_ Hgt].
        rewrite (overall_zero_without_matches _ _ Em) in Hgt. discriminate.
      * assert (Hin : In (plagiarismMatchOf a m) (pr_matches r)).
        { unfold r, checkArticles. cbn [pr_matches].
          rewrite In_sortDesc, compareArticles_In. right. exists a, m.
          split; [exact Hart|]. split; [exact Hret|]. split; [|reflexivity].
          rewrite Em. left. reflexivity. }
        rewrite E in Hin. destruct Hin.
    + intros Hall. destruct (pr_matches r) as [|pm pms] eqn:E; [reflexivity|].
      assert (Hin : In pm (pr_matches r)) by (rewrite E; left; reflexivity).
      unfold r, checkArticles in Hin. cbn [pr_matches] in Hin.
      rewrite In_sortDesc, compareArticles_In in Hin.
      destruct Hin as [[]|(a & m & Hart & Hret & _)].
      rewrite Forall_forall in Hall. exfalso. exact (Hall _ Hart Hret).
  - unfold r, checkArticles. cbn [pr_matches pr_overallSimilarity].
    intros E. rewrite E. reflexivity.
Qed.

(** ** The search terms *)

Lemma string_eqb_eq (a b : jsstring) : string_eqb a b = true <-> a = b.
Proof.
  revert b. induction a as [|x a IH]; intros [|y b]; simpl;
    try (split; [discriminate | discriminate]); [split; reflexivity|].
  rewrite andb_true_iff, Ascii.eqb_eq, IH. split.
  - intros [-> ->]. reflexivity.
  - intros H. injection H as -> ->. split; reflexivity.
Qed.

Lemma existsb_string_eqb (seen : list jsstring) (x : jsstring) :
  existsb (fun y => string_eqb y x) seen = true <-> In x seen.
Proof.
  rewrite existsb_exists. split.
  - intros (y & Hy & E). apply string_eqb_eq in E. subst y. exact Hy.
  - intros H. exists x. split; [exact H | apply string_eqb_eq; reflexivity].
Qed.

Lemma withoutRepeats_from (pre l : list jsstring) :
  filterIndexedFrom
    (fun s i => (Z.of_nat i =? findIndex (fun s' => string_eqb s' s) (pre ++ l))%Z)
    l (length pre)
  = firstStrings pre l.
Proof.
  revert pre. induction l as [|x r IH]; intros pre; [reflexivity|].
  cbn [filterIndexedFrom firstStrings].
  assert (Hrec : filterIndexedFrom
                   (fun s i => (Z.of_nat i
                                =? findIndex (fun s' => string_eqb s' s)
                                     (pre ++ x :: r))%Z)
                   r (S (length pre))
                 = firstStrings (pre ++ [x]) r).
  { specialize (IH (pre ++ [x])). rewrite <- app_assoc in IH.
    rewrite length_app in IH. simpl in IH.
    replace (length pre + 1) with (S (length pre)) in IH by lia. exact IH. }
  rewrite Hrec. unfold findIndex. rewrite findIndexFrom_app.
  destruct (existsb (fun s' => string_eqb s' x) pre) eqn:E.
  - pose proof (findIndexFrom_bounds _ (fun s' => string_eqb s' x) pre 0) as [H|H].
    + rewrite H. replace (Z.of_nat (length pre) =? -1)%Z with false; [reflexivity|].
      symmetry. apply Z.eqb_neq. lia.
    + replace (Z.of_nat (length pre) =? _)%Z with false; [reflexivity|].
      symmetry. apply Z.eqb_neq. simpl in H. lia.
  - simpl. assert (Ex : string_eqb x x = true) by (apply string_eqb_eq; reflexivity).
    rewrite Ex, Z.eqb_refl. reflexivity.
Qed.

Lemma firstStrings_spec (seen l : list jsstring) :
  NoDup (firstStrings seen l)
  /\ (forall x, In x (firstStrings seen l) <-> In x l /\ ~ In x seen).
Proof.
  revert seen. induction l as [|x l IH]; intros seen; cbn [firstStrings].
  - split; [constructor|]. intros x. simpl. tauto.
  - destruct (IH (seen ++ [x])) as [Hnd Hin].
    assert (Hseen : forall y, In y (seen ++ [x]) <-> In y seen \/ y = x).
    { intros y. rewrite in_app_iff. simpl. intuition. }
    destruct (existsb (fun y => string_eqb y x) seen) eqn:E.
    + apply existsb_string_eqb in E. split; [exact Hnd|].
      intros y. rewrite Hin, Hseen. simpl. split.
      * intros [H1 H2]. split; [right; exact H1 | tauto].
      * intros [[<-|H1] H2]; [contradiction|]. split; [exact H1|].
        intros [H | ->]; contradiction.
    + assert (Hx : ~ In x seen).
      { intros H. apply existsb_string_eqb in H. congruence. }
      split.
      * constructor; [|exact Hnd]. rewrite Hin, Hseen. tauto.
      * intros y. simpl. rewrite Hin, Hseen. split.
        -- intros [<-|[H1 H2]]; [split; [left; reflexivity | exact Hx]|].
           split; [right; exact H1 | tauto].
        -- intros [[<-|H1] H2]; [left; reflexivity|].
           destruct (list_eq_dec ascii_dec x y) as [->|Hne]; [left; reflexivity|].
           right. split; [exact H1|]. intros [H | ->]; [contradiction | congruence].
Qed.

Lemma withoutRepeats_spec (arr : list jsstring) :
  NoDup (withoutRepeats arr)
  /\ (forall x, In x (withoutRepeats arr) <-> In x arr)
  /\ length (withoutRepeats arr) <= length arr
  /\ hd_error (withoutRepeats arr) = hd_error arr.
Proof.
  assert (E : withoutRepeats arr = firstStrings [] arr)
    by exact (withoutRepeats_from [] arr).
  rewrite E.
  destruct (firstStrings_spec [] arr) as [Hnd Hin].
  split; [exact Hnd|]. split; [|split].
  - intros x. rewrite Hin. simpl. tauto.
  - assert (H : forall seen l, length (firstStrings seen l) <= length l).
    { intros seen l. revert seen. induction l as [|y l IH]; intros seen; simpl; [lia|].
      destruct (existsb _ seen); simpl; specialize (IH (seen ++ [y])); lia. }
    apply H.
  - destruct arr; reflexivity.
Qed.

Lemma splitRuns_free (p : ascii -> bool) (inRun : bool) (s : jsstring) :
  Forall (Forall (fun c => p c = false)) (splitRuns p inRun s).
Proof.
  revert inRun. induction s as [|c r IH]; intros inRun; simpl.
  - repeat constructor.
  - destruct (p c) eqn:Ec.
    + destruct inRun; [apply IH|]. constructor; [constructor | apply IH].
    + specialize (IH false). destruct (splitRuns p false r) as [|w ws].
      * repeat constructor. exact Ec.
      * inversion IH; subst. constructor; [constructor|]; assumption.
Qed.

Lemma trimStart_incl (s : jsstring) (c : ascii) : In c (trimStart s) -> In c s.
Proof.
  induction s as [|x s IH]; simpl; [tauto|].
  destruct (isSpaceChar x); [intros H; right; exact (IH H) | simpl; tauto].
Qed.

Lemma trimEnd_incl (s : jsstring) (c : ascii) : In c (trimEnd s) -> In c s.
Proof.
  induction s as [|x s IH]; simpl; [tauto|].
  destruct (trimEnd s) as [|y r].
  - destruct (isSpaceChar x); simpl; tauto.
  - intros [H|H]; [left; exact H | right; exact (IH H)].
Qed.

Lemma trim_incl (s : jsstring) (c : ascii) : In c (trim s) -> In c s.
Proof. intros H. apply trimStart_incl, trimEnd_incl. exact H. Qed.

Lemma trimStart_head (s : jsstring) :
  match trimStart s with
  | [] => True
  | c :: _ => isSpaceChar c = false
  end.
Proof.
  induction s as [|x s IH]; simpl; [exact I|].
  destruct (isSpaceChar x) eqn:E; [exact IH | exact E].
Qed.

Lemma trimEnd_last (s : jsstring) (d : ascii) :
  trimEnd s <> [] -> isSpaceChar (last (trimEnd s) d) = false.
Proof.
  induction s as [|x s IH]; simpl; [congruence|].
  destruct (trimEnd s) as [|y r] eqn:E.
  - destruct (isSpaceChar x) eqn:Ex; [congruence|]. intros _. exact Ex.
  - intros _. change (last (x :: y :: r) d) with (last (y :: r) d).
    apply IH. discriminate.
Qed.

Lemma trimEnd_head (c : ascii) (r : jsstring) :
  isSpaceChar c = false -> exists r', trimEnd (c :: r) = c :: r'.
Proof.
  intros H. simpl. destruct (trimEnd r) as [|y r'].
  - rewrite H. exists []. reflexivity.
  - exists (y :: r'). reflexivity.
Qed.

Lemma trim_trimmed (s : jsstring) : trimmed (trim s).
Proof.
  unfold trim. pose proof (trimStart_head s) as H.
  destruct (trimStart s) as [|c r]; [exact I|].
  destruct (trimEnd_head c r H) as [r' E].
  pose proof (trimEnd_last (c :: r) c) as Hl. rewrite E in *.
  split; [exact H | apply Hl; discriminate].
Qed.

Lemma split_length_spaces (s : jsstring) :
  length (split s) = S (count_occ ascii_dec s space).
Proof.
  induction s as [|c r IH]; [reflexivity|].
  simpl. destruct (Ascii.eqb c space) eqn:E.
  - apply Ascii.eqb_eq in E. subst c.
    destruct (ascii_dec space space); [|congruence]. simpl. rewrite IH. reflexivity.
  - apply Ascii.eqb_neq in E.
    destruct (ascii_dec c space); [congruence|].
    rewrite <- IH. pose proof (split_not_nil r).
    destruct (split r); [congruence | reflexivity].
Qed.

Lemma searchSentences_spec (text t : jsstring) :
  In t (searchSentences text) ->
  trimmed t
  /\ Forall (fun c => isSentenceEnd c = false) t
  /\ 15 < length t
  /\ 5 <= count_occ ascii_dec t space.
Proof.
  unfold searchSentences. rewrite filter_In, in_map_iff.
  intros [(piece & <- & Hp) Hs]. unfold isSearchSentence in Hs.
  apply andb_true_iff in Hs. destruct Hs as [H15 H5].
  apply Nat.ltb_lt in H15. apply Nat.ltb_lt in H5.
  rewrite split_length_spaces in H5.
  split; [apply trim_trimmed|]. split; [|split; [exact H15 | lia]].
  apply Forall_forall. intros c Hc. apply trim_incl in Hc.
  pose proof (splitRuns_free isSentenceEnd false text) as Hf.
  rewrite Forall_forall in Hf. specialize (Hf piece Hp).
  rewrite Forall_forall in Hf. exact (Hf c Hc).
Qed.

(** X18: [extractSearchTerms] returns between 1 and 5 search terms.  When
    the text has a sentence that qualifies (more than 15 characters and
    more than 5 space-separated pieces after trimming), every term is such
    a sentence: it has no leading or trailing whitespace, none of the
    characters [. ! ?], more than 15 characters and at least 5 spaces; and
    the first term is the first qualifying sentence. *)
Theorem extractSearchTerms_sentences (text : jsstring) :
  let terms := extractSearchTerms text in
  1 <= length terms <= 5
  /\ (searchSentences text <> [] ->
      hd_error terms = hd_error (searchSentences text)
      /\ Forall (fun t => In t (searchSentences text)
                          /\ trimmed t
                          /\ Forall (fun c => isSentenceEnd c = false) t
                          /\ 15 < length t
                          /\ 5 <= count_occ ascii_dec t space)
                terms).
Proof.
  intros terms. unfold terms, extractSearchTerms.
  set (sentences := searchSentences text).
  destruct (5 <? length sentences) eqn:E5.
  - apply Nat.ltb_lt in E5.
    set (sampled := [nth 0 sentences []; nth (length sentences / 4) sentences [];
                     nth (length sentences / 2) sentences [];
                     nth (length sentences * 3 / 4) sentences [];
                     nth (length sentences - 1) sentences []]).
    destruct (withoutRepeats_spec sampled) as (_ & Hin & Hlen & Hhd).
    split.
    + split; [|exact Hlen].
      destruct (withoutRepeats sampled); [discriminate Hhd | simpl; lia].
    + intros _. split.
      * rewrite Hhd. destruct sentences; [simpl in E5; lia | reflexivity].
      * apply Forall_forall. intros t Ht. apply Hin in Ht.
        assert (Hs : In t sentences).
        { assert (H4 : length sentences / 4 < length sentences)
            by (apply Nat.Div0.div_lt_upper_bound; lia).
          assert (H2 : length sentences / 2 < length sentences)
            by (apply Nat.Div0.div_lt_upper_bound; lia).
          assert (H3 : length sentences * 3 / 4 < length sentences)
            by (apply Nat.Div0.div_lt_upper_bound; lia).
          destruct Ht as [<-|[<-|[<-|[<-|[<-|[]]]]]]; apply nth_In; lia. }
        split; [exact Hs | apply (searchSentences_spec text t Hs)].
  - apply Nat.ltb_ge in E5. destruct (0 <? length sentences) eqn:E0.
    + apply Nat.ltb_lt in E0. split; [lia|]. intros _. split; [reflexivity|].
      apply Forall_forall. intros t Ht.
      split; [exact Ht | apply (searchSentences_spec text t Ht)].
    + apply Nat.ltb_ge in E0.
      assert (Hnil : sentences = []) by (destruct sentences; [reflexivity | simpl in E0; lia]).
      split; [destruct (200 <? length text); simpl; lia|].
      intros H. congruence.
Qed.

(** X18 at a text of two sentences of which one qualifies. *)
Lemma extractSearchTerms_sentences_witness :
  let text := str "The quick brown fox jumps over the lazy dog. Too short." in
  searchSentences text <> []
  /\ hd_error (extractSearchTerms text) = hd_error (searchSentences text).
Proof.
  intros text. split; [vm_compute; discriminate|].
  apply (proj2 (extractSearchTerms_sentences text)).
  vm_compute. discriminate.
Defined.

(** X19: when the text has more than 5 qualifying sentences, the search
    terms are pairwise different and are exactly the values sampled at the
    first, quarter, half, three-quarter and last position of the list of
    qualifying sentences. *)
Theorem extractSearchTerms_sampled (text : jsstring) :
  let sentences := searchSentences text in
  let n := length sentences in
  5 < n ->
  NoDup (extractSearchTerms text)
  /\ forall t,
       In t (extractSearchTerms text)
       <-> In t [nth 0 sentences []; nth (n / 4) sentences [];
                 nth (n / 2) sentences []; nth (n * 3 / 4) sentences [];
                 nth (n - 1) sentences []].
Proof.
  intros sentences n Hn. unfold extractSearchTerms. fold sentences. fold n.
  replace (5 <? n) with true by (symmetry; apply Nat.ltb_lt; exact Hn).
  destruct (withoutRepeats_spec
              [nth 0 sentences []; nth (n / 4) sentences [];
               nth (n / 2) sentences []; nth (n * 3 / 4) sentences [];
               nth (n - 1) sentences []]) as (Hnd & Hin & _).
  split; [exact Hnd | exact Hin].
Qed.

(** X20: when no sentence qualifies, a text of more than 200 characters
    gives three chunks of exactly 100 characters: its first 100
    characters, the 100 characters from offset [length / 2 - 50] on, and
    its last 100 characters; a text of at most 200 characters is its own
    and only search term. *)
Theorem extractSearchTerms_chunks (text : jsstring) :
  searchSentences text = [] ->
  (length text <= 200 -> extractSearchTerms text = [text])
  /\ (200 < length text ->
      exists c1 c2 c3 rest1 pre2 rest2 pre3,
        extractSearchTerms text = [c1; c2; c3]
        /\ length c1 = 100 /\ length c2 = 100 /\ length c3 = 100
        /\ text = c1 ++ rest1
        /\ text = pre2 ++ c2 ++ rest2 /\ length pre2 = length text / 2 - 50
        /\ text = pre3 ++ c3).
Proof.
  intros Hs. unfold extractSearchTerms. rewrite Hs.
  change (5 <? length (@nil jsstring)) with false.
  change (0 <? length (@nil jsstring)) with false. cbv iota zeta.
  split.
  - intros H. replace (200 <? length text) with false; [reflexivity|].
    symmetry. apply Nat.ltb_ge. exact H.
  - intros H. replace (200 <? length text) with true
      by (symmetry; apply Nat.ltb_lt; exact H).
    assert (Hhalf : length text / 2 <= length text)
      by (apply Nat.Div0.div_le_upper_bound; lia).
    assert (Hhalf2 : 100 < length text / 2 \/ 100 = length text / 2).
    { assert (100 <= length text / 2) by (apply Nat.div_le_lower_bound; lia). lia. }
    assert (Hhalf3 : length text / 2 + 50 <= length text).
    { assert (2 * (length text / 2) <= length text)
        by (apply Nat.Div0.mul_div_le). lia. }
    unfold substring.
    replace (Nat.min 0 (length text)) with 0 by lia.
    replace (Nat.min 100 (length text)) with 100 by lia.
    replace (Nat.min (length text / 2 - 50) (length text))
      with (length text / 2 - 50) by lia.
    replace (Nat.min (length text / 2 + 50) (length text))
      with (length text / 2 + 50) by lia.
    replace (Nat.min (length text - 100) (length text)) with (length text - 100) by lia.
    replace (Nat.min (length text) (length text)) with (length text) by lia.
    replace (Nat.max 0 100 - Nat.min 0 100) with 100 by lia.
    replace (Nat.min 0 100) with 0 by lia.
    replace (Nat.max (length text / 2 - 50) (length text / 2 + 50)
             - Nat.min (length text / 2 - 50) (length text / 2 + 50)) with 100 by lia.
    replace (Nat.min (length text / 2 - 50) (length text / 2 + 50))
      with (length text / 2 - 50) by lia.
    replace (Nat.max (length text - 100) (length text)
             - Nat.min (length text - 100) (length text)) with 100 by lia.
    replace (Nat.min (length text - 100) (length text)) with (length text - 100) by lia.
    cbn [skipn].
    eexists _, _, _, (skipn 100 text), (firstn (length text / 2 - 50) text),
            (skipn 100 (skipn (length text / 2 - 50) text)),
            (firstn (length text - 100) text).
    split; [reflexivity|].
    split; [rewrite length_firstn; lia|].
    split; [rewrite length_firstn, length_skipn; lia|].
    split; [rewrite length_firstn, length_skipn; lia|].
    split; [symmetry; apply firstn_skipn|].
    split; [rewrite firstn_skipn, firstn_skipn; reflexivity|].
    split; [rewrite length_firstn; lia|].
    rewrite (firstn_all2 (skipn (length text - 100) text) (n := 100))
      by (rewrite length_skipn; lia).
    symmetry. apply firstn_skipn.
Qed.

(** X20 at a text of 201 characters without blanks. *)
Lemma extractSearchTerms_chunks_witness :
  length (extractSearchTerms (repeat "a"%char 201)) = 3.
Proof.
  destruct (proj2 (extractSearchTerms_chunks (repeat "a"%char 201) eq_refl))
    as (c1 & c2 & c3 & r1 & p2 & r2 & p3 & E & _).
  - vm_compute. lia.
  - rewrite E. reflexivity.
Defined.

(** X19 at a text of six qualifying sentences. *)
Lemma extractSearchTerms_sampled_witness :
  5 < length (searchSentences sixSentences)
  /\ NoDup (extractSearchTerms sixSentences).
Proof.
  assert (H : 5 < length (searchSentences sixSentences)) by (vm_compute; lia).
  split; [exact H|].
  apply (proj1 (extractSearchTerms_sampled sixSentences H)).
Defined.

(** ** The risk badge *)

Lemma checkArticles_bounds (text : jsstring)
  (articleContents : list (option WikiExtractResult)) :
  Forall (fun m => (0 <= PlagiarismMatch.similarity m <= 100)%Q)
         (pr_matches (checkArticles text articleContents)).
Proof.
  simpl. apply Forall_forall. intros m Hm. apply In_sortDesc in Hm.
  revert m Hm. apply Forall_forall.
  apply fold_left_invariant; [constructor|].
  intros acc a _ Hacc. apply compareArticle_bounds. exact Hacc.
Qed.

Lemma lessThan_numLe (x : number) (b k : R) :
  numLe x (Num b) -> (b < k)%R -> lessThan x k = true.
Proof.
  destruct x as [|a]; simpl; [tauto|]. intros H1 H2.
  destruct (Rlt_dec a k); [reflexivity | lra].
Qed.

(** X21: the colour of a badge follows its severity level: green for Low,
    yellow for Moderate, red for High.  The overall badge computed from a
    result of [checkPlagiarism] is Low when at most 2 matches are
    reported, and is High only when at least 5 matches are reported. *)
Theorem badge_of_overall_similarity :
  (forall x,
      (getSeverityLevel x = str "Low"
       <-> getSimilarityColor x = str "bg-green-100 text-green-800")
      /\ (getSeverityLevel x = str "Moderate"
          <-> getSimilarityColor x = str "bg-yellow-100 text-yellow-800")
      /\ (getSeverityLevel x = str "High"
          <-> getSimilarityColor x = str "bg-red-100 text-red-800"))
  /\ (forall text articleContents,
         let r := checkArticles text articleContents in
         (length (pr_matches r) <= 2 ->
          getSeverityLevel (pr_overallSimilarity r) = str "Low")
         /\ (getSeverityLevel (pr_overallSimilarity r) = str "High" ->
             5 <= length (pr_matches r))).
Proof.
  split.
  - intros x. unfold getSeverityLevel, getSimilarityColor.
    destruct (lessThan x 20); [|destruct (lessThan x 40)];
      repeat split; intros H; try reflexivity; discriminate H.
  - intros text articleContents r.
    pose proof (calculateOverallSimilarity_le_8n _
                  (checkArticles_bounds text articleContents)) as Hle.
    change (calculateOverallSimilarity (pr_matches (checkArticles text articleContents)))
      with (pr_overallSimilarity r) in Hle.
    fold r in Hle. split.
    + intros Hn. unfold getSeverityLevel.
      rewrite (lessThan_numLe _ _ 20 Hle); [reflexivity|].
      apply le_INR in Hn. replace (INR 2) with 2%R in Hn by (simpl; lra). lra.
    + intros Hhigh. destruct (le_lt_dec 5 (length (pr_matches r))) as [H|H]; [exact H|].
      exfalso. unfold getSeverityLevel in Hhigh.
      assert (H40 : lessThan (pr_overallSimilarity r) 40 = true).
      { apply (lessThan_numLe _ _ 40 Hle).
        assert (Hn : length (pr_matches r) <= 4) by lia.
        apply le_INR in Hn. replace (INR 4) with 4%R in Hn by (simpl; lra). lra. }
      rewrite H40 in Hhigh.
      destruct (lessThan (pr_overallSimilarity r) 20); discriminate Hhigh.
Qed.

Lemma lessThan_ge (a k : R) : (k <= a)%R -> lessThan (Num a) k = false.
Proof.
  intros H. unfold lessThan. destruct (Rlt_dec a k); [lra | reflexivity].
Qed.

(** Six articles that repeat the text give six matches of similarity 100
    and the overall similarity [min(sqrt(600 * 5) * 0.8, 100)], which is not
    below 40. *)
Lemma foxArticles_high :
  getSeverityLevel (pr_overallSimilarity (checkArticles foxText foxArticles))
  = str "High".
Proof.
  unfold checkArticles. cbn [pr_overallSimilarity].
  set (ms := sortDesc PlagiarismMatch.similarity
               (fold_left (compareArticle foxText) foxArticles [])).
  assert (Ht : Q2R (totalSimilarity ms) = Q2R 600).
  { apply Qeq_eqR. vm_compute. reflexivity. }
  assert (Hl : length ms = 6) by (vm_compute; reflexivity).
  clearbody ms. destruct ms as [|m ms]; [discriminate Hl|].
  unfold calculateOverallSimilarity. rewrite Ht, Hl.
  replace (Q2R 600 * INR (Nat.min 6 5))%R with 3000%R
    by (unfold Q2R; simpl; lra).
  rewrite Math_sqrt_nonneg by lra. cbn [times Math_min].
  assert (H50 : (50 <= sqrt 3000)%R).
  { rewrite <- (sqrt_square 50) by lra. apply sqrt_le_1_alt. lra. }
  assert (H40 : (40 <= Rmin (sqrt 3000 * (8 / 10)) 100)%R).
  { apply Rmin_glb; lra. }
  unfold getSeverityLevel.
  rewrite (lessThan_ge _ 20) by lra. rewrite (lessThan_ge _ 40) by lra.
  reflexivity.
Qed.

(** X21 at one article that repeats the text, where one match is reported
    and the badge is Low, and at six such articles, where the badge is High
    and six matches are reported. *)
Lemma badge_of_overall_similarity_witness :
  (length (pr_matches (checkArticles foxText [Some (foxArticle (str "Fox") 1)])) = 1
   /\ getSeverityLevel
        (pr_overallSimilarity (checkArticles foxText [Some (foxArticle (str "Fox") 1)]))
      = str "Low")
  /\ (getSeverityLevel (pr_overallSimilarity (checkArticles foxText foxArticles))
      = str "High"
      /\ 5 <= length (pr_matches (checkArticles foxText foxArticles))).
Proof.
  assert (H1 : length (pr_matches
                         (checkArticles foxText [Some (foxArticle (str "Fox") 1)])) = 1)
    by (vm_compute; reflexivity).
  split; split.
  - exact H1.
  - apply (proj1 (proj2 badge_of_overall_similarity foxText
                    [Some (foxArticle (str "Fox") 1)])).
    rewrite H1. lia.
  - exact foxArticles_high.
  - apply (proj2 (proj2 badge_of_overall_similarity foxText foxArticles)).
    exact foxArticles_high.
Defined.

(** X17 at a single article that failed to load. *)
Lemma checkArticles_without_matches_witness :
  pr_overallSimilarity (checkArticles (str "some text") [None]) = Num 0.
Proof.
  apply (proj2 (checkArticles_without_matches (str "some text") [None])).
  reflexivity.
Defined.

(** ** The highlighter: escaping and searching *)

Lemma escapeRegExp_literal (s : jsstring) :
  Highlighter.literalOfPattern (Highlighter.escapeRegExp s) = Some s.
Proof.
  induction s as [|c s IH]; [reflexivity|].
  unfold Highlighter.escapeRegExp in *. cbn [flat_map].
  destruct (Highlighter.isSpecial c) eqn:E.
  - cbn [app Highlighter.literalOfPattern].
    rewrite Ascii.eqb_refl, E, IH. reflexivity.
  - cbn [app Highlighter.literalOfPattern].
    destruct (Ascii.eqb c Highlighter.backslash) eqn:Eb.
    + apply Ascii.eqb_eq in Eb. subst c. discriminate E.
    + rewrite E, IH. reflexivity.
Qed.

Lemma startsWithIgnoringCase_spec (literal s : jsstring) :
  Highlighter.startsWithIgnoringCase literal s = true ->
  length literal <= length s
  /\ toLowerCase (firstn (length literal) s) = toLowerCase literal.
Proof.
  revert s. induction literal as [|p literal IH]; intros s H.
  - split; [simpl; lia | reflexivity].
  - destruct s as [|c s]; [discriminate|]. simpl in H.
    apply andb_true_iff in H. destruct H as [Hc H].
    destruct (IH s H) as [Hlen Heq]. split; [simpl; lia|].
    unfold Highlighter.sameLetter in Hc. apply Ascii.eqb_eq in Hc.
    unfold toLowerCase in *. cbn [length firstn map]. rewrite Heq, Hc. reflexivity.
Qed.

Lemma searchIgnoringCase_spec (literal s : jsstring) (k j : nat) :
  Highlighter.searchIgnoringCase literal s k = Some j ->
  exists d, j = k + d /\ d <= length s
            /\ Highlighter.startsWithIgnoringCase literal (skipn d s) = true.
Proof.
  revert k. induction s as [|c s IH]; intros k; simpl.
  - destruct (Highlighter.startsWithIgnoringCase literal []) eqn:E; [|discriminate].
    intros [= <-]. exists 0. simpl. repeat split; try lia. exact E.
  - destruct (Highlighter.startsWithIgnoringCase literal (c :: s)) eqn:E.
    + intros [= <-]. exists 0. simpl. repeat split; try lia. exact E.
    + intros H. destruct (IH _ H) as (d & -> & Hd & Hs).
      exists (S d). simpl. repeat split; try lia. exact Hs.
Qed.

Lemma substring_firstn_skipn (s : jsstring) (a b : nat) :
  a <= b -> b <= length s -> substring s a b = firstn (b - a) (skipn a s).
Proof.
  intros H1 H2. unfold substring.
  replace (Nat.min a (length s)) with a by lia.
  replace (Nat.min b (length s)) with b by lia.
  replace (Nat.max a b) with b by lia.
  replace (Nat.min a b) with a by lia. reflexivity.
Qed.

Lemma firstn_substring (s : jsstring) (a b : nat) :
  a <= b -> b <= length s -> firstn a s ++ substring s a b = firstn b s.
Proof.
  intros H1 H2. rewrite substring_firstn_skipn by assumption.
  replace b with (a + (b - a)) at 2 by lia.
  rewrite <- (firstn_skipn a s) at 3.
  rewrite firstn_app, length_firstn.
  replace (Nat.min a (length s)) with a by lia.
  replace (a + (b - a) - a) with (b - a) by lia.
  rewrite firstn_all2 with (n := a + (b - a)) by (rewrite length_firstn; lia).
  reflexivity.
Qed.

(** A match found by [exec] lies at or after [lastIndex], inside the text,
    and equals the literal up to case. *)
Lemma exec_spec (literal s : jsstring) (lastIndex j : nat) :
  Highlighter.exec literal s lastIndex = Some j ->
  lastIndex <= j /\ j + length literal <= length s
  /\ toLowerCase (substring s j (j + length literal)) = toLowerCase literal.
Proof.
  unfold Highlighter.exec. destruct (length s <? lastIndex) eqn:E; [discriminate|].
  apply Nat.ltb_ge in E. intros H.
  destruct (searchIgnoringCase_spec _ _ _ _ H) as (d & -> & Hd & Hs).
  rewrite length_skipn in Hd.
  apply startsWithIgnoringCase_spec in Hs. destruct Hs as [Hlen Heq].
  rewrite skipn_skipn in Hlen, Heq. rewrite length_skipn in Hlen.
  split; [lia|]. split; [lia|].
  rewrite substring_firstn_skipn by lia.
  replace (lastIndex + d + length literal - (lastIndex + d)) with (length literal) by lia.
  replace (lastIndex + d) with (d + lastIndex) by lia. exact Heq.
Qed.

(** ** The highlighter: the ranges kept *)

Lemma pairwise_snoc (P : Highlighter.Range -> Highlighter.Range -> Prop)
  (l : list Highlighter.Range) (x : Highlighter.Range) :
  Highlighter.pairwise P l -> Forall (fun y => P y x) l ->
  Highlighter.pairwise P (l ++ [x]).
Proof.
  induction l as [|y l IH]; intros Hl Hx; simpl.
  - split; [constructor | exact I].
  - destruct Hl as [Hy Hl]. inversion Hx as [|? ? Hyx Hlx]; subst. split.
    + apply Forall_app. split; [exact Hy | constructor; [exact Hyx | constructor]].
    + apply IH; assumption.
Qed.

Lemma overlapping_false (ranges : list Highlighter.Range) (s e : nat) :
  Highlighter.overlapping ranges s e = false ->
  Forall (fun r => Highlighter.disjoint r {| Highlighter.start := s; Highlighter.end_ := e |})
         ranges.
Proof.
  intros H. apply Forall_forall. intros r Hr. unfold Highlighter.overlapping in H.
  destruct (((Highlighter.start r <=? s) && (s <? Highlighter.end_ r))
            || ((Highlighter.start r <? e) && (e <=? Highlighter.end_ r))
            || ((s <=? Highlighter.start r) && (Highlighter.end_ r <=? e))) eqn:E.
  - assert (Ht : existsb
                   (fun range =>
                      ((Highlighter.start range <=? s) && (s <? Highlighter.end_ range))
                      || ((Highlighter.start range <? e) && (e <=? Highlighter.end_ range))
                      || ((s <=? Highlighter.start range) && (Highlighter.end_ range <=? e)))
                   ranges = true).
    { apply existsb_exists. exists r. split; assumption. }
    congruence.
  - apply orb_false_iff in E. destruct E as [E E3].
    apply orb_false_iff in E. destruct E as [E1 E2].
    apply andb_false_iff in E1. apply andb_false_iff in E2. apply andb_false_iff in E3.
    rewrite Nat.leb_gt, Nat.ltb_ge in E1. rewrite Nat.ltb_ge, Nat.leb_gt in E2.
    rewrite !Nat.leb_gt in E3.
    unfold Highlighter.disjoint. simpl. lia.
Qed.

Section Ranges.

Variable result : jsstring.
Variable matches : list PlagiarismMatch.t.

Let keptInv (ranges : list Highlighter.Range) : Prop :=
  Forall (Highlighter.wellFormed result matches) ranges
  /\ Highlighter.pairwise Highlighter.disjoint ranges.

Lemma execLoop_inv (fuel : nat) (m : PlagiarismMatch.t) (lastIndex : nat)
  (ranges : list Highlighter.Range) :
  In m matches -> PlagiarismMatch.matchedText m <> [] ->
  keptInv ranges ->
  keptInv (Highlighter.execLoop fuel (PlagiarismMatch.matchedText m) result
             (length (PlagiarismMatch.matchedText m)) lastIndex ranges).
Proof.
  intros Hm Hne. revert lastIndex ranges.
  induction fuel as [|fuel IH]; intros lastIndex ranges Hinv; [exact Hinv|].
  cbn [Highlighter.execLoop].
  destruct (Highlighter.exec (PlagiarismMatch.matchedText m) result lastIndex)
    as [j|] eqn:E; [|exact Hinv].
  apply IH.
  destruct (Highlighter.overlapping ranges j
              (j + length (PlagiarismMatch.matchedText m))) eqn:Eo; [exact Hinv|].
  destruct Hinv as [Hwf Hdis].
  destruct (exec_spec _ _ _ _ E) as (H1 & H2 & H3).
  assert (0 < length (PlagiarismMatch.matchedText m))
    by (destruct (PlagiarismMatch.matchedText m); [congruence | simpl; lia]).
  split.
  - apply Forall_app. split; [exact Hwf|]. constructor; [|constructor].
    unfold Highlighter.wellFormed. simpl. split; [lia|]. split; [exact H2|].
    exists m. split; [exact Hm | exact H3].
  - apply pairwise_snoc; [exact Hdis|]. apply overlapping_false. exact Eo.
Qed.

Lemma markMatch_inv (m : PlagiarismMatch.t) (ranges : list Highlighter.Range) :
  In m matches -> PlagiarismMatch.matchedText m <> [] ->
  keptInv ranges -> keptInv (Highlighter.markMatch result ranges m).
Proof.
  intros Hm Hne Hinv. unfold Highlighter.markMatch.
  rewrite escapeRegExp_literal. apply execLoop_inv; assumption.
Qed.

Lemma markMatches_inv (ms : list PlagiarismMatch.t) (ranges : list Highlighter.Range) :
  (forall m, In m ms -> In m matches /\ PlagiarismMatch.matchedText m <> []) ->
  keptInv ranges -> keptInv (fold_left (Highlighter.markMatch result) ms ranges).
Proof.
  intros Hms Hinv. apply fold_left_invariant; [exact Hinv|].
  intros acc m Hm Hacc. destruct (Hms m Hm). apply markMatch_inv; assumption.
Qed.

End Ranges.

(** ** The highlighter: sorting and rendering *)

Lemma In_insertByStart (x y : Highlighter.Range) (l : list Highlighter.Range) :
  In y (Highlighter.insertByStart x l) <-> y = x \/ In y l.
Proof.
  induction l as [|z l IH]; simpl.
  - intuition congruence.
  - destruct (Highlighter.start z <=? Highlighter.start x); simpl;
      [rewrite IH|]; intuition congruence.
Qed.

Lemma In_sortByStart (y : Highlighter.Range) (l : list Highlighter.Range) :
  In y (Highlighter.sortByStart l) <-> In y l.
Proof.
  induction l as [|x l IH]; simpl; [tauto|].
  rewrite In_insertByStart, IH. intuition congruence.
Qed.

(** [a] ends before [b] starts. *)
Lemma insertByStart_before (x : Highlighter.Range) (l : list Highlighter.Range) :
  Highlighter.start x < Highlighter.end_ x ->
  Forall (fun y => Highlighter.start y < Highlighter.end_ y) l ->
  Forall (fun y => Highlighter.disjoint x y) l ->
  Highlighter.pairwise (fun a b => Highlighter.end_ a <= Highlighter.start b) l ->
  Highlighter.pairwise (fun a b => Highlighter.end_ a <= Highlighter.start b)
    (Highlighter.insertByStart x l).
Proof.
  intros Hx. induction l as [|y l IH]; intros Hne Hdis Hord; simpl.
  - split; [constructor | exact I].
  - inversion Hne as [|? ? Hy Hnel]; subst.
    inversion Hdis as [|? ? Hxy Hdisl]; subst.
    destruct Hord as [Hyl Hord]. unfold Highlighter.disjoint in Hxy.
    destruct (Highlighter.start y <=? Highlighter.start x) eqn:E.
    + apply Nat.leb_le in E. simpl. split; [|apply IH; assumption].
      apply Forall_forall. intros z Hz. apply In_insertByStart in Hz.
      destruct Hz as [->|Hz]; [lia|].
      rewrite Forall_forall in Hyl. exact (Hyl z Hz).
    + apply Nat.leb_gt in E. simpl. split; [|split; assumption].
      constructor; [lia|].
      apply Forall_forall. intros z Hz.
      rewrite Forall_forall in Hyl, Hnel, Hdisl.
      specialize (Hyl z Hz). specialize (Hnel z Hz). specialize (Hdisl z Hz).
      unfold Highlighter.disjoint in Hdisl. lia.
Qed.

Lemma sortByStart_before (l : list Highlighter.Range) :
  Forall (fun y => Highlighter.start y < Highlighter.end_ y) l ->
  Highlighter.pairwise Highlighter.disjoint l ->
  Highlighter.pairwise (fun a b => Highlighter.end_ a <= Highlighter.start b)
    (Highlighter.sortByStart l).
Proof.
  induction l as [|x l IH]; intros Hne Hdis; simpl; [exact I|].
  inversion Hne as [|? ? Hx Hnel]; subst. destruct Hdis as [Hxl Hdis].
  apply insertByStart_before.
  - exact Hx.
  - apply Forall_forall. intros y Hy. apply (proj1 (In_sortByStart y l)) in Hy.
    rewrite Forall_forall in Hnel. exact (Hnel y Hy).
  - apply Forall_forall. intros y Hy. apply (proj1 (In_sortByStart y l)) in Hy.
    rewrite Forall_forall in Hxl. exact (Hxl y Hy).
  - apply IH; assumption.
Qed.

Lemma textOf_app (a b : list Highlighter.Part) :
  Highlighter.textOf (a ++ b) = Highlighter.textOf a ++ Highlighter.textOf b.
Proof. unfold Highlighter.textOf. rewrite map_app, concat_app. reflexivity. Qed.

Lemma pushRanges_text (result : jsstring) (ranges : list Highlighter.Range)
  (parts : list Highlighter.Part) (lastPos : nat) :
  Highlighter.pairwise (fun a b => Highlighter.end_ a <= Highlighter.start b) ranges ->
  Forall (fun r => Highlighter.start r < Highlighter.end_ r
                   /\ Highlighter.end_ r <= length result) ranges ->
  Forall (fun r => lastPos <= Highlighter.start r) ranges ->
  lastPos <= length result ->
  Highlighter.textOf parts = firstn lastPos result ->
  let st := fold_left (Highlighter.pushRange result) ranges (parts, lastPos) in
  Highlighter.textOf (fst st) = firstn (snd st) result
  /\ snd st <= length result
  /\ forall p, In p (fst st) -> Highlighter.highlighted p = true ->
       In p parts
       \/ exists r, In r ranges
                    /\ Highlighter.text p
                       = substring result (Highlighter.start r) (Highlighter.end_ r).
Proof.
  revert parts lastPos. induction ranges as [|r ranges IH];
    intros parts lastPos Hord Hwf Hlast Hlen Htext.
  - simpl. split; [exact Htext|]. split; [exact Hlen|]. intros p Hp _. left. exact Hp.
  - destruct Hord as [Hr Hord]. inversion Hwf as [|? ? [Hr1 Hr2] Hwfl]; subst.
    inversion Hlast as [|? ? Hl1 _]; subst.
    cbn [fold_left]. unfold Highlighter.pushRange at 2.
    set (withText := if lastPos <? Highlighter.start r
                     then parts ++ [ {| Highlighter.highlighted := false;
                                        Highlighter.text :=
                                          substring result lastPos (Highlighter.start r) |} ]
                     else parts).
    assert (Hw : Highlighter.textOf withText = firstn (Highlighter.start r) result).
    { unfold withText. destruct (lastPos <? Highlighter.start r) eqn:E.
      - rewrite textOf_app, Htext. unfold Highlighter.textOf at 1. simpl.
        rewrite app_nil_r. apply firstn_substring; lia.
      - apply Nat.ltb_ge in E. replace (Highlighter.start r) with lastPos by lia.
        exact Htext. }
    specialize (IH (withText ++ [ {| Highlighter.highlighted := true;
                                     Highlighter.text :=
                                       substring result (Highlighter.start r)
                                                 (Highlighter.end_ r) |} ])
                   (Highlighter.end_ r) Hord Hwfl).
    destruct IH as (H1 & H2 & H3).
    + exact Hr.
    + exact Hr2.
    + rewrite textOf_app, Hw. unfold Highlighter.textOf at 1. simpl.
      rewrite app_nil_r. apply firstn_substring; lia.
    + split; [exact H1|]. split; [exact H2|].
      intros p Hp Hh. destruct (H3 p Hp Hh) as [Hin|(r' & Hr' & E)].
      * apply in_app_or in Hin. destruct Hin as [Hin|[<-|[]]].
        -- unfold withText in Hin. destruct (lastPos <? Highlighter.start r).
           ++ apply in_app_or in Hin. destruct Hin as [Hin|[<-|[]]];
                [left; exact Hin | discriminate Hh].
           ++ left. exact Hin.
        -- right. exists r. split; [left; reflexivity | reflexivity].
      * right. exists r'. split; [right; exact Hr' | exact E].
Qed.

Lemma returned_matchedText_nonempty (originalText sourceText : jsstring) (m : Match) :
  In m (matches (findAllSimilarities originalText sourceText)) ->
  matchedText m <> [].
Proof.
  intros Hm. unfold findAllSimilarities in Hm. cbn [matches] in Hm.
  apply In_sortDesc in Hm.
  destruct (scanTexts_runInv originalText sourceText) as [HF _].
  destruct (Forall2_In_left _ _ _ _ _ m HF Hm)
    as (r & _ & w & Hw & Hlen & Hend & _ & _ & _ & _ & Hidx & Htext).
  set (extended := join (slice (split (normalizeText originalText))
                           (start r) (S (end_ r)))) in *.
  assert (Hext : extended <> []).
  { apply join_two_not_nil. rewrite slice_length by lia. lia. }
  destruct (0 <=? originalIndex m)%Z eqn:Epos.
  - apply Z.leb_le in Epos. rewrite Hidx in Epos.
    destruct (indexOf_found _ _ Epos) as (pre' & post' & E & Ek & _).
    unfold toLowerCase in E.
    apply map_eq_app in E. destruct E as (pre & tl & Eo & Epre & Etl).
    apply map_eq_app in Etl. destruct Etl as (c & post & -> & Ec & _).
    destruct (substring_prefix pre c post 20) as (tail & rest & _ & Esub & _).
    assert (Lpre : length pre = length pre') by (rewrite <- Epre; symmetry; apply length_map).
    assert (Lc : length c = length extended).
    { apply (f_equal (@length ascii)) in Ec. rewrite !length_map in Ec. exact Ec. }
    rewrite Htext, Hidx, Ek, Nat2Z.id, <- Lpre, <- Lc, Eo, Esub.
    destruct c; [|discriminate].
    destruct extended; [congruence | discriminate Lc].
  - rewrite Htext. exact Hext.
Qed.

Lemma checkArticles_matchedText_nonempty (text : jsstring)
  (articleContents : list (option WikiExtractResult)) :
  Forall (fun pm => PlagiarismMatch.matchedText pm <> [])
         (pr_matches (checkArticles text articleContents)).
Proof.
  apply Forall_forall. intros pm Hpm.
  unfold checkArticles in Hpm. cbn [pr_matches] in Hpm.
  rewrite In_sortDesc, compareArticles_In in Hpm.
  destruct Hpm as [[]|(a & m & _ & _ & Hm & ->)].
  cbn [plagiarismMatchOf PlagiarismMatch.matchedText].
  exact (returned_matchedText_nonempty _ _ _ Hm).
Qed.

Lemma render_nonempty (originalText : jsstring) (matches : list PlagiarismMatch.t) :
  matches <> [] ->
  Highlighter.renderHighlightedText originalText matches
  = let st :=
      fold_left (Highlighter.pushRange originalText)
        (Highlighter.sortByStart
           (fold_left (Highlighter.markMatch originalText)
              (sortDesc (fun m => ofNat (length (PlagiarismMatch.matchedText m)))
                 matches) []))
        ([], 0) in
    if snd st <? length originalText
    then fst st
         ++ [ {| Highlighter.highlighted := false;
                 Highlighter.text :=
                   substring originalText (snd st) (length originalText) |} ]
    else fst st.
Proof.
  intros Hne. destruct matches as [|m0 ms]; [congruence|].
  unfold Highlighter.renderHighlightedText. cbv zeta.
  destruct (fold_left (Highlighter.pushRange originalText) _ ([], 0)). reflexivity.
Qed.

Lemma render_spec (originalText : jsstring) (matches : list PlagiarismMatch.t) :
  Forall (fun m => PlagiarismMatch.matchedText m <> []) matches ->
  Highlighter.textOf (Highlighter.renderHighlightedText originalText matches)
  = originalText
  /\ Forall
       (fun p =>
          Highlighter.highlighted p = true ->
          exists m, In m matches
                    /\ toLowerCase (Highlighter.text p)
                       = toLowerCase (PlagiarismMatch.matchedText m))
       (Highlighter.renderHighlightedText originalText matches).
Proof.
  intros Hne.
  assert (Hcase : matches = [] \/ matches <> [])
    by (destruct matches; [left; reflexivity | right; discriminate]).
  destruct Hcase as [->|Hnil].
  - split.
    + unfold Highlighter.textOf. simpl. apply app_nil_r.
    + constructor; [discriminate | constructor].
  - rewrite (render_nonempty originalText matches Hnil). cbv zeta.
    set (sortedMatches :=
           sortDesc (fun m => ofNat (length (PlagiarismMatch.matchedText m))) matches).
    set (kept := fold_left (Highlighter.markMatch originalText) sortedMatches []).
    assert (Hkept : Forall (Highlighter.wellFormed originalText matches) kept
                    /\ Highlighter.pairwise Highlighter.disjoint kept).
    { apply (markMatches_inv originalText matches sortedMatches []).
      - intros m Hm. unfold sortedMatches in Hm. apply In_sortDesc in Hm.
        split; [exact Hm|]. rewrite Forall_forall in Hne. exact (Hne m Hm).
      - split; [constructor | exact I]. }
    destruct Hkept as [Hwf Hdis].
    assert (Hwf' : Forall (Highlighter.wellFormed originalText matches)
                     (Highlighter.sortByStart kept)).
    { apply Forall_forall. intros r Hr. apply (proj1 (In_sortByStart r kept)) in Hr.
      rewrite Forall_forall in Hwf. exact (Hwf r Hr). }
    assert (Hord : Highlighter.pairwise
                     (fun a b => Highlighter.end_ a <= Highlighter.start b)
                     (Highlighter.sortByStart kept)).
    { apply sortByStart_before; [|exact Hdis].
      eapply Forall_impl; [|exact Hwf]. intros r [H _]. exact H. }
    destruct (pushRanges_text originalText (Highlighter.sortByStart kept) [] 0 Hord)
      as (H1 & H2 & H3).
    + eapply Forall_impl; [|exact Hwf']. intros r (Ha & Hb & _). split; assumption.
    + apply Forall_forall. intros r _. lia.
    + lia.
    + reflexivity.
    + destruct (fold_left (Highlighter.pushRange originalText)
                  (Highlighter.sortByStart kept) ([], 0)) as [parts lastPos].
      cbn [fst snd] in *.
      assert (Hhl : forall p, In p parts -> Highlighter.highlighted p = true ->
                      exists m, In m matches
                                /\ toLowerCase (Highlighter.text p)
                                   = toLowerCase (PlagiarismMatch.matchedText m)).
      { intros p Hp Hh. destruct (H3 p Hp Hh) as [[]|(r & Hr & E)].
        rewrite Forall_forall in Hwf'. destruct (Hwf' r Hr) as (_ & _ & m & Hm & Em).
        exists m. split; [exact Hm|]. rewrite E. exact Em. }
      destruct (lastPos <? length originalText) eqn:E.
      * apply Nat.ltb_lt in E. split.
        -- rewrite textOf_app, H1. unfold Highlighter.textOf at 1. simpl.
           rewrite app_nil_r, firstn_substring by lia. apply firstn_all.
        -- apply Forall_forall. intros p Hp. apply in_app_or in Hp.
           destruct Hp as [Hp|[<-|[]]]; [apply Hhl; exact Hp | discriminate].
      * apply Nat.ltb_ge in E. split.
        -- rewrite H1. apply firstn_all2. exact E.
        -- apply Forall_forall. exact Hhl.
Qed.



(** X23, for a text and article extracts whose code units lie in
    U+0000..U+00FF, where [toLowerCase] keeps the length of a string: no
    matched text that [checkPlagiarism] reports is empty, and for every
    such text and every list of fetched articles, highlighting the result
    of [checkPlagiarism] in the text renders exactly the text.  (Outside
    that range a reported matched text may be empty, and the loop of the
    highlighter is then never left.) *)
Theorem highlighted_result_shows_the_text (text : jsstring)
  (articleContents : list (option WikiExtractResult)) :
  let reported := pr_matches (checkArticles text articleContents) in
  Forall (fun pm => PlagiarismMatch.matchedText pm <> []) reported
  /\ Highlighter.textOf (Highlighter.renderHighlightedText text reported) = text.
Proof.
  intros reported.
  pose proof (checkArticles_matchedText_nonempty text articleContents) as Hne.
  split; [exact Hne|]. apply render_spec. exact Hne.
Qed.



(** What the loop does is determined: two runs from the same state make
    the same number of passes and leave the same ranges. *)
Lemma whileRuns_unique (literal result : jsstring) (len lastIndex : nat)
  (ranges : list Highlighter.Range) (n : nat) (final : list Highlighter.Range) :
  whileRuns literal result len lastIndex ranges n final ->
  forall n' final',
    whileRuns literal result len lastIndex ranges n' final' ->
    n' = n /\ final' = final.
Proof.
  induction 1 as [lastIndex ranges E|lastIndex ranges start0 n final E _ IH];
    intros n' final' H'.
  - inversion H' as [k r E'|k r s0 n0 f0 E' _]; subst.
    + split; reflexivity.
    + rewrite E in E'. discriminate E'.
  - inversion H' as [k r E'|k r s0 n0 f0 E' Hrun]; subst.
    + rewrite E in E'. discriminate E'.
    + rewrite E in E'. injection E' as <-.
      destruct (IH _ _ Hrun) as [-> ->]. split; reflexivity.
Qed.

(** With a non-empty literal and enough fuel the bounded loop of the model
    is a run of the loop of the source, and every pass moves [lastIndex]
    forward by at least the length of the literal. *)
Lemma execLoop_runs (literal result : jsstring) (len : nat) :
  literal <> [] ->
  forall fuel lastIndex ranges,
    S (length result) <= fuel + lastIndex ->
    exists n,
      n * length literal <= length result - lastIndex
      /\ whileRuns literal result len lastIndex ranges n
           (Highlighter.execLoop fuel literal result len lastIndex ranges).
Proof.
  intros Hne.
  assert (Hlen : 0 < length literal) by (destruct literal; [congruence | simpl; lia]).
  induction fuel as [|fuel IH]; intros lastIndex ranges Hf.
  - exists 0. split; [lia|]. cbn [Highlighter.execLoop]. apply whileRuns_exit.
    unfold Highlighter.exec.
    replace (length result <? lastIndex) with true; [reflexivity|].
    symmetry. apply Nat.ltb_lt. lia.
  - cbn [Highlighter.execLoop].
    destruct (Highlighter.exec literal result lastIndex) as [start0|] eqn:E.
    + destruct (exec_spec _ _ _ _ E) as (H1 & H2 & _).
      destruct (IH (start0 + length literal)
                  (if Highlighter.overlapping ranges start0 (start0 + len)
                   then ranges
                   else ranges ++ [ Highlighter.mkRange start0 (start0 + len) ]))
        as (n & Hn & Hrun); [lia|].
      exists (S n). split; [simpl; lia|].
      eapply whileRuns_pass; [exact E | exact Hrun].
    + exists 0. split; [lia|]. apply whileRuns_exit. exact E.
Qed.

(** With the empty literal the loop is never left: every search finds the
    empty string at [lastIndex] and leaves [lastIndex] where it is. *)
Lemma whileRuns_empty_literal (result : jsstring) (len lastIndex : nat)
  (ranges : list Highlighter.Range) (n : nat) (final : list Highlighter.Range) :
  whileRuns [] result len lastIndex ranges n final ->
  length result < lastIndex.
Proof.
  induction 1 as [lastIndex ranges E|lastIndex ranges start0 n final E _ IH].
  - unfold Highlighter.exec in E.
    destruct (length result <? lastIndex) eqn:El; [apply Nat.ltb_lt; exact El|].
    destruct (skipn lastIndex result); discriminate E.
  - unfold Highlighter.exec in E.
    destruct (length result <? lastIndex) eqn:El; [discriminate E|].
    assert (start0 = lastIndex) as ->
      by (destruct (skipn lastIndex result); simpl in E; congruence).
    cbn [length] in IH. rewrite Nat.add_0_r in IH. exact IH.
Qed.

(** X25: the search loop of the highlighter, taken as the source runs it
    (without any bound on its passes), ends for a non-empty matched text:
    it is left after at most [length of the text / length of the matched
    text] passes, with the ranges that [markMatch] computes, and no run of
    it makes another number of passes or leaves other ranges.  For the
    empty matched text the loop is never left: the regular expression
    finds the empty string at [lastIndex] = 0 again and again. *)
Theorem highlighter_loop_ends (result : jsstring)
  (ranges : list Highlighter.Range) (m : PlagiarismMatch.t) :
  let matchedText := PlagiarismMatch.matchedText m in
  let literal := matchedText in
  Highlighter.literalOfPattern (Highlighter.escapeRegExp matchedText) = Some literal
  /\ (matchedText <> [] ->
      exists n,
        n * length matchedText <= length result
        /\ whileRuns literal result (length matchedText) 0 ranges n
             (Highlighter.markMatch result ranges m)
        /\ forall n' final,
             whileRuns literal result (length matchedText) 0 ranges n' final ->
             n' = n /\ final = Highlighter.markMatch result ranges m)
  /\ (matchedText = [] ->
      forall n final,
        ~ whileRuns literal result (length matchedText) 0 ranges n final).
Proof.
  intros matchedText literal. split; [apply escapeRegExp_literal|]. split.
  - intros Hne.
    destruct (execLoop_runs literal result (length matchedText) Hne
                (S (length result)) 0 ranges) as (n & Hn & Hrun); [lia|].
    assert (Hm : Highlighter.markMatch result ranges m
                 = Highlighter.execLoop (S (length result)) literal result
                     (length matchedText) 0 ranges).
    { unfold Highlighter.markMatch. fold matchedText.
      rewrite escapeRegExp_literal. reflexivity. }
    rewrite Hm. exists n. rewrite Nat.sub_0_r in Hn.
    split; [exact Hn|]. split; [exact Hrun|].
    intros n' final H'. exact (whileRuns_unique _ _ _ _ _ _ _ Hrun _ _ H').
  - intros He n final Hrun. unfold literal in Hrun. rewrite He in Hrun.
    apply whileRuns_empty_literal in Hrun. lia.
Qed.

(** X25 at the matched text [ab] in a text where it occurs twice, once in
    capitals: the loop is left after at most four passes with two ranges;
    and at the empty matched text in the same text, where it is never
    left. *)
Lemma highlighter_loop_ends_witness :
  (exists n,
      n * 2 <= 8
      /\ whileRuns (str "ab") (str "xxabxxAB") 2 0 [] n
           [ Highlighter.mkRange 2 4; Highlighter.mkRange 6 8 ])
  /\ (forall n final, ~ whileRuns [] (str "xxabxxAB") 0 0 [] n final).
Proof.
  split.
  - destruct (proj1 (proj2 (highlighter_loop_ends (str "xxabxxAB") []
                              (matchOfText (str "ab")))))
      as (n & Hn & Hrun & _); [discriminate|].
    exists n. split; [exact Hn | exact Hrun].
  - apply (proj2 (proj2 (highlighter_loop_ends (str "xxabxxAB") []
                           (matchOfText [])))).
    reflexivity.
Defined.

(** ** The submission form and the search terms *)

Lemma trimStart_length (s : jsstring) : length (trimStart s) <= length s.
Proof.
  induction s as [|c s IH]; simpl; [lia|].
  destruct (isSpaceChar c); simpl; lia.
Qed.

Lemma trimEnd_length (s : jsstring) : length (trimEnd s) <= length s.
Proof.
  induction s as [|c s IH]; simpl; [lia|].
  destruct (trimEnd s) as [|y r].
  - destruct (isSpaceChar c); simpl; lia.
  - simpl in *. lia.
Qed.

Lemma trim_length (s : jsstring) : length (trim s) <= length s.
Proof.
  unfold trim. pose proof (trimEnd_length (trimStart s)).
  pose proof (trimStart_length s). lia.
Qed.

(** X26: a text accepted by the submission form has at least 50
    characters, and none of the search terms extracted from it is empty;
    without the guard the empty text would give one empty search term. *)
Theorem accepted_submission_has_search_terms :
  (forall text,
      submissionAccepted text = true ->
      50 <= length text
      /\ Forall (fun t => t <> []) (extractSearchTerms text))
  /\ submissionAccepted [] = false
  /\ extractSearchTerms [] = [[]].
Proof.
  split; [|split; reflexivity].
  intros text H. unfold submissionAccepted in H.
  apply negb_true_iff, orb_false_iff in H. destruct H as [_ H].
  apply Nat.ltb_ge in H. pose proof (trim_length text) as Hl.
  split; [lia|].
  unfold extractSearchTerms.
  set (sentences := searchSentences text).
  assert (Hsent : forall t, In t sentences -> t <> []).
  { intros t Ht. destruct (searchSentences_spec text t Ht) as (_ & _ & H15 & _).
    intros ->. simpl in H15. lia. }
  destruct (5 <? length sentences) eqn:E5.
  - apply Nat.ltb_lt in E5. apply Forall_forall. intros t Ht.
    destruct (withoutRepeats_spec
                [nth 0 sentences []; nth (length sentences / 4) sentences [];
                 nth (length sentences / 2) sentences [];
                 nth (length sentences * 3 / 4) sentences [];
                 nth (length sentences - 1) sentences []]) as (_ & Hin & _).
    apply Hin in Ht. apply Hsent.
    assert (H4 : length sentences / 4 < length sentences)
      by (apply Nat.Div0.div_lt_upper_bound; lia).
    assert (H2 : length sentences / 2 < length sentences)
      by (apply Nat.Div0.div_lt_upper_bound; lia).
    assert (H3 : length sentences * 3 / 4 < length sentences)
      by (apply Nat.Div0.div_lt_upper_bound; lia).
    destruct Ht as [<-|[<-|[<-|[<-|[<-|[]]]]]]; apply nth_In; lia.
  - destruct (0 <? length sentences); [apply Forall_forall; exact Hsent|].
    destruct (200 <? length text) eqn:E200.
    + apply Nat.ltb_lt in E200.
      assert (Hhalf : 100 <= length text / 2)
        by (apply Nat.div_le_lower_bound; lia).
      assert (Hhalf3 : length text / 2 + 50 <= length text).
      { assert (2 * (length text / 2) <= length text)
          by (apply Nat.Div0.mul_div_le). lia. }
      assert (Hsub : forall a b, a < b -> b <= length text -> substring text a b <> []).
      { intros a b Hab Hb E.
        destruct (substring_part text a b) as (_ & _ & _ & Hlen).
        rewrite E in Hlen. simpl in Hlen. lia. }
      repeat constructor; apply Hsub; lia.
    + constructor; [|constructor]. intros E.
      apply (f_equal (@length ascii)) in E. simpl in E. lia.
Qed.

(** X26 at a text of 60 characters. *)
Lemma accepted_submission_witness :
  Forall (fun t => t <> []) (extractSearchTerms (repeat "a"%char 60)).
Proof.
  apply (proj1 accepted_submission_has_search_terms (repeat "a"%char 60)).
  reflexivity.
Defined.
